(** * Alcohollocatorapp: heading estimator and geo query engine

    A shallow embedding of the two algorithmic cores of the application:

    - [src/hooks/useDeviceOrientation.ts]: the compass heading hook
      (normalisation, smoothing, provider paths);
    - [src/services/overpass.ts]: the Overpass client (rate limiter,
      endpoint failover, response mapping, cache and in-flight sharing).

    Conventions.  JavaScript numbers are binary64 doubles.  The heading
    hook is read three times: in double arithmetic, with its rounding, its
    signed zeros, infinities and NaN (modules [Double] and [Heading64]); in
    exact rational arithmetic, for what the formulas do when nothing is
    rounded and every number is finite (module [Heading]); and over the
    reals for the trigonometry of the Euler conversion (module [Euler]).
    Where rounding, a zero divisor or NaN changes what the hook publishes,
    [Heading64] says so.  The cache key rounds its coordinates in doubles.  Millisecond clock readings are in [Z].
    [Math.random], [Date.now], timers, the network, and the interleaving of
    other calls on shared state are inputs of the functions that meet
    them. *)

From Stdlib Require Import ZArith QArith Qround Qabs Qminmax Reals Psatz List String.
From Stdlib Require Import SpecFloat.
From stdpp Require Import gmap strings pretty sorting.
Import ListNotations.

(** ** JavaScript arithmetic on exact rationals *)

Module JsNum.
Local Open Scope Q_scope.

(** Truncation toward zero, the integer part used by JavaScript's [%]. *)
Definition Qtrunc (q : Q) : Z := Z.quot (Qnum q) (Zpos (Qden q)).

(** [a % b]: the remainder with the sign of the dividend. *)
Definition js_rem (a b : Q) : Q := a - b * inject_Z (Qtrunc (a / b)).

(** [Math.round]: nearest integer, ties toward +infinity. *)
Definition js_round (q : Q) : Z := Qfloor (q + (1 # 2)).

Definition Qltb (a b : Q) : bool := negb (Qle_bool b a).

Lemma Qltb_lt (a b : Q) : Qltb a b = true <-> a < b.
Proof.
  unfold Qltb. rewrite negb_true_iff. split.
  - intros H. apply Qnot_le_lt. intros Hle.
    apply Qle_bool_iff in Hle. congruence.
  - intros H. destruct (Qle_bool b a) eqn:E; [|reflexivity].
    apply Qle_bool_iff in E. exfalso. exact (Qlt_not_le _ _ H E).
Qed.

Lemma Qltb_ge (a b : Q) : Qltb a b = false <-> b <= a.
Proof.
  unfold Qltb. rewrite negb_false_iff. apply Qle_bool_iff.
Qed.

Lemma Qtrunc_nonneg (q : Q) :
  0 <= q -> inject_Z (Qtrunc q) <= q /\ q < inject_Z (Qtrunc q) + 1.
Proof.
  destruct q as [n d]. unfold Qtrunc, Qle, Qlt, Qplus, inject_Z. simpl.
  intros Hn.
  assert (Hd : (0 < Z.pos d)%Z) by lia.
  pose proof (Z.quot_rem' n (Z.pos d)) as E.
  pose proof (Z.rem_bound_pos n (Z.pos d) ltac:(lia) Hd) as B.
  split; nia.
Qed.

Lemma Qtrunc_nonpos (q : Q) :
  q <= 0 -> q <= inject_Z (Qtrunc q) /\ inject_Z (Qtrunc q) - 1 < q.
Proof.
  destruct q as [n d]. unfold Qtrunc, Qle, Qlt, Qminus, Qplus, Qopp, inject_Z.
  simpl. intros Hn.
  assert (Hd : (0 < Z.pos d)%Z) by lia.
  pose proof (Z.quot_rem' n (Z.pos d)) as E.
  pose proof (Z.rem_nonpos n (Z.pos d) ltac:(lia) ltac:(lia)) as B.
  pose proof (Z.rem_bound_abs n (Z.pos d) ltac:(lia)) as A.
  split; nia.
Qed.

Lemma div_sandwich (a b lo hi : Q) :
  0 < b -> lo <= a / b -> a / b < hi -> b * lo <= a /\ a < b * hi.
Proof.
  intros Hb L U.
  assert (E : a == b * (a / b)).
  { field. intros H. rewrite H in Hb. discriminate. }
  revert E L U. generalize (a / b). intros q E L U.
  rewrite E. split.
  - apply Qmult_le_l; assumption.
  - apply Qmult_lt_l; assumption.
Qed.

(** The remainder by a positive modulus keeps the sign of the dividend and is
    smaller than the modulus in absolute value. *)
Lemma js_rem_nonneg (a b : Q) :
  0 < b -> 0 <= a -> 0 <= js_rem a b /\ js_rem a b < b.
Proof.
  intros Hb Ha. unfold js_rem.
  assert (Hq : 0 <= a / b).
  { apply Qle_shift_div_l; [exact Hb | rewrite Qmult_0_l; exact Ha]. }
  destruct (Qtrunc_nonneg _ Hq) as [L U].
  destruct (div_sandwich a b _ _ Hb L U) as [L' U'].
  clear Hq L U.
  revert L' U'. generalize (inject_Z (Qtrunc (a / b))). intros t L' U'.
  assert (b * (t + 1) == b * t + b) by ring.
  split; lra.
Qed.

Lemma js_rem_nonpos (a b : Q) :
  0 < b -> a <= 0 -> - b < js_rem a b /\ js_rem a b <= 0.
Proof.
  intros Hb Ha. unfold js_rem.
  assert (Hq : a / b <= 0).
  { apply Qle_shift_div_r; [exact Hb | rewrite Qmult_0_l; exact Ha]. }
  destruct (Qtrunc_nonpos _ Hq) as [L U].
  assert (U' : b * (inject_Z (Qtrunc (a / b)) - 1) < a).
  { assert (E : a == b * (a / b)).
    { field. intros H. rewrite H in Hb. discriminate. }
    rewrite E at 2. apply Qmult_lt_l; assumption. }
  assert (L' : a <= b * inject_Z (Qtrunc (a / b))).
  { assert (E : a == b * (a / b)).
    { field. intros H. rewrite H in Hb. discriminate. }
    rewrite E at 1. apply Qmult_le_l; assumption. }
  clear Hq L U.
  revert L' U'. generalize (inject_Z (Qtrunc (a / b))). intros t L' U'.
  assert (b * (t - 1) == b * t - b) by ring.
  split; lra.
Qed.

Lemma js_rem_congr (a b : Q) : exists k : Z, js_rem a b == a + b * inject_Z k.
Proof.
  exists (- Qtrunc (a / b))%Z. unfold js_rem. rewrite inject_Z_opp. ring.
Qed.

End JsNum.

(** ** JavaScript numbers as binary64 doubles *)

Module Double.
Local Open Scope Z_scope.

(** A JavaScript number: a signed zero, an infinity, NaN, or
    [(-1)^s * m * 2^e] with a mantissa of at most 53 bits. *)
Definition double : Type := spec_float.

Definition prec : Z := 53.
Definition emax : Z := 1024.

(** [+], [-], [*], [/] and unary minus, each rounded to the nearest double,
    ties to even. *)
Definition add : double -> double -> double := SFadd prec emax.
Definition sub : double -> double -> double := SFsub prec emax.
Definition mul : double -> double -> double := SFmul prec emax.
Definition div : double -> double -> double := SFdiv prec emax.
Definition opp : double -> double := SFopp.

(** [x < y]: false when either side is NaN. *)
Definition ltb : double -> double -> bool := SFltb.

(** The double nearest to [m * 2^e]. *)
Definition scaled (m e : Z) : double := binary_normalize prec emax m e false.

Definition of_Z (z : Z) : double := scaled z 0.

Definition NaN : double := S754_nan.

Definition is_finite (x : double) : bool :=
  match x with
  | S754_zero _ | S754_finite _ _ _ => true
  | _ => false
  end.

(** [n % d]: NaN when [n] is infinite or [d] a zero, [n] when [d] is
    infinite or [n] a zero, else the exact remainder of the truncated
    quotient, with the sign of the dividend (a zero remainder too). *)
Definition rem (n d : double) : double :=
  match n, d with
  | S754_nan, _ | _, S754_nan => S754_nan
  | S754_infinity _, _ => S754_nan
  | _, S754_zero _ => S754_nan
  | _, S754_infinity _ => n
  | S754_zero _, _ => n
  | S754_finite sn mn en, S754_finite _ md ed =>
      let e := Z.min en ed in
      let r := Z.rem (Z.shiftl (Zpos mn) (en - e)) (Z.shiftl (Zpos md) (ed - e)) in
      binary_normalize prec emax (cond_Zopp sn r) e sn
  end.

(** The double nearest to a rational: the value of a decimal literal. *)
Definition of_Q (q : Q) : double :=
  match Qnum q with
  | Z0 => S754_zero false
  | Zpos n =>
      let '(m, e, l) := SFdiv_core_binary prec emax (Zpos n) 0 (Zpos (Qden q)) 0 in
      binary_round_aux prec emax false m e l
  | Zneg n =>
      let '(m, e, l) := SFdiv_core_binary prec emax (Zpos n) 0 (Zpos (Qden q)) 0 in
      binary_round_aux prec emax true m e l
  end.

(** The rational a finite double stands for (0 for the others). *)
Definition to_Q (x : double) : Q :=
  match x with
  | S754_finite s m e =>
      match e with
      | Zneg k => cond_Zopp s (Zpos m) # Pos.shiftl 1 (Npos k)
      | _ => inject_Z (Z.shiftl (cond_Zopp s (Zpos m)) e)
      end
  | _ => 0%Q
  end.

(** [Math.round]: the nearest integer, ties upward; a result of zero keeps
    the sign of the argument. *)
Definition Math_round (x : double) : double :=
  match x with
  | S754_finite s _ _ =>
      let n := JsNum.js_round (to_Q x) in
      if n =? 0 then S754_zero s else of_Z n
  | _ => x
  end.

(** [Math.PI], and the literal [0.2]. *)
Definition Math_PI : double := scaled 7074237752028440 (-51).

Example Math_PI_digits : Math_PI = of_Q (3141592653589793 # 1000000000000000).
Proof. vm_compute. reflexivity. Qed.

Example one_fifth : of_Q (2 # 10) = S754_finite false 7205759403792794 (-55).
Proof. vm_compute. reflexivity. Qed.

Example sum_rounds : add (of_Q (1 # 10)) (of_Q (2 # 10)) = of_Q (30000000000000004 # 100000000000000000).
Proof. vm_compute. reflexivity. Qed.

Example rem_keeps_sign :
  rem (of_Z (-725)) (of_Z 360) = of_Z (-5) /\
  rem (of_Z (-720)) (of_Z 360) = S754_zero true /\
  rem (of_Z 5) (S754_zero false) = NaN.
Proof. vm_compute. repeat split; reflexivity. Qed.

Example Math_round_half_up :
  Math_round (of_Q (25 # 10)) = of_Z 3 /\
  Math_round (of_Q (-25 # 10)) = of_Z (-2) /\
  Math_round (of_Q (-3 # 10)) = S754_zero true.
Proof. vm_compute. repeat split; reflexivity. Qed.

End Double.

(** ** Heading estimator ([src/hooks/useDeviceOrientation.ts]), in exact
    arithmetic

    The hook with every number a rational and every operation exact.  What
    differs in the doubles: [normalizeAngle] returns 360 for negative
    arguments above about -2.8e-14, and the Euler conversion returns NaN
    when beta and gamma are zero; module [Heading64] has both. *)

Module Heading.
Import JsNum.
Local Open Scope Q_scope.

Record Vec3 := { vx : Q; vy : Q; vz : Q }.

(** [DeviceOrientationState]: the value the hook exposes; [null] is [None]. *)
Record DeviceOrientationState := {
  alpha : option Q;
  beta : option Q;
  gamma : option Q;
  heading : option Q;
  absolute : bool;
  isSupported : bool;
  hasPermission : option bool;
  error : option string
}.

(** The [Partial<DeviceOrientationState>] argument of [updateHeading], with
    the fields its three callers pass; an absent field is [None]. *)
Record Extra := {
  x_alpha : option (option Q);
  x_beta : option (option Q);
  x_gamma : option (option Q);
  x_absolute : option bool
}.

Definition no_extra : Extra :=
  {| x_alpha := None; x_beta := None; x_gamma := None; x_absolute := None |}.

(** The hook instance: React state plus the refs the handlers close over. *)
Record Hook := {
  orientation : DeviceOrientationState;
  isActive : bool;
  lastHeadingRef : option Q;
  latestAccel : option Vec3;
  latestMag : option Vec3
}.

(** What [window.screen.orientation.angle] and [window.orientation] hold when
    a handler runs ([None]: not a number). *)
Record Screen := {
  screen_orientation_angle : option Q;
  window_orientation : option Q
}.

(** A [deviceorientation] event as [handleOrientation] reads it. *)
Record OrientationEvent := {
  webkitCompassHeading : option Q;
  ev_alpha : option Q;
  ev_beta : option Q;
  ev_gamma : option Q;
  ev_absolute : bool
}.

Definition normalizeAngle (deg : Q) : Q :=
  let a := js_rem deg 360 in
  if Qltb a 0 then a + 360 else a.

Definition shortestDelta (a b : Q) : Q :=
  js_rem (b - a + 540) 360 - 180.

Definition getScreenAngle (scr : Screen) : Q :=
  match screen_orientation_angle scr with
  | Some a => a
  | None =>
      match window_orientation scr with
      | Some a => a
      | None => 0
      end
  end.

Definition smoothing_factor : Q := 2 # 10.

(** The value [updateHeading] stores and publishes. *)
Definition smooth (prev : option Q) (newHeading : Q) : Q :=
  match prev with
  | Some p => normalizeAngle (p + smoothing_factor * shortestDelta p newHeading)
  | None => newHeading
  end.

Definition spread {A} (x : option A) (old : A) : A :=
  match x with Some v => v | None => old end.

Definition updateHeading (newHeading : Q) (extra : Extra) (h : Hook) : Hook :=
  let smoothed := smooth (lastHeadingRef h) newHeading in
  let prevState := orientation h in
  {| orientation :=
       {| alpha := spread (x_alpha extra) (alpha prevState);
          beta := spread (x_beta extra) (beta prevState);
          gamma := spread (x_gamma extra) (gamma prevState);
          heading := Some smoothed;
          absolute := spread (x_absolute extra) true;
          isSupported := isSupported prevState;
          hasPermission := Some true;
          error := None |};
     isActive := isActive h;
     lastHeadingRef := Some smoothed;
     latestAccel := latestAccel h;
     latestMag := latestMag h |}.

Definition stopTracking (h : Hook) : Hook :=
  let prev := orientation h in
  {| orientation :=
       {| alpha := None; beta := None; gamma := None; heading := None;
          absolute := absolute prev; isSupported := isSupported prev;
          hasPermission := hasPermission prev; error := error prev |};
     isActive := false;
     lastHeadingRef := None;
     latestAccel := latestAccel h;
     latestMag := latestMag h |}.

(** [requestPermission] on its granting paths: the hook becomes active. *)
Definition activate (h : Hook) : Hook :=
  let prev := orientation h in
  {| orientation :=
       {| alpha := alpha prev; beta := beta prev; gamma := gamma prev;
          heading := heading prev; absolute := absolute prev;
          isSupported := isSupported prev;
          hasPermission := Some true; error := None |};
     isActive := true;
     lastHeadingRef := lastHeadingRef h;
     latestAccel := latestAccel h;
     latestMag := latestMag h |}.

Definition initial (supported : bool) : Hook :=
  {| orientation :=
       {| alpha := None; beta := None; gamma := None; heading := None;
          absolute := false; isSupported := supported;
          hasPermission := None; error := None |};
     isActive := false;
     lastHeadingRef := None;
     latestAccel := None;
     latestMag := None |}.

Section Providers.

(** The library calls of the provider paths, as the finite numbers they
    return: [Math.atan2(y, x)] scaled to degrees, the tilt-compensated
    magnetic heading in degrees (line 238), and
    [computeCompassHeadingFromEuler], here a total function: module [Euler]
    has it over the reals and [Heading64] in doubles, where it can return
    NaN.  No property below depends on which numbers they return. *)
Variable atan2Deg : Q -> Q -> Q.
Variable tiltHeadingDeg : Vec3 -> Vec3 -> Q.
Variable computeCompassHeadingFromEuler : Q -> Q -> Q -> Q.

(** [sensor.onreading] of the absolute orientation sensor. *)
Definition onAbsoluteReading (q : option (list Q)) (scr : Screen) (h : Hook) : Hook :=
  match q with
  | Some [q0; q1; q2; q3] =>
      let '(qw, qx, qy, qz) :=
        if Qltb (1 # 2) (Qabs q0) then (q0, q1, q2, q3) else (q3, q0, q1, q2) in
      let yawDeg := atan2Deg (2 * (qw * qz + qx * qy)) (1 - 2 * (qy * qy + qz * qz)) in
      let heading := normalizeAngle (360 - yawDeg) in
      let heading := normalizeAngle (heading + getScreenAngle scr) in
      updateHeading heading
        {| x_alpha := None; x_beta := None; x_gamma := None; x_absolute := Some true |} h
  | _ => h
  end.

Definition computeTiltCompensatedHeading (scr : Screen) (h : Hook) : Hook :=
  match latestAccel h, latestMag h with
  | Some a, Some m =>
      let heading := normalizeAngle (tiltHeadingDeg a m) in
      let heading := normalizeAngle (heading + getScreenAngle scr) in
      updateHeading heading no_extra h
  | _, _ => h
  end.

Definition set_latestAccel (v : Vec3) (h : Hook) : Hook :=
  {| orientation := orientation h; isActive := isActive h;
     lastHeadingRef := lastHeadingRef h;
     latestAccel := Some v; latestMag := latestMag h |}.

Definition set_latestMag (v : Vec3) (h : Hook) : Hook :=
  {| orientation := orientation h; isActive := isActive h;
     lastHeadingRef := lastHeadingRef h;
     latestAccel := latestAccel h; latestMag := Some v |}.

Definition onAccelReading (v : Vec3) (scr : Screen) (h : Hook) : Hook :=
  computeTiltCompensatedHeading scr (set_latestAccel v h).

Definition onMagReading (v : Vec3) (scr : Screen) (h : Hook) : Hook :=
  computeTiltCompensatedHeading scr (set_latestMag v h).

(** The heading [handleOrientation] derives from the event before the screen
    correction: vendor value, Euler conversion, or the alpha fallback. *)
Definition eventHeading (ev : OrientationEvent) : option Q :=
  let heading :=
    match webkitCompassHeading ev with
    | Some w => Some w
    | None =>
        match ev_absolute ev, ev_alpha ev, ev_beta ev, ev_gamma ev with
        | true, Some a, Some b, Some g => Some (computeCompassHeadingFromEuler a b g)
        | _, _, _, _ => None
        end
    end in
  match heading, ev_alpha ev with
  | None, Some a => Some (js_rem (360 - a) 360)
  | _, _ => heading
  end.

(** The argument [handleOrientation] passes to [updateHeading]. *)
Definition correctedHeading (ev : OrientationEvent) (scr : Screen) : option Q :=
  match eventHeading ev with
  | Some heading => Some (normalizeAngle (heading + getScreenAngle scr))
  | None => None
  end.

Definition handleOrientation (ev : OrientationEvent) (scr : Screen) (h : Hook) : Hook :=
  match correctedHeading ev scr with
  | Some heading =>
      updateHeading heading
        {| x_alpha := Some (ev_alpha ev); x_beta := Some (ev_beta ev);
           x_gamma := Some (ev_gamma ev); x_absolute := Some (ev_absolute ev) |} h
  | None => h
  end.

(** What can happen to a hook instance.  Sensor callbacks are attached by the
    effect only while [isActive] holds, so a reading on an inactive hook is
    not delivered. *)
Inductive Event :=
| Activate
| StopTracking
| AbsoluteReading (q : option (list Q)) (scr : Screen)
| AccelReading (v : Vec3) (scr : Screen)
| MagReading (v : Vec3) (scr : Screen)
| Orientation (ev : OrientationEvent) (scr : Screen).

Definition step (h : Hook) (e : Event) : Hook :=
  match e with
  | Activate => activate h
  | StopTracking => stopTracking h
  | AbsoluteReading q scr => if isActive h then onAbsoluteReading q scr h else h
  | AccelReading v scr => if isActive h then onAccelReading v scr h else h
  | MagReading v scr => if isActive h then onMagReading v scr h else h
  | Orientation ev scr => if isActive h then handleOrientation ev scr h else h
  end.

Definition run (evs : list Event) (h : Hook) : Hook := fold_left step evs h.

End Providers.

(** Shortest-arc distance between two normalised headings. *)
Definition circDist (a b : Q) : Q :=
  let d := Qabs (a - b) in Qmin d (360 - d).

Definition normalized (x : Q) : Prop := 0 <= x /\ x < 360.

(** The published heading, when there is one, is normalised. *)
Definition emitted_in_range (h : Hook) : Prop :=
  match heading (orientation h) with
  | Some x => normalized x
  | None => True
  end.

(** The smoothing memory mirrors the published heading and is normalised. *)
Definition wf (h : Hook) : Prop :=
  heading (orientation h) = lastHeadingRef h /\
  forall p, lastHeadingRef h = Some p -> normalized p.

(** *** Normalisation and shortest delta *)

Lemma normalizeAngle_range (deg : Q) : normalized (normalizeAngle deg).
Proof.
  unfold normalized, normalizeAngle.
  destruct (Qlt_le_dec deg 0) as [Hneg | Hpos].
  - destruct (js_rem_nonpos deg 360) as [L U]; [reflexivity | lra |].
    destruct (Qltb (js_rem deg 360) 0) eqn:E.
    + apply Qltb_lt in E. lra.
    + apply Qltb_ge in E. lra.
  - destruct (js_rem_nonneg deg 360) as [L U]; [reflexivity | exact Hpos |].
    destruct (Qltb (js_rem deg 360) 0) eqn:E.
    + apply Qltb_lt in E. lra.
    + lra.
Qed.

Lemma normalizeAngle_congr (deg : Q) :
  exists k : Z, normalizeAngle deg == deg + 360 * inject_Z k.
Proof.
  unfold normalizeAngle. destruct (js_rem_congr deg 360) as [k Hk].
  destruct (Qltb (js_rem deg 360) 0).
  - exists (k + 1)%Z. rewrite inject_Z_plus, Hk. ring.
  - exists k. exact Hk.
Qed.

Lemma shortestDelta_range (a b : Q) :
  normalized a -> normalized b ->
  -180 <= shortestDelta a b /\ shortestDelta a b < 180.
Proof.
  unfold normalized, shortestDelta. intros [A0 A1] [B0 B1].
  destruct (js_rem_nonneg (b - a + 540) 360) as [L U]; [reflexivity | lra |].
  lra.
Qed.

Lemma shortestDelta_congr (a b : Q) :
  exists k : Z, shortestDelta a b == b - a + 360 * inject_Z k.
Proof.
  unfold shortestDelta. destruct (js_rem_congr (b - a + 540) 360) as [k Hk].
  exists (k + 1)%Z. rewrite inject_Z_plus, Hk. ring.
Qed.

Lemma small_multiple (k : Z) :
  -2 < inject_Z k -> inject_Z k < 2 -> k = (-1)%Z \/ k = 0%Z \/ k = 1%Z.
Proof.
  intros L U.
  change (inject_Z (-2) < inject_Z k) in L.
  change (inject_Z k < inject_Z 2) in U.
  rewrite <- Zlt_Qlt in L, U. lia.
Qed.

(** One smoothing step moves a normalised heading by at most a fifth of a
    half turn along the shorter arc. *)
Lemma smooth_step_bound (p n : Q) :
  normalized p -> normalized n -> circDist p (smooth (Some p) n) <= 36.
Proof.
  intros Hp Hn. simpl. unfold smoothing_factor.
  destruct (shortestDelta_range p n Hp Hn) as [D0 D1].
  set (d := shortestDelta p n) in *. clearbody d.
  destruct (normalizeAngle_range (p + (2 # 10) * d)) as [X0 X1].
  destruct (normalizeAngle_congr (p + (2 # 10) * d)) as [k Hk].
  set (x := normalizeAngle (p + (2 # 10) * d)) in *. clearbody x.
  destruct Hp as [P0 P1].
  assert (Hk3 : k = (-1)%Z \/ k = 0%Z \/ k = 1%Z).
  { apply small_multiple; lra. }
  unfold circDist.
  destruct Hk3 as [-> | [-> | ->]].
  - eapply Qle_trans; [apply Q.le_min_r |].
    pose proof (Qle_Qabs (p - x)) as A.
    change (inject_Z (-1)) with (-1) in Hk. lra.
  - eapply Qle_trans; [apply Q.le_min_l |].
    apply Qabs_Qle_condition.
    change (inject_Z 0) with 0 in Hk. lra.
  - eapply Qle_trans; [apply Q.le_min_r |].
    pose proof (Qle_Qabs (- (p - x))) as A. rewrite Qabs_opp in A.
    change (inject_Z 1) with 1 in Hk. lra.
Qed.

Lemma circDist_refl (p : Q) : circDist p p <= 36.
Proof.
  unfold circDist. eapply Qle_trans; [apply Q.le_min_l |].
  apply Qabs_Qle_condition. lra.
Qed.

(** *** The hook keeps its heading normalised *)

Lemma smooth_range (prev : option Q) (n : Q) :
  normalized n -> normalized (smooth prev n).
Proof.
  destruct prev as [p |]; simpl; [intros _; apply normalizeAngle_range | tauto].
Qed.

Lemma updateHeading_wf (n : Q) (extra : Extra) (h : Hook) :
  normalized n -> wf (updateHeading n extra h).
Proof.
  intros Hn. split; simpl; [reflexivity |].
  intros p [= <-]. apply smooth_range, Hn.
Qed.

Section ProviderFacts.
Variable atan2Deg : Q -> Q -> Q.
Variable tiltHeadingDeg : Vec3 -> Vec3 -> Q.
Variable euler : Q -> Q -> Q -> Q.

Lemma correctedHeading_range ev scr c :
  correctedHeading euler ev scr = Some c -> normalized c.
Proof.
  unfold correctedHeading. destruct (eventHeading euler ev); [| discriminate].
  intros [= <-]. apply normalizeAngle_range.
Qed.

Lemma step_wf (h : Hook) (e : Event) :
  wf h -> wf (step atan2Deg tiltHeadingDeg euler h e).
Proof.
  intros Hwf. destruct e as [| | q scr | v scr | v scr | ev scr]; simpl.
  - destruct Hwf as [E R]. split; simpl; assumption.
  - split; simpl; [reflexivity | discriminate].
  - destruct (isActive h); [| exact Hwf].
    unfold onAbsoluteReading.
    destruct q as [[| q0 [| q1 [| q2 [| q3 [| ? ?]]]]] |]; try exact Hwf.
    destruct (Qltb (1 # 2) (Qabs q0));
      apply updateHeading_wf, normalizeAngle_range.
  - destruct (isActive h); [| exact Hwf].
    unfold onAccelReading, computeTiltCompensatedHeading. simpl.
    destruct (latestMag h); [| exact Hwf].
    apply updateHeading_wf, normalizeAngle_range.
  - destruct (isActive h); [| exact Hwf].
    unfold onMagReading, computeTiltCompensatedHeading. simpl.
    destruct (latestAccel h); [| exact Hwf].
    apply updateHeading_wf, normalizeAngle_range.
  - destruct (isActive h); [| exact Hwf].
    unfold handleOrientation.
    destruct (correctedHeading euler ev scr) as [c |] eqn:E; [| exact Hwf].
    apply updateHeading_wf. eapply correctedHeading_range, E.
Qed.

Lemma run_wf (evs : list Event) (h : Hook) :
  wf h -> wf (run atan2Deg tiltHeadingDeg euler evs h).
Proof.
  unfold run. revert h.
  induction evs as [| e evs IH]; intros h Hwf; simpl; [exact Hwf |].
  apply IH, step_wf, Hwf.
Qed.

Lemma initial_wf (supported : bool) : wf (initial supported).
Proof. split; simpl; [reflexivity | discriminate]. Qed.

(** Every sensor callback feeds [updateHeading] a normalised heading, so the
    published heading either stays or is one smoothing step away. *)
Lemma step_heading (h : Hook) (e : Event) :
  wf h ->
  let h' := step atan2Deg tiltHeadingDeg euler h e in
  heading (orientation h') = None \/
  heading (orientation h') = lastHeadingRef h \/
  exists n, normalized n /\
    heading (orientation h') = Some (smooth (lastHeadingRef h) n).
Proof.
  intros [E R].
  assert (U : forall n extra, normalized n ->
    heading (orientation (updateHeading n extra h)) = None \/
    heading (orientation (updateHeading n extra h)) = lastHeadingRef h \/
    exists m, normalized m /\
      heading (orientation (updateHeading n extra h))
      = Some (smooth (lastHeadingRef h) m)).
  { intros n extra Hn. right. right. exists n. split; [exact Hn | reflexivity]. }
  destruct e as [| | q scr | v scr | v scr | ev scr]; simpl.
  - right. left. exact E.
  - left. reflexivity.
  - destruct (isActive h); [| right; left; exact E].
    unfold onAbsoluteReading.
    destruct q as [[| q0 [| q1 [| q2 [| q3 [| ? ?]]]]] |];
      try (right; left; exact E).
    destruct (Qltb (1 # 2) (Qabs q0)); apply U, normalizeAngle_range.
  - destruct (isActive h); [| right; left; exact E].
    unfold onAccelReading, computeTiltCompensatedHeading. simpl.
    destruct (latestMag h); [| right; left; exact E].
    apply (U _ no_extra), normalizeAngle_range.
  - destruct (isActive h); [| right; left; exact E].
    unfold onMagReading, computeTiltCompensatedHeading. simpl.
    destruct (latestAccel h); [| right; left; exact E].
    apply (U _ no_extra), normalizeAngle_range.
  - destruct (isActive h); [| right; left; exact E].
    unfold handleOrientation.
    destruct (correctedHeading euler ev scr) as [c |] eqn:Ec;
      [| right; left; exact E].
    apply U. eapply correctedHeading_range, Ec.
Qed.

End ProviderFacts.

(** *** Concrete runs *)

Definition no_screen : Screen :=
  {| screen_orientation_angle := None; window_orientation := None |}.

Definition landscape : Screen :=
  {| screen_orientation_angle := Some 90; window_orientation := None |}.

Definition vendor_event (w : Q) : OrientationEvent :=
  {| webkitCompassHeading := Some w; ev_alpha := None; ev_beta := None;
     ev_gamma := None; ev_absolute := false |}.

Definition alpha_event (a : Q) : OrientationEvent :=
  {| webkitCompassHeading := None; ev_alpha := Some a; ev_beta := None;
     ev_gamma := None; ev_absolute := false |}.

Definition no_atan2 : Q -> Q -> Q := fun _ _ => 0.
Definition no_tilt : Vec3 -> Vec3 -> Q := fun _ _ => 0.
Definition no_euler : Q -> Q -> Q -> Q := fun _ _ _ => 0.

Example normalizeAngle_negative : normalizeAngle (-30) == 330.
Proof. reflexivity. Qed.

Example normalizeAngle_two_turns : normalizeAngle 725 == 5.
Proof. reflexivity. Qed.

Example normalizeAngle_full_turn : normalizeAngle (-360) == 0.
Proof. reflexivity. Qed.

Example alpha_fallback_emits :
  heading (orientation
    (run no_atan2 no_tilt no_euler
       [Activate; Orientation (alpha_event (-725)) no_screen] (initial true)))
  = Some 5.
Proof. reflexivity. Qed.

(** Feeding [updateHeading] an unnormalised heading would break the step
    bound: the callers' normalisation is what [smooth_step_bound] rests on. *)
Example smooth_needs_normalized_input :
  ~ circDist 0 (smooth (Some 0) (-1000)) <= 36.
Proof. vm_compute. intros H. apply H. reflexivity. Qed.

(** *** What holds in exact arithmetic *)

(** With a previous smoothed heading [p], [updateHeading] publishes
    [normalizeAngle (p + 0.2 * delta)] where
    [delta = ((n - p + 540) % 360) - 180]; for normalised headings this
    delta is the shortest one (within a half turn, congruent to [n - p]);
    from 350 toward 10 the result is 354, across 0/360; and with no previous
    value (initially, and after [stopTracking] followed by reactivation) the
    sample is published as it is. *)
Lemma exact_smoothing :
  (forall (h : Hook) (p n : Q) (extra : Extra),
     lastHeadingRef h = Some p ->
     heading (orientation (updateHeading n extra h))
     = Some (normalizeAngle (p + (2 # 10) * (js_rem (n - p + 540) 360 - 180)))) /\
  (forall p n : Q, normalized p -> normalized n ->
     (-180 <= shortestDelta p n /\ shortestDelta p n < 180) /\
     exists k : Z, shortestDelta p n == n - p + 360 * inject_Z k) /\
  smooth (Some 350) 10 == 354 /\
  (forall (h : Hook) (n : Q) (extra : Extra),
     lastHeadingRef h = None ->
     heading (orientation (updateHeading n extra h)) = Some n) /\
  (forall supported, lastHeadingRef (activate (initial supported)) = None) /\
  (forall h, lastHeadingRef (activate (stopTracking h)) = None) /\
  (forall atan2Deg tiltHeadingDeg euler (h : Hook) ev scr c,
     correctedHeading euler ev scr = Some c ->
     heading (orientation
       (run atan2Deg tiltHeadingDeg euler
          [StopTracking; Activate; Orientation ev scr] h)) = Some c).
Proof.
  repeat split.
  - intros h p n extra Hp. simpl. rewrite Hp. reflexivity.
  - apply shortestDelta_range; assumption.
  - apply shortestDelta_range; assumption.
  - apply shortestDelta_congr.
  - intros h n extra Hp. simpl. rewrite Hp. reflexivity.
  - intros atan2Deg tiltHeadingDeg euler h ev scr c Hc.
    simpl. unfold handleOrientation. rewrite Hc. reflexivity.
Qed.

(** In exact arithmetic the published heading stays in [0, 360) along every
    run, whatever finite numbers the sensors and the library calls deliver.
    Module [Heading64] shows where rounding and NaN break this. *)
Lemma exact_heading_normalized
    (atan2Deg : Q -> Q -> Q) (tiltHeadingDeg : Vec3 -> Vec3 -> Q)
    (euler : Q -> Q -> Q -> Q) (supported : bool) (evs : list Event) :
  emitted_in_range (run atan2Deg tiltHeadingDeg euler evs (initial supported)).
Proof.
  destruct (run_wf atan2Deg tiltHeadingDeg euler evs _ (initial_wf supported))
    as [E R].
  unfold emitted_in_range. rewrite E.
  destruct (lastHeadingRef _) as [p |] eqn:Hp; [| exact I].
  apply R. reflexivity.
Qed.

(** *** Claims *)

(** C8 (the code departs from the claim). An orientation event that carries a
    vendor compass value still goes through the screen correction: with the
    vendor value 10 and the screen rotated by 90, the heading handed to
    [updateHeading] is 100, not 10. *)
Theorem C8_vendor_value_screen_corrected (euler : Q -> Q -> Q -> Q) :
  exists c : Q,
    correctedHeading euler (vendor_event 10) landscape = Some c /\
    c == 100 /\ ~ c == 10.
Proof.
  exists (normalizeAngle (10 + 90)). split; [reflexivity |].
  split; [reflexivity | discriminate].
Qed.

(** The vendor value is corrected like the other two cases, for every event
    and screen angle. *)
Lemma vendor_value_corrected (euler : Q -> Q -> Q -> Q) ev scr w :
  webkitCompassHeading ev = Some w ->
  correctedHeading euler ev scr = Some (normalizeAngle (w + getScreenAngle scr)).
Proof.
  intros Hw. unfold correctedHeading, eventHeading. rewrite Hw. reflexivity.
Qed.

(** In exact arithmetic, on every reachable hook state that holds a
    previous smoothed heading [p], the heading published after the next
    event is within 36 degrees of [p] along the shorter arc. *)
Lemma exact_step_bound
    (atan2Deg : Q -> Q -> Q) (tiltHeadingDeg : Vec3 -> Vec3 -> Q)
    (euler : Q -> Q -> Q -> Q) (supported : bool)
    (evs : list Event) (e : Event) (p x : Q) :
  let h := run atan2Deg tiltHeadingDeg euler evs (initial supported) in
  lastHeadingRef h = Some p ->
  heading (orientation (step atan2Deg tiltHeadingDeg euler h e)) = Some x ->
  circDist p x <= 36.
Proof.
  intros h Hp Hx.
  assert (Hwf : wf h) by apply run_wf, initial_wf.
  destruct (step_heading atan2Deg tiltHeadingDeg euler h e Hwf)
    as [HN | [HS | [n [Hn HS]]]].
  - rewrite HN in Hx. discriminate.
  - rewrite HS, Hp in Hx. injection Hx as <-. apply circDist_refl.
  - rewrite HS, Hp in Hx. injection Hx as <-.
    apply smooth_step_bound; [| exact Hn].
    destruct Hwf as [_ R]. apply R, Hp.
Qed.

End Heading.

(** ** Euler angles to compass heading, over the reals *)

Module Euler.
Local Open Scope R_scope.

Definition to_rad (deg : R) : R := deg * (PI / 180).
Definition to_deg (rad : R) : R := rad * 180 / PI.

(** The rotation components [rA] and [rB] of [computeCompassHeadingFromEuler]. *)
Definition rotA (alpha beta gamma : R) : R :=
  - cos (to_rad alpha) * sin (to_rad gamma)
  - sin (to_rad alpha) * sin (to_rad beta) * cos (to_rad gamma).

Definition rotB (alpha beta gamma : R) : R :=
  - sin (to_rad alpha) * sin (to_rad gamma)
  + cos (to_rad alpha) * sin (to_rad beta) * cos (to_rad gamma).

(** What the two branches after [Math.atan] add. *)
Definition shift (rA rB : R) : R :=
  if Rlt_dec rB 0 then PI
  else if Rlt_dec rA 0 then 2 * PI
  else 0.

(** [Math.atan(rA / rB)].  JavaScript divides by zero: with [rB] zero and
    [rA] not, the quotient is an infinity and the arctangent a quarter turn,
    with the sign of [rA] when the zero is +0 and the opposite sign when it
    is -0; with both zero the quotient is NaN ([None]).  The reals have one
    zero, so the sign a zero [rB] carries in the doubles is an input. *)
Definition quotient_atan (negative_zero : bool) (rA rB : R) : option R :=
  if Req_dec_T rB 0 then
    if Req_dec_T rA 0 then None
    else if Rlt_dec rA 0
         then Some (if negative_zero then PI / 2 else - (PI / 2))
         else Some (if negative_zero then - (PI / 2) else PI / 2)
  else Some (atan (rA / rB)).

(** [computeCompassHeadingFromEuler]; [None] is NaN, on which both
    comparisons are false and which the conversion to degrees keeps. *)
Definition computeCompassHeadingFromEuler (negative_zero : bool)
    (alpha beta gamma : R) : option R :=
  let rA := rotA alpha beta gamma in
  let rB := rotB alpha beta gamma in
  match quotient_atan negative_zero rA rB with
  | None => None
  | Some compassHeading =>
      let compassHeading :=
        if Rlt_dec rB 0 then compassHeading + PI
        else if Rlt_dec rA 0 then compassHeading + 2 * PI
        else compassHeading in
      Some (to_deg compassHeading)
  end.

(** A [deviceorientation] event as [handleOrientation] reads it. *)
Record OrientationEvent := {
  webkitCompassHeading : option R;
  ev_alpha : option R;
  ev_beta : option R;
  ev_gamma : option R;
  ev_absolute : bool
}.

(** The [heading] variable of [handleOrientation] when it is not [null]: a
    number of degrees, or NaN. *)
Inductive Number :=
| Degrees (x : R)
| NotANumber.

(** Truncation toward zero, and [a % b]. *)
Definition Rtrunc (x : R) : Z :=
  if Rle_dec 0 x then Int_part x else (- Int_part (- x))%Z.

Definition js_rem (a b : R) : R := a - b * IZR (Rtrunc (a / b)).

(** The heading [handleOrientation] derives from the event before the screen
    correction: the vendor value, else the Euler conversion of an absolute
    event with its three angles, else the alpha fallback.  The conversion
    does not throw, so a NaN it returns is not [null] and stays. *)
Definition eventHeading (negative_zero : bool) (ev : OrientationEvent)
  : option Number :=
  let heading :=
    match webkitCompassHeading ev with
    | Some w => Some (Degrees w)
    | None =>
        match ev_absolute ev, ev_alpha ev, ev_beta ev, ev_gamma ev with
        | true, Some a, Some b, Some g =>
            Some (match computeCompassHeadingFromEuler negative_zero a b g with
                  | Some degrees => Degrees degrees
                  | None => NotANumber
                  end)
        | _, _, _, _ => None
        end
    end in
  match heading, ev_alpha ev with
  | None, Some a => Some (Degrees (js_rem (360 - a) 360))
  | _, _ => heading
  end.

(** An absolute event with its three angles and no vendor value. *)
Definition absolute_event (alpha beta gamma : R) : OrientationEvent :=
  {| webkitCompassHeading := None; ev_alpha := Some alpha;
     ev_beta := Some beta; ev_gamma := Some gamma; ev_absolute := true |}.

(** The shift rule as the specification words it: by pi when [rB < 0], and
    by 2 pi when additionally [rA < 0]. *)
Definition spec_shift (rA rB : R) : R :=
  if Rlt_dec rB 0 then (if Rlt_dec rA 0 then 2 * PI else PI) else 0.

Definition spec_heading (alpha beta gamma : R) : R :=
  let rA := rotA alpha beta gamma in
  let rB := rotB alpha beta gamma in
  to_deg (atan (rA / rB) + spec_shift rA rB).

Lemma to_deg_range (x : R) : 0 <= x < 2 * PI -> 0 <= to_deg x < 360.
Proof.
  intros [L U]. pose proof PI_RGT_0 as HPI. unfold to_deg.
  assert (HI : 0 < / PI) by (apply Rinv_0_lt_compat; lra).
  split.
  - unfold Rdiv. apply Rmult_le_pos; [| lra]. lra.
  - apply Rmult_lt_reg_r with PI; [lra |].
    replace (x * 180 / PI * PI) with (x * 180) by (field; lra). lra.
Qed.

Lemma atan_sign_neg (x : R) : x < 0 -> atan x < 0.
Proof. intros H. rewrite <- atan_0. apply atan_increasing, H. Qed.

Lemma atan_sign_nonneg (x : R) : 0 <= x -> 0 <= atan x.
Proof.
  intros [H | <-].
  - left. rewrite <- atan_0. apply atan_increasing, H.
  - rewrite atan_0. lra.
Qed.

(** The conversion in one formula, for every input that has a value. *)
Lemma code_heading_angle (negative_zero : bool) (alpha beta gamma angle : R) :
  quotient_atan negative_zero (rotA alpha beta gamma) (rotB alpha beta gamma)
  = Some angle ->
  computeCompassHeadingFromEuler negative_zero alpha beta gamma
  = Some (to_deg (angle + shift (rotA alpha beta gamma) (rotB alpha beta gamma))).
Proof.
  intros HQ. unfold computeCompassHeadingFromEuler, shift. rewrite HQ.
  destruct (Rlt_dec (rotB alpha beta gamma) 0); [reflexivity |].
  destruct (Rlt_dec (rotA alpha beta gamma) 0); [reflexivity |].
  rewrite Rplus_0_r. reflexivity.
Qed.

Lemma quotient_atan_nonzero (negative_zero : bool) (rA rB : R) :
  rB <> 0 -> quotient_atan negative_zero rA rB = Some (atan (rA / rB)).
Proof.
  intros HB. unfold quotient_atan.
  destruct (Req_dec_T rB 0) as [E | _]; [contradiction | reflexivity].
Qed.

Lemma code_heading_eq (negative_zero : bool) (alpha beta gamma : R) :
  rotB alpha beta gamma <> 0 ->
  computeCompassHeadingFromEuler negative_zero alpha beta gamma
  = Some (to_deg (atan (rotA alpha beta gamma / rotB alpha beta gamma)
                  + shift (rotA alpha beta gamma) (rotB alpha beta gamma))).
Proof.
  intros HB. apply code_heading_angle, quotient_atan_nonzero, HB.
Qed.

(** The angle before the conversion to degrees covers one full turn. *)
Lemma shifted_range (rA rB : R) :
  rB <> 0 -> 0 <= atan (rA / rB) + shift rA rB < 2 * PI.
Proof.
  intros HB. pose proof (atan_bound (rA / rB)) as [L U].
  pose proof PI_RGT_0 as HPI. unfold shift.
  destruct (Rlt_dec rB 0) as [Bneg | Bpos]; [lra |].
  assert (HBpos : 0 < rB) by lra.
  assert (HI : 0 < / rB) by (apply Rinv_0_lt_compat; exact HBpos).
  destruct (Rlt_dec rA 0) as [Aneg | Apos].
  - assert (Hq : rA / rB < 0).
    { unfold Rdiv. replace 0 with (0 * / rB) by ring.
      apply Rmult_lt_compat_r; assumption. }
    pose proof (atan_sign_neg _ Hq). lra.
  - assert (Hq : 0 <= rA / rB).
    { unfold Rdiv. apply Rmult_le_pos; lra. }
    pose proof (atan_sign_nonneg _ Hq). lra.
Qed.

(** With [rB] the zero +0 the quarter turn has the sign of [rA], and the
    shifted angle stays within the full turn. *)
Lemma shifted_range_plus_zero (rA angle : R) :
  quotient_atan false rA 0 = Some angle ->
  0 <= angle + shift rA 0 < 2 * PI.
Proof.
  pose proof PI_RGT_0 as HPI. unfold quotient_atan, shift.
  destruct (Req_dec_T 0 0) as [_ | N]; [| contradiction].
  destruct (Req_dec_T rA 0) as [E | NA]; [discriminate |].
  destruct (Rlt_dec 0 0) as [F | _]; [lra |].
  destruct (Rlt_dec rA 0); intros [= <-]; lra.
Qed.

(** Two sample orientations: rotated to the south-west and to the
    north-west with the device upright. *)
Lemma rot_135_90_0 :
  rotA 135 90 0 = -1 / sqrt 2 /\ rotB 135 90 0 = -1 / sqrt 2.
Proof.
  unfold rotA, rotB, to_rad.
  replace (135 * (PI / 180)) with (3 * (PI / 4)) by field.
  replace (90 * (PI / 180)) with (PI / 2) by field.
  replace (0 * (PI / 180)) with 0 by field.
  rewrite sin_3PI4, cos_3PI4, sin_PI2, sin_0, cos_0.
  pose proof sqrt2_neq_0. split; field; assumption.
Qed.

Lemma rot_45_90_0 :
  rotA 45 90 0 = -1 / sqrt 2 /\ rotB 45 90 0 = 1 / sqrt 2.
Proof.
  unfold rotA, rotB, to_rad.
  replace (45 * (PI / 180)) with (PI / 4) by field.
  replace (90 * (PI / 180)) with (PI / 2) by field.
  replace (0 * (PI / 180)) with 0 by field.
  rewrite sin_PI4, cos_PI4, sin_PI2, sin_0, cos_0.
  pose proof sqrt2_neq_0. split; field; assumption.
Qed.

(** The device flat and rolled by 30 degrees: [rB] is zero, [rA] is not. *)
Lemma rot_0_0_30 : rotA 0 0 30 = - (1 / 2) /\ rotB 0 0 30 = 0.
Proof.
  unfold rotA, rotB, to_rad.
  replace (0 * (PI / 180)) with 0 by field.
  replace (30 * (PI / 180)) with (PI / 6) by field.
  rewrite sin_PI6, sin_0, cos_0. split; field.
Qed.

(** The device flat: both components are zero. *)
Lemma rot_flat (alpha : R) : rotA alpha 0 0 = 0 /\ rotB alpha 0 0 = 0.
Proof.
  unfold rotA, rotB, to_rad.
  replace (0 * (PI / 180)) with 0 by field.
  rewrite sin_0. split; ring.
Qed.

Lemma inv_sqrt2_pos : 0 < 1 / sqrt 2.
Proof.
  unfold Rdiv. rewrite Rmult_1_l.
  apply Rinv_0_lt_compat, sqrt_lt_R0. lra.
Qed.

Lemma rotB_135_90_0_nonzero : rotB 135 90 0 <> 0.
Proof.
  destruct rot_135_90_0 as [_ EB]. rewrite EB.
  pose proof inv_sqrt2_pos. unfold Rdiv in *. lra.
Qed.

Lemma rotB_45_90_0_nonzero : rotB 45 90 0 <> 0.
Proof.
  destruct rot_45_90_0 as [_ EB]. rewrite EB.
  pose proof inv_sqrt2_pos. lra.
Qed.

Lemma shift_135_90_0 : shift (rotA 135 90 0) (rotB 135 90 0) = PI.
Proof.
  destruct rot_135_90_0 as [EA EB]. pose proof inv_sqrt2_pos as HP.
  rewrite EA, EB. unfold shift.
  destruct (Rlt_dec (-1 / sqrt 2) 0) as [_ | N]; [reflexivity |].
  exfalso. apply N. unfold Rdiv in *. lra.
Qed.

Lemma code_heading_135_90_0 (negative_zero : bool) :
  computeCompassHeadingFromEuler negative_zero 135 90 0 = Some 225.
Proof.
  rewrite (code_heading_eq _ _ _ _ rotB_135_90_0_nonzero), shift_135_90_0.
  destruct rot_135_90_0 as [EA EB]. rewrite EA, EB.
  pose proof sqrt2_neq_0 as HS. pose proof PI_RGT_0 as HPI.
  replace (-1 / sqrt 2 / (-1 / sqrt 2)) with 1 by (field; assumption).
  rewrite atan_1. f_equal. unfold to_deg. field. lra.
Qed.

Lemma code_heading_45_90_0 (negative_zero : bool) :
  computeCompassHeadingFromEuler negative_zero 45 90 0 = Some 315.
Proof.
  rewrite (code_heading_eq _ _ _ _ rotB_45_90_0_nonzero).
  destruct rot_45_90_0 as [EA EB]. rewrite EA, EB.
  pose proof inv_sqrt2_pos as HP.
  pose proof sqrt2_neq_0 as HS. pose proof PI_RGT_0 as HPI.
  unfold shift.
  destruct (Rlt_dec (1 / sqrt 2) 0) as [N | _]; [exfalso; lra |].
  destruct (Rlt_dec (-1 / sqrt 2) 0) as [_ | N].
  2:{ exfalso. apply N. unfold Rdiv in *. lra. }
  replace (-1 / sqrt 2 / (1 / sqrt 2)) with (Ropp 1) by (field; assumption).
  rewrite atan_opp, atan_1. f_equal. unfold to_deg. field. lra.
Qed.

(** Flat and rolled by 30 degrees, the quotient is minus infinity when the
    zero is +0: a quarter turn back, then a full turn forward, 270 degrees;
    with the zero -0 it is plus infinity, and the result 450 degrees. *)
Lemma code_heading_0_0_30 :
  computeCompassHeadingFromEuler false 0 0 30 = Some 270 /\
  computeCompassHeadingFromEuler true 0 0 30 = Some 450.
Proof.
  destruct rot_0_0_30 as [EA EB]. pose proof PI_RGT_0 as HPI.
  unfold computeCompassHeadingFromEuler, quotient_atan. rewrite EA, EB.
  destruct (Req_dec_T 0 0) as [_ | N]; [| contradiction].
  destruct (Req_dec_T (- (1 / 2)) 0) as [E | _]; [exfalso; lra |].
  destruct (Rlt_dec (- (1 / 2)) 0) as [_ | N]; [| exfalso; lra].
  destruct (Rlt_dec 0 0) as [F | _]; [exfalso; lra |].
  split; f_equal; unfold to_deg; field; lra.
Qed.

(** Flat, the quotient is zero by zero and the conversion returns NaN. *)
Lemma code_heading_flat (negative_zero : bool) (alpha : R) :
  computeCompassHeadingFromEuler negative_zero alpha 0 0 = None /\
  eventHeading negative_zero (absolute_event alpha 0 0) = Some NotANumber.
Proof.
  destruct (rot_flat alpha) as [EA EB].
  assert (H : computeCompassHeadingFromEuler negative_zero alpha 0 0 = None).
  { unfold computeCompassHeadingFromEuler, quotient_atan. rewrite EA, EB.
    destruct (Req_dec_T 0 0) as [_ | N]; [reflexivity | contradiction]. }
  split; [exact H |].
  unfold eventHeading, absolute_event. simpl. rewrite H. reflexivity.
Qed.

(** Over the reals the conversion returns a heading in [0, 360) whenever it
    has a value and [rB] is not the zero -0.  (In doubles the sum with 2 pi
    can round up to the full turn: alpha = 1e-20, beta = 90, gamma = 0
    returns 360.) *)
Lemma exact_heading_range (negative_zero : bool) (alpha beta gamma degrees : R) :
  rotB alpha beta gamma <> 0 \/ negative_zero = false ->
  computeCompassHeadingFromEuler negative_zero alpha beta gamma = Some degrees ->
  0 <= degrees < 360.
Proof.
  intros Hcase HC.
  destruct (quotient_atan negative_zero (rotA alpha beta gamma)
              (rotB alpha beta gamma)) as [angle |] eqn:HQ.
  2:{ unfold computeCompassHeadingFromEuler in HC. rewrite HQ in HC.
      discriminate. }
  rewrite (code_heading_angle _ _ _ _ _ HQ) in HC. injection HC as <-.
  apply to_deg_range.
  destruct (Req_dec_T (rotB alpha beta gamma) 0) as [EB | NB].
  - destruct Hcase as [NB | ->]; [contradiction |].
    rewrite EB in HQ |- *. apply shifted_range_plus_zero, HQ.
  - rewrite (quotient_atan_nonzero _ _ _ NB) in HQ. injection HQ as <-.
    apply shifted_range, NB.
Qed.

Lemma spec_heading_135_90_0 : spec_heading 135 90 0 = 405.
Proof.
  destruct rot_135_90_0 as [EA EB]. pose proof inv_sqrt2_pos as HP.
  pose proof sqrt2_neq_0 as HS. pose proof PI_RGT_0 as HPI.
  unfold spec_heading, spec_shift. rewrite EA, EB.
  destruct (Rlt_dec (-1 / sqrt 2) 0) as [_ | N].
  2:{ exfalso. apply N. unfold Rdiv in *. lra. }
  replace (-1 / sqrt 2 / (-1 / sqrt 2)) with 1 by (field; assumption).
  rewrite atan_1. unfold to_deg. field. lra.
Qed.

(** *** Claims *)

(** C9, as the claim words it, fails.  With alpha = 135, beta = 90,
    gamma = 0 both components are negative; the code adds pi only and
    returns 225 degrees, where a shift by 2 pi gives 405.  With
    alpha = 45, beta = 90, gamma = 0 the arctangent is negative, so it
    does not lie in [0, pi]. *)
Lemma C9_counterexample :
  (rotA 135 90 0 < 0 /\ rotB 135 90 0 < 0 /\
   eventHeading false (absolute_event 135 90 0) = Some (Degrees 225) /\
   computeCompassHeadingFromEuler false 135 90 0 = Some 225 /\
   computeCompassHeadingFromEuler false 135 90 0 <> Some (spec_heading 135 90 0)) /\
  (rotB 45 90 0 <> 0 /\
   ~ (0 <= atan (rotA 45 90 0 / rotB 45 90 0) <= PI)).
Proof.
  pose proof inv_sqrt2_pos as HP. pose proof sqrt2_neq_0 as HS.
  split.
  - destruct rot_135_90_0 as [EA EB].
    unfold eventHeading, absolute_event. simpl.
    rewrite code_heading_135_90_0, spec_heading_135_90_0, EA, EB.
    repeat split; try (unfold Rdiv in *; lra).
    intros [= H]. lra.
  - destruct rot_45_90_0 as [EA EB]. rewrite EA, EB. split; [lra |].
    replace (-1 / sqrt 2 / (1 / sqrt 2)) with (Ropp 1) by (field; assumption).
    rewrite atan_opp, atan_1. pose proof PI_RGT_0. lra.
Qed.

(** C9, amended.  For an orientation event without vendor value, with an
    absolute frame and the three angles, and with [rA] and [rB] not both
    zero, the heading before the screen correction is, in degrees, an angle
    plus a shift.  The angle is [atan (rA / rB)], strictly between -pi/2 and
    pi/2, when [rB] is not zero, and a quarter turn when it is: the quotient
    is then an infinity, and the angle has the sign of [rA] over the zero
    +0 and the opposite sign over -0.  The shift is pi when [rB < 0], 2 pi
    when [rB >= 0] and [rA < 0], and nothing otherwise. *)
Theorem C9_euler_conversion (negative_zero : bool) (alpha beta gamma : R) :
  ~ (rotA alpha beta gamma = 0 /\ rotB alpha beta gamma = 0) ->
  let rA := rotA alpha beta gamma in
  let rB := rotB alpha beta gamma in
  exists angle : R,
    quotient_atan negative_zero rA rB = Some angle /\
    eventHeading negative_zero (absolute_event alpha beta gamma)
    = Some (Degrees (to_deg (angle + shift rA rB))) /\
    computeCompassHeadingFromEuler negative_zero alpha beta gamma
    = Some (to_deg (angle + shift rA rB)) /\
    (rB <> 0 -> angle = atan (rA / rB) /\ - PI / 2 < angle < PI / 2) /\
    (rB = 0 ->
     angle = (if negative_zero
              then (if Rlt_dec rA 0 then PI / 2 else - (PI / 2))
              else (if Rlt_dec rA 0 then - (PI / 2) else PI / 2))) /\
    (shift rA rB = PI <-> rB < 0) /\
    (shift rA rB = 2 * PI <-> 0 <= rB /\ rA < 0) /\
    (shift rA rB = 0 <-> 0 <= rB /\ 0 <= rA).
Proof.
  intros HN rA rB. subst rA rB.
  set (rA := rotA alpha beta gamma) in *.
  set (rB := rotB alpha beta gamma) in *.
  pose proof PI_RGT_0 as HPI.
  assert (HQ : exists angle, quotient_atan negative_zero rA rB = Some angle).
  { unfold quotient_atan.
    destruct (Req_dec_T rB 0) as [EB | NB]; [| eauto].
    destruct (Req_dec_T rA 0) as [EA | NA]; [exfalso; apply HN; split; assumption |].
    destruct (Rlt_dec rA 0); eauto. }
  destruct HQ as [angle HQ]. exists angle.
  split; [exact HQ |].
  pose proof (code_heading_angle negative_zero alpha beta gamma angle HQ) as HC.
  fold rA rB in HC.
  split.
  { unfold eventHeading, absolute_event. simpl. rewrite HC. reflexivity. }
  split; [exact HC |].
  split.
  { intros NB. rewrite (quotient_atan_nonzero _ _ _ NB) in HQ.
    injection HQ as <-. split; [reflexivity | apply atan_bound]. }
  split.
  { intros EB. unfold quotient_atan in HQ.
    destruct (Req_dec_T rB 0) as [_ | NB]; [| contradiction].
    destruct (Req_dec_T rA 0) as [EA | NA]; [discriminate |].
    destruct negative_zero; destruct (Rlt_dec rA 0); injection HQ as <-; reflexivity. }
  assert (S : (shift rA rB = PI <-> rB < 0) /\
              (shift rA rB = 2 * PI <-> 0 <= rB /\ rA < 0) /\
              (shift rA rB = 0 <-> 0 <= rB /\ 0 <= rA)).
  { unfold shift.
    destruct (Rlt_dec rB 0) as [Bneg | Bpos];
      [| destruct (Rlt_dec rA 0) as [Aneg | Apos]];
      repeat split; intros; try lra; try tauto. }
  exact S.
Qed.

Lemma C9_euler_conversion_witness :
  exists angle : R,
    quotient_atan false (rotA 0 0 30) (rotB 0 0 30) = Some angle /\
    computeCompassHeadingFromEuler false 0 0 30
    = Some (to_deg (angle + shift (rotA 0 0 30) (rotB 0 0 30))).
Proof.
  assert (HN : ~ (rotA 0 0 30 = 0 /\ rotB 0 0 30 = 0)).
  { destruct rot_0_0_30 as [EA _]. rewrite EA. intros [H _]. lra. }
  destruct (C9_euler_conversion false 0 0 30 HN) as (angle & HQ & _ & HC & _).
  exists angle. split; [exact HQ | exact HC].
Defined.

End Euler.

(** ** The heading hook in double arithmetic *)

Module Heading64.
Import Double.

Record Vec3 := { vx : double; vy : double; vz : double }.

(** [DeviceOrientationState]; [null] is [None], and a number may be NaN. *)
Record DeviceOrientationState := {
  alpha : option double;
  beta : option double;
  gamma : option double;
  heading : option double;
  absolute : bool;
  isSupported : bool;
  hasPermission : option bool;
  error : option string
}.

Record Extra := {
  x_alpha : option (option double);
  x_beta : option (option double);
  x_gamma : option (option double);
  x_absolute : option bool
}.

Definition no_extra : Extra :=
  {| x_alpha := None; x_beta := None; x_gamma := None; x_absolute := None |}.

Record Hook := {
  orientation : DeviceOrientationState;
  isActive : bool;
  lastHeadingRef : option double;
  latestAccel : option Vec3;
  latestMag : option Vec3
}.

Record Screen := {
  screen_orientation_angle : option double;
  window_orientation : option double
}.

Record OrientationEvent := {
  webkitCompassHeading : option double;
  ev_alpha : option double;
  ev_beta : option double;
  ev_gamma : option double;
  ev_absolute : bool
}.

Definition normalizeAngle (deg : double) : double :=
  let a := rem deg (of_Z 360) in
  if ltb a (of_Z 0) then add a (of_Z 360) else a.

Definition shortestDelta (a b : double) : double :=
  sub (rem (add (sub b a) (of_Z 540)) (of_Z 360)) (of_Z 180).

Definition getScreenAngle (scr : Screen) : double :=
  match screen_orientation_angle scr with
  | Some a => a
  | None =>
      match window_orientation scr with
      | Some a => a
      | None => of_Z 0
      end
  end.

(** The literal [0.2] of [updateHeading]. *)
Definition smoothing_factor : double := of_Q (2 # 10).

(** The value [updateHeading] stores and publishes; [typeof prev] is
    ['number'] for NaN too. *)
Definition smooth (prev : option double) (newHeading : double) : double :=
  match prev with
  | Some p => normalizeAngle (add p (mul smoothing_factor (shortestDelta p newHeading)))
  | None => newHeading
  end.

Definition spread {A} (x : option A) (old : A) : A :=
  match x with Some v => v | None => old end.

Definition updateHeading (newHeading : double) (extra : Extra) (h : Hook) : Hook :=
  let smoothed := smooth (lastHeadingRef h) newHeading in
  let prevState := orientation h in
  {| orientation :=
       {| alpha := spread (x_alpha extra) (alpha prevState);
          beta := spread (x_beta extra) (beta prevState);
          gamma := spread (x_gamma extra) (gamma prevState);
          heading := Some smoothed;
          absolute := spread (x_absolute extra) true;
          isSupported := isSupported prevState;
          hasPermission := Some true;
          error := None |};
     isActive := isActive h;
     lastHeadingRef := Some smoothed;
     latestAccel := latestAccel h;
     latestMag := latestMag h |}.

Definition stopTracking (h : Hook) : Hook :=
  let prev := orientation h in
  {| orientation :=
       {| alpha := None; beta := None; gamma := None; heading := None;
          absolute := absolute prev; isSupported := isSupported prev;
          hasPermission := hasPermission prev; error := error prev |};
     isActive := false;
     lastHeadingRef := None;
     latestAccel := latestAccel h;
     latestMag := latestMag h |}.

Definition activate (h : Hook) : Hook :=
  let prev := orientation h in
  {| orientation :=
       {| alpha := alpha prev; beta := beta prev; gamma := gamma prev;
          heading := heading prev; absolute := absolute prev;
          isSupported := isSupported prev;
          hasPermission := Some true; error := None |};
     isActive := true;
     lastHeadingRef := lastHeadingRef h;
     latestAccel := latestAccel h;
     latestMag := latestMag h |}.

Definition initial (supported : bool) : Hook :=
  {| orientation :=
       {| alpha := None; beta := None; gamma := None; heading := None;
          absolute := false; isSupported := supported;
          hasPermission := None; error := None |};
     isActive := false;
     lastHeadingRef := None;
     latestAccel := None;
     latestMag := None |}.

Section Providers.

(** The library functions are approximated by the engine: what they return
    for the arguments ECMAScript leaves to the implementation is an input
    here, and nothing below depends on it.  [tiltHeading] is the value of
    line 238, [Math.atan2(-Yh, Xh) * (180 / Math.PI)], for the latest two
    samples. *)
Variable approx_sin approx_cos approx_atan : double -> double.
Variable Math_atan2 : double -> double -> double.
Variable tiltHeading : Vec3 -> Vec3 -> double.

(** [Math.sin]: NaN for NaN and the infinities, the argument for a zero. *)
Definition Math_sin (x : double) : double :=
  match x with
  | S754_nan | S754_infinity _ => NaN
  | S754_zero _ => x
  | S754_finite _ _ _ => approx_sin x
  end.

(** [Math.cos]: NaN for NaN and the infinities, 1 for a zero. *)
Definition Math_cos (x : double) : double :=
  match x with
  | S754_nan | S754_infinity _ => NaN
  | S754_zero _ => of_Z 1
  | S754_finite _ _ _ => approx_cos x
  end.

(** [Math.atan]: NaN for NaN, the argument for a zero. *)
Definition Math_atan (x : double) : double :=
  match x with
  | S754_nan => NaN
  | S754_zero _ => x
  | _ => approx_atan x
  end.

Definition computeCompassHeadingFromEuler (alpha beta gamma : double) : double :=
  let alphaRad := mul alpha (div Math_PI (of_Z 180)) in
  let betaRad := mul beta (div Math_PI (of_Z 180)) in
  let gammaRad := mul gamma (div Math_PI (of_Z 180)) in
  let cA := Math_cos alphaRad in
  let sA := Math_sin alphaRad in
  let sB := Math_sin betaRad in
  let cG := Math_cos gammaRad in
  let sG := Math_sin gammaRad in
  let rA := sub (mul (opp cA) sG) (mul (mul sA sB) cG) in
  let rB := add (mul (opp sA) sG) (mul (mul cA sB) cG) in
  let compassHeading := Math_atan (div rA rB) in
  let compassHeading :=
    if ltb rB (of_Z 0) then add compassHeading Math_PI
    else if ltb rA (of_Z 0) then add compassHeading (mul (of_Z 2) Math_PI)
    else compassHeading in
  div (mul compassHeading (of_Z 180)) Math_PI.

(** [sensor.onreading] of the absolute orientation sensor. *)
Definition onAbsoluteReading (q : option (list double)) (scr : Screen) (h : Hook) : Hook :=
  match q with
  | Some [q0; q1; q2; q3] =>
      let '(qw, qx, qy, qz) :=
        if ltb (of_Q (1 # 2)) (SFabs q0) then (q0, q1, q2, q3) else (q3, q0, q1, q2) in
      let yawRad :=
        Math_atan2 (mul (of_Z 2) (add (mul qw qz) (mul qx qy)))
          (sub (of_Z 1) (mul (of_Z 2) (add (mul qy qy) (mul qz qz)))) in
      let heading :=
        normalizeAngle (sub (of_Z 360) (div (mul yawRad (of_Z 180)) Math_PI)) in
      let heading := normalizeAngle (add heading (getScreenAngle scr)) in
      updateHeading heading
        {| x_alpha := None; x_beta := None; x_gamma := None; x_absolute := Some true |} h
  | _ => h
  end.

Definition computeTiltCompensatedHeading (scr : Screen) (h : Hook) : Hook :=
  match latestAccel h, latestMag h with
  | Some a, Some m =>
      let heading := normalizeAngle (tiltHeading a m) in
      let heading := normalizeAngle (add heading (getScreenAngle scr)) in
      updateHeading heading no_extra h
  | _, _ => h
  end.

Definition set_latestAccel (v : Vec3) (h : Hook) : Hook :=
  {| orientation := orientation h; isActive := isActive h;
     lastHeadingRef := lastHeadingRef h;
     latestAccel := Some v; latestMag := latestMag h |}.

Definition set_latestMag (v : Vec3) (h : Hook) : Hook :=
  {| orientation := orientation h; isActive := isActive h;
     lastHeadingRef := lastHeadingRef h;
     latestAccel := latestAccel h; latestMag := Some v |}.

Definition onAccelReading (v : Vec3) (scr : Screen) (h : Hook) : Hook :=
  computeTiltCompensatedHeading scr (set_latestAccel v h).

Definition onMagReading (v : Vec3) (scr : Screen) (h : Hook) : Hook :=
  computeTiltCompensatedHeading scr (set_latestMag v h).

(** The heading [handleOrientation] derives from the event before the screen
    correction.  The Euler conversion never throws, so its [catch] never
    runs: a NaN it returns is not [null] and is kept. *)
Definition eventHeading (ev : OrientationEvent) : option double :=
  let heading :=
    match webkitCompassHeading ev with
    | Some w => Some w
    | None =>
        match ev_absolute ev, ev_alpha ev, ev_beta ev, ev_gamma ev with
        | true, Some a, Some b, Some g => Some (computeCompassHeadingFromEuler a b g)
        | _, _, _, _ => None
        end
    end in
  match heading, ev_alpha ev with
  | None, Some a => Some (rem (sub (of_Z 360) a) (of_Z 360))
  | _, _ => heading
  end.

Definition correctedHeading (ev : OrientationEvent) (scr : Screen) : option double :=
  match eventHeading ev with
  | Some heading => Some (normalizeAngle (add heading (getScreenAngle scr)))
  | None => None
  end.

Definition handleOrientation (ev : OrientationEvent) (scr : Screen) (h : Hook) : Hook :=
  match correctedHeading ev scr with
  | Some heading =>
      updateHeading heading
        {| x_alpha := Some (ev_alpha ev); x_beta := Some (ev_beta ev);
           x_gamma := Some (ev_gamma ev); x_absolute := Some (ev_absolute ev) |} h
  | None => h
  end.

Inductive Event :=
| Activate
| StopTracking
| AbsoluteReading (q : option (list double)) (scr : Screen)
| AccelReading (v : Vec3) (scr : Screen)
| MagReading (v : Vec3) (scr : Screen)
| Orientation (ev : OrientationEvent) (scr : Screen).

Definition step (h : Hook) (e : Event) : Hook :=
  match e with
  | Activate => activate h
  | StopTracking => stopTracking h
  | AbsoluteReading q scr => if isActive h then onAbsoluteReading q scr h else h
  | AccelReading v scr => if isActive h then onAccelReading v scr h else h
  | MagReading v scr => if isActive h then onMagReading v scr h else h
  | Orientation ev scr => if isActive h then handleOrientation ev scr h else h
  end.

Definition run (evs : list Event) (h : Hook) : Hook := fold_left step evs h.

End Providers.

(** A heading in [0, 360); false for NaN. *)
Definition in_range (x : double) : bool :=
  SFleb (of_Z 0) x && ltb x (of_Z 360).

(** Two headings no more than 36 degrees apart along the shorter arc,
    measured exactly. *)
Definition within_step (p x : double) : Prop :=
  is_finite p = true /\ is_finite x = true /\
  (Heading.circDist (to_Q p) (to_Q x) <= 36)%Q.

Definition no_screen : Screen :=
  {| screen_orientation_angle := None; window_orientation := None |}.

Definition landscape : Screen :=
  {| screen_orientation_angle := Some (of_Z 90); window_orientation := None |}.

Definition vendor_event (w : double) : OrientationEvent :=
  {| webkitCompassHeading := Some w; ev_alpha := None; ev_beta := None;
     ev_gamma := None; ev_absolute := false |}.

Definition alpha_event (a : double) : OrientationEvent :=
  {| webkitCompassHeading := None; ev_alpha := Some a; ev_beta := None;
     ev_gamma := None; ev_absolute := false |}.

(** An absolute event of a device lying flat: beta and gamma are zero. *)
Definition flat_event (a : double) : OrientationEvent :=
  {| webkitCompassHeading := None; ev_alpha := Some a;
     ev_beta := Some (of_Z 0); ev_gamma := Some (of_Z 0); ev_absolute := true |}.

(** 359.9999999999999, the double two places below 360. *)
Definition just_below_360 : double := scaled 6333186975989758 (-44).

(** *** What the arithmetic does *)

Example normalizeAngle_wraps :
  normalizeAngle (of_Z 370) = of_Z 10 /\
  normalizeAngle (of_Z (-10)) = of_Z 350 /\
  normalizeAngle (of_Z 725) = of_Z 5 /\
  normalizeAngle (of_Z 360) = of_Z 0.
Proof. vm_compute. repeat split; reflexivity. Qed.

(** A negative heading of small size: the remainder is the heading itself
    and the sum with 360 rounds to 360. *)
Example normalizeAngle_rounds_up :
  normalizeAngle (scaled (-1) (-70)) = of_Z 360 /\
  in_range (of_Z 360) = false.
Proof. vm_compute. split; reflexivity. Qed.

Example just_below_360_literal :
  just_below_360 = of_Q (3599999999999999 # 10000000000000) /\
  just_below_360 = sub (of_Z 360) (scaled 1 (-43)) /\
  in_range just_below_360 = true.
Proof. vm_compute. repeat split; reflexivity. Qed.

Example smooth_350_10 : smooth (Some (of_Z 350)) (of_Z 10) = of_Z 354.
Proof. vm_compute. reflexivity. Qed.

Example smooth_publishes_360 :
  shortestDelta (of_Z 0) just_below_360 = scaled (-1) (-43) /\
  smooth (Some (of_Z 0)) just_below_360 = of_Z 360.
Proof. vm_compute. split; reflexivity. Qed.

(** The vendor value goes through the screen correction in doubles as it
    does in exact arithmetic. *)
Example vendor_value_corrected_64 (approx_sin approx_cos approx_atan : double -> double) :
  correctedHeading approx_sin approx_cos approx_atan (vendor_event (of_Z 10)) landscape
  = Some (of_Z 100).
Proof. vm_compute. reflexivity. Qed.

(** *** NaN *)

Lemma add_NaN_r (x : double) : add x NaN = NaN.
Proof. destruct x; reflexivity. Qed.

Lemma sub_NaN_r (x : double) : sub x NaN = NaN.
Proof. destruct x; reflexivity. Qed.

Lemma normalizeAngle_NaN : normalizeAngle NaN = NaN.
Proof. reflexivity. Qed.

Lemma smooth_NaN (prev : option double) : smooth prev NaN = NaN.
Proof.
  destruct prev as [p |]; [| reflexivity].
  unfold smooth, shortestDelta.
  change (sub NaN p) with NaN.
  change (mul smoothing_factor
            (sub (rem (add NaN (of_Z 540)) (of_Z 360)) (of_Z 180))) with NaN.
  rewrite add_NaN_r. reflexivity.
Qed.

Lemma smooth_after_NaN (n : double) : smooth (Some NaN) n = NaN.
Proof.
  unfold smooth, shortestDelta. rewrite sub_NaN_r. reflexivity.
Qed.

Section NaN.
Variable approx_sin approx_cos approx_atan : double -> double.

(** With beta and gamma zero both rotation components are zeros, or NaN,
    whatever alpha is and whatever is taken for its sine and cosine: the
    quotient is NaN, neither branch is taken, and the conversion returns
    NaN. *)
Lemma flat_heading_NaN (a : double) (sb sg : bool) :
  computeCompassHeadingFromEuler approx_sin approx_cos approx_atan
    a (S754_zero sb) (S754_zero sg) = NaN.
Proof.
  unfold computeCompassHeadingFromEuler.
  generalize (Math_cos approx_cos (mul a (div Math_PI (of_Z 180)))).
  generalize (Math_sin approx_sin (mul a (div Math_PI (of_Z 180)))).
  intros sA cA.
  destruct sA as [s1 | s1 | | s1 m1 e1]; destruct cA as [s2 | s2 | | s2 m2 e2];
    destruct sb, sg; try destruct s1; try destruct s2; reflexivity.
Qed.

Lemma flat_event_NaN (a : double) (scr : Screen) :
  correctedHeading approx_sin approx_cos approx_atan (flat_event a) scr = Some NaN.
Proof.
  unfold correctedHeading, eventHeading. cbn [flat_event webkitCompassHeading
    ev_absolute ev_alpha ev_beta ev_gamma].
  change (of_Z 0) with (S754_zero false).
  rewrite flat_heading_NaN. reflexivity.
Qed.

End NaN.

(** *** Claims *)

Definition zero : double := of_Z 0.

(** 89.99999999999999, the double next below 90. *)
Definition just_below_90 : double := scaled 6333186975989759 (-46).

(** [window.orientation] of a device turned to landscape, home button left. *)
Definition landscape_right : Screen :=
  {| screen_orientation_angle := None; window_orientation := Some (of_Z (-90)) |}.

(** 0.35815617213305284 *)
Definition sample_p : double := scaled 403248000839715 (-50).


(** C7 (the code departs from the claim).  Two values the hook publishes
    lie outside [0, 360).  The first is 360: [normalizeAngle] returns it for
    a negative heading of small size such as -2^-70, so a first event with
    the vendor value 89.99999999999999 on a screen turned by -90 publishes
    360, and so does the alpha fallback for alpha = 0 followed by
    alpha = 2^-43 (through the smoothing).  The second is NaN: an absolute
    event with beta = gamma = 0 makes the Euler conversion divide zero by
    zero, for every alpha and screen angle and whatever the trigonometric
    functions return, and the hook publishes the NaN. *)
Theorem C7_heading_leaves_range
    (approx_sin approx_cos approx_atan : double -> double)
    (Math_atan2 : double -> double -> double) (tiltHeading : Vec3 -> Vec3 -> double) :
  let run := run approx_sin approx_cos approx_atan Math_atan2 tiltHeading in
  (normalizeAngle (scaled (-1) (-70)) = of_Z 360 /\ in_range (of_Z 360) = false) /\
  (in_range just_below_90 = true /\
   heading (orientation
     (run [Activate; Orientation (vendor_event just_below_90) landscape_right]
        (initial true)))
   = Some (of_Z 360)) /\
  (in_range (scaled 1 (-43)) = true /\
   heading (orientation
     (run [Activate; Orientation (alpha_event zero) no_screen;
           Orientation (alpha_event (scaled 1 (-43))) no_screen] (initial true)))
   = Some (of_Z 360)) /\
  (forall (a : double) (scr : Screen) (evs : list Event) (supported : bool),
     heading (orientation
       (run (Activate :: evs ++ [Activate; Orientation (flat_event a) scr])
          (initial supported)))
     = Some NaN) /\
  in_range NaN = false.
Proof.
  intros run0.
  split; [vm_compute; split; reflexivity |].
  split; [split; vm_compute; reflexivity |].
  split; [split; vm_compute; reflexivity |].
  split; [| reflexivity].
  intros a scr evs supported. subst run0. unfold run.
  change (Activate :: evs ++ [Activate; Orientation (flat_event a) scr])
    with ((Activate :: evs) ++ [Activate; Orientation (flat_event a) scr]).
  rewrite fold_left_app.
  set (h := fold_left _ (Activate :: evs) _). clearbody h.
  cbn [fold_left step activate isActive]. unfold handleOrientation.
  rewrite flat_event_NaN. cbn [updateHeading heading orientation].
  rewrite smooth_NaN. reflexivity.
Qed.

(** C10 (the code departs from the claim).  An absolute orientation event
    with beta = gamma = 0 makes the published heading NaN whatever the
    previous smoothed heading was, and NaN is kept as the previous value, so
    every later sample publishes NaN too: after the heading 10 the next
    heading is NaN, which is not within 36 degrees of 10.  Rounding alone
    also passes the bound: from the previous heading 0.35815617213305284
    toward the raw heading half a turn away the hook moves by more than 36
    degrees (36.00000000000006). *)
Theorem C10_step_exceeds_bound
    (approx_sin approx_cos approx_atan : double -> double)
    (Math_atan2 : double -> double -> double) (tiltHeading : Vec3 -> Vec3 -> double) :
  let handleOrientation := handleOrientation approx_sin approx_cos approx_atan in
  let run := run approx_sin approx_cos approx_atan Math_atan2 tiltHeading in
  (forall (a : double) (scr : Screen) (h : Hook),
     let h' := handleOrientation (flat_event a) scr h in
     heading (orientation h') = Some NaN /\
     lastHeadingRef h' = Some NaN /\
     forall n extra, heading (orientation (updateHeading n extra h')) = Some NaN) /\
  (let before :=
     run [Activate; Orientation (vendor_event (of_Z 10)) no_screen] (initial true) in
   lastHeadingRef before = Some (of_Z 10) /\
   heading (orientation (step approx_sin approx_cos approx_atan Math_atan2 tiltHeading
                           before (Orientation (flat_event zero) no_screen)))
   = Some NaN /\
   ~ within_step (of_Z 10) NaN) /\
  (let n := add sample_p (of_Z 180) in
   let x := smooth (Some sample_p) n in
   in_range sample_p = true /\ in_range n = true /\
   x = scaled 89158891068811 (-38) /\
   (36 < Heading.circDist (to_Q sample_p) (to_Q x))%Q /\
   ~ within_step sample_p x).
Proof.
  intros handleOrientation0 run0. subst handleOrientation0 run0.
  split; [| split].
  - intros a scr h. unfold handleOrientation. rewrite flat_event_NaN.
    cbn [updateHeading heading orientation lastHeadingRef].
    rewrite smooth_NaN. split; [reflexivity |]. split; [reflexivity |].
    intros n extra. cbn [updateHeading heading orientation lastHeadingRef].
    rewrite smooth_after_NaN. reflexivity.
  - split; [vm_compute; reflexivity |].
    split.
    + cbn [step]. change (isActive _) with true. cbv iota.
      unfold handleOrientation. rewrite flat_event_NaN.
      cbn [updateHeading heading orientation]. rewrite smooth_NaN. reflexivity.
    + intros (_ & F & _). discriminate F.
  - split; [vm_compute; reflexivity |].
    split; [vm_compute; reflexivity |].
    split; [vm_compute; reflexivity |].
    split; [vm_compute; reflexivity |].
    intros (_ & _ & D). vm_compute in D. apply D. reflexivity.
Qed.

End Heading64.

(** ** Rate limiter of the Overpass client ([src/services/overpass.ts]) *)

Module RateLimiter.
Local Open Scope Z_scope.

(** The four values read from the environment through [__toInt]. *)
Record Config := {
  MIN_INTERVAL_MS : Z;
  WINDOW_MS : Z;
  MAX_REQS_PER_WINDOW : Z;
  BACKOFF_BASE_MS : Z
}.

Definition default_config : Config :=
  {| MIN_INTERVAL_MS := 2000; WINDOW_MS := 10000;
     MAX_REQS_PER_WINDOW := 3; BACKOFF_BASE_MS := 800 |}.

(** [__toInt]: the configured value when it is a number that is not
    negative, else the default. *)
Definition __toInt (val : option Z) (def : Z) : Z :=
  match val with
  | Some n => if 0 <=? n then n else def
  | None => def
  end.

(** The limiter's globals, with two observers added: [clock], the latest
    reading of [Date.now], and [granted], every slot timestamp handed out so
    far, oldest first. *)
Record Limiter := {
  clock : Z;
  lastRequestTs : Z;
  recentRequests : list Z;
  granted : list Z
}.

(** What one call of [waitForRateLimit] meets: the time elapsed before it
    starts, the two random jitters, and how much later than required each
    clock reading comes (timers fire no earlier than asked). *)
Record Passage := {
  idle : Z;
  jitter_min : Z;
  late_min : Z;
  late_read : Z;
  jitter_win : Z;
  late_win : Z
}.

Definition passage_ok (p : Passage) : Prop :=
  0 <= idle p /\ 0 <= late_min p /\ 0 <= late_read p /\ 0 <= late_win p /\
  0 <= jitter_min p < 150 /\ 0 <= jitter_win p < 150.

(** [while (recentRequests.length && recentRequests[0] < cutoff) shift()] *)
Fixpoint shift_older (cutoff : Z) (l : list Z) : list Z :=
  match l with
  | x :: rest => if x <? cutoff then shift_older cutoff rest else l
  | [] => []
  end.

Definition waitForRateLimit (cfg : Config) (p : Passage) (w : Limiter) : Limiter :=
  let now := clock w + idle p in
  let since := now - lastRequestTs w in
  let t1 :=
    (if since <? MIN_INTERVAL_MS cfg
     then now + (MIN_INTERVAL_MS cfg - since + jitter_min p)
     else now) + late_min p in
  let cutoff := t1 - WINDOW_MS cfg in
  let recent := shift_older cutoff (recentRequests w) in
  let ts :=
    if MAX_REQS_PER_WINDOW cfg <=? Z.of_nat (length recent) then
      match recent with
      | oldest :: _ =>
          let t2 := t1 + late_read p in
          let waitMs := WINDOW_MS cfg - (t2 - oldest) + jitter_win p in
          (if 0 <? waitMs then t2 + waitMs else t2) + late_win p
      | [] => t1 + late_read p + late_win p
      end
    else t1 + late_win p in
  {| clock := ts;
     lastRequestTs := ts;
     recentRequests := recent ++ [ts];
     granted := granted w ++ [ts] |}.

(** [enqueueRateLimitedSlot] chains its [waitForRateLimit] behind the one of
    the previous caller ([rateLimiterChain]), so that it starts when that one
    has finished; [idle] covers the time spent in the queue. *)
Definition enqueueRateLimitedSlot (cfg : Config) (p : Passage) (w : Limiter) : Limiter :=
  waitForRateLimit cfg p w.

(** The slots of a series of callers, in their order of arrival. *)
Definition acquire_all (cfg : Config) (ps : list Passage) (w : Limiter) : Limiter :=
  fold_left (fun w p => enqueueRateLimitedSlot cfg p w) ps w.

Definition start (c0 : Z) : Limiter :=
  {| clock := c0; lastRequestTs := 0; recentRequests := []; granted := [] |}.

(** Number of grants in the window of [len] milliseconds that opens at [t]. *)
Definition count_in_window (t len : Z) (G : list Z) : nat :=
  length (List.filter (fun g => (t <=? g) && (g <? t + len)) G).

(** Consecutive grants are at least [gap] apart. *)
Definition min_spaced (gap : Z) (G : list Z) : Prop :=
  forall (i : nat) (a b : Z),
    G !! i = Some a -> G !! S i = Some b -> a + gap <= b.

(** Grants [m] places apart are at least [len] apart. *)
Definition win_spaced (m : nat) (len : Z) (G : list Z) : Prop :=
  forall (i : nat) (a b : Z),
    G !! i = Some a -> G !! (i + m)%nat = Some b -> a + len <= b.

Definition increasing (G : list Z) : Prop :=
  forall (i j : nat) (a b : Z),
    (i <= j)%nat -> G !! i = Some a -> G !! j = Some b -> a <= b.

(** What holds between two calls: the window array is the tail of the grant
    history, everything shifted out of it is older than one window, the
    history is below the clock, and both spacings hold. *)
Record Inv (cfg : Config) (w : Limiter) : Prop := {
  inv_split : exists old,
      granted w = old ++ recentRequests w /\
      forall g, g ∈ old -> g + WINDOW_MS cfg < clock w;
  inv_clock : forall g, g ∈ granted w -> g <= clock w;
  inv_last : forall g, last (granted w) = Some g -> lastRequestTs w = g;
  inv_min : min_spaced (MIN_INTERVAL_MS cfg) (granted w);
  inv_win : win_spaced (Z.to_nat (MAX_REQS_PER_WINDOW cfg)) (WINDOW_MS cfg) (granted w)
}.

(** *** Lists of timestamps *)

Lemma shift_older_spec (cutoff : Z) (l : list Z) :
  exists dropped,
    l = dropped ++ shift_older cutoff l /\
    (forall g, g ∈ dropped -> g < cutoff) /\
    (forall r0 rest, shift_older cutoff l = r0 :: rest -> cutoff <= r0).
Proof.
  induction l as [| x l IH]; simpl.
  - exists []. split; [reflexivity |]. split; [| discriminate].
    intros g Hg. inversion Hg.
  - destruct (x <? cutoff) eqn:E.
    + apply Z.ltb_lt in E. destruct IH as (dropped & Hl & Hd & Hh).
      exists (x :: dropped). split.
      * simpl. f_equal. exact Hl.
      * split; [| exact Hh].
        intros g Hg. apply elem_of_cons in Hg as [-> | Hg]; [lia | auto].
    + apply Z.ltb_ge in E. exists []. split; [reflexivity |]. split.
      * intros g Hg. inversion Hg.
      * intros r0 rest [= <- _]. exact E.
Qed.

Lemma min_spaced_increasing (gap : Z) (G : list Z) :
  0 <= gap -> min_spaced gap G -> increasing G.
Proof.
  intros Hgap HG i j. revert i.
  induction j as [| j IH]; intros i a b Hij Ha Hb.
  - assert (i = 0%nat) as -> by lia. assert (a = b) by congruence. lia.
  - destruct (decide (i = S j)) as [-> | Hne]; [assert (a = b) by congruence; lia |].
    assert (Hj : is_Some (G !! j)).
    { apply lookup_lt_is_Some. apply lookup_lt_Some in Hb. lia. }
    destruct Hj as [c Hc].
    assert (a <= c) by (apply (IH i a c); [lia | assumption | assumption]).
    pose proof (HG j c b Hc Hb). lia.
Qed.

Lemma min_spaced_snoc (gap : Z) (G : list Z) (x : Z) :
  min_spaced gap G ->
  (forall g, last G = Some g -> g + gap <= x) ->
  min_spaced gap (G ++ [x]).
Proof.
  intros HG Hx i a b Ha Hb.
  apply lookup_snoc_Some in Hb as [[Hlt Hb] | [Hi <-]].
  - rewrite lookup_app_l in Ha by lia. eauto.
  - rewrite lookup_app_l in Ha by lia.
    apply Hx. rewrite last_lookup, <- Hi. exact Ha.
Qed.

Lemma win_spaced_snoc (m : nat) (len : Z) (G : list Z) (x : Z) :
  (1 <= m)%nat ->
  win_spaced m len G ->
  (forall i a, G !! i = Some a -> (i + m)%nat = length G -> a + len <= x) ->
  win_spaced m len (G ++ [x]).
Proof.
  intros Hm HG Hx i a b Ha Hb.
  apply lookup_snoc_Some in Hb as [[Hlt Hb] | [Hi <-]].
  - rewrite lookup_app_l in Ha by lia. eauto.
  - rewrite lookup_app_l in Ha by lia. eauto.
Qed.

(** *** One call keeps the invariant *)

Section Step.
Variable cfg : Config.
Hypothesis Hmin : 0 < MIN_INTERVAL_MS cfg.
Hypothesis Hmax : 1 <= MAX_REQS_PER_WINDOW cfg.

Lemma waitForRateLimit_inv (p : Passage) (w : Limiter) :
  passage_ok p -> Inv cfg w -> Inv cfg (waitForRateLimit cfg p w).
Proof using Hmin Hmax.
  intros (Hidle & Hl1 & Hl2 & Hl3 & Hj1 & Hj2) [Hsplit Hclock Hlast HminG HwinG].
  unfold waitForRateLimit.
  set (now := clock w + idle p).
  set (since := now - lastRequestTs w).
  set (t1 := (if since <? MIN_INTERVAL_MS cfg
              then now + (MIN_INTERVAL_MS cfg - since + jitter_min p)
              else now) + late_min p).
  set (cutoff := t1 - WINDOW_MS cfg).
  set (recent := shift_older cutoff (recentRequests w)).
  set (ts := if MAX_REQS_PER_WINDOW cfg <=? Z.of_nat (length recent) then _ else _).
  assert (Ht1now : now <= t1).
  { subst t1. destruct (since <? MIN_INTERVAL_MS cfg) eqn:E; [| lia].
    apply Z.ltb_lt in E. lia. }
  assert (Ht1last : lastRequestTs w + MIN_INTERVAL_MS cfg <= t1).
  { subst t1. destruct (since <? MIN_INTERVAL_MS cfg) eqn:E.
    - subst since. lia.
    - apply Z.ltb_ge in E. subst since. lia. }
  destruct Hsplit as (old & HG & Hold).
  destruct (shift_older_spec cutoff (recentRequests w))
    as (dropped & Hrec & Hdrop & Hhead).
  fold recent in Hrec, Hhead.
  assert (Hincr : increasing (granted w)).
  { apply (min_spaced_increasing (MIN_INTERVAL_MS cfg)); [lia | exact HminG]. }
  assert (HG' : granted w = (old ++ dropped) ++ recent).
  { rewrite HG, Hrec at 1. rewrite app_assoc. reflexivity. }
  assert (Hold' : forall g, g ∈ old ++ dropped -> g + WINDOW_MS cfg < t1).
  { intros g Hg. apply elem_of_app in Hg as [Hg | Hg].
    - specialize (Hold g Hg). lia.
    - specialize (Hdrop g Hg). subst cutoff. lia. }
  (* the window array never keeps more than the allowed count *)
  assert (Hlen : Z.of_nat (length recent) <= MAX_REQS_PER_WINDOW cfg).
  { destruct (Z_le_gt_dec (Z.of_nat (length recent)) (MAX_REQS_PER_WINDOW cfg))
      as [? | Hgt]; [assumption | exfalso].
    destruct recent as [| r0 rest] eqn:Erec; [simpl in Hgt; lia |].
    specialize (Hhead r0 rest eq_refl).
    set (m := Z.to_nat (MAX_REQS_PER_WINDOW cfg)) in *.
    set (i := length (old ++ dropped)).
    assert (Hr0 : granted w !! i = Some r0).
    { rewrite HG'. rewrite lookup_app_r by (subst i; lia).
      replace (i - length (old ++ dropped))%nat with 0%nat by (subst i; lia).
      reflexivity. }
    assert (Hlt : (i + m < length (granted w))%nat).
    { rewrite HG', length_app. fold i. simpl in *. subst m. lia. }
    destruct (lookup_lt_is_Some_2 _ _ Hlt) as [b Hb].
    pose proof (HwinG i r0 b Hr0 Hb) as Hwin.
    destruct (lookup_lt_is_Some_2 (granted w) (pred (length (granted w)))
                ltac:(lia)) as [g Hg].
    assert (Hbg : b <= g).
    { apply (Hincr (i + m)%nat (pred (length (granted w))) b g); [lia | |]; assumption. }
    assert (lastRequestTs w = g).
    { apply Hlast. rewrite last_lookup. exact Hg. }
    subst cutoff. lia. }
  assert (Hts1 : t1 <= ts).
  { subst ts. destruct (MAX_REQS_PER_WINDOW cfg <=? Z.of_nat (length recent));
      [| lia].
    destruct recent as [| oldest rest]; [lia |].
    destruct (0 <? _) eqn:E; [apply Z.ltb_lt in E |]; lia. }
  assert (Htswin : forall r0 rest, recent = r0 :: rest ->
            MAX_REQS_PER_WINDOW cfg <= Z.of_nat (length recent) ->
            r0 + WINDOW_MS cfg <= ts).
  { intros r0 rest Erec Hfull. subst ts.
    apply Z.leb_le in Hfull. rewrite Hfull, Erec.
    destruct (0 <? _) eqn:E; [apply Z.ltb_lt in E | apply Z.ltb_ge in E]; lia. }
  clearbody ts recent.
  constructor; simpl.
  - exists (old ++ dropped). split.
    + rewrite HG'. rewrite app_assoc. reflexivity.
    + intros g Hg. specialize (Hold' g Hg). lia.
  - intros g Hg. apply elem_of_app in Hg as [Hg | Hg].
    + specialize (Hclock g Hg). lia.
    + apply list_elem_of_singleton in Hg. lia.
  - intros g Hg. rewrite last_snoc in Hg. congruence.
  - apply min_spaced_snoc; [exact HminG |].
    intros g Hg. rewrite (Hlast g Hg) in Ht1last. lia.
  - apply win_spaced_snoc; [lia | exact HwinG |].
    intros i a Ha Hi.
    set (m := Z.to_nat (MAX_REQS_PER_WINDOW cfg)) in *.
    rewrite HG' in Ha. rewrite HG', length_app in Hi.
    apply lookup_app_Some in Ha as [Ha | [Hge Ha]].
    + assert (a ∈ old ++ dropped) by (apply list_elem_of_lookup; eauto).
      specialize (Hold' a H). lia.
    + assert (Hfull : MAX_REQS_PER_WINDOW cfg <= Z.of_nat (length recent))
        by (subst m; lia).
      assert (Hi0 : (i - length (old ++ dropped))%nat = 0%nat) by (subst m; lia).
      rewrite Hi0 in Ha. destruct recent as [| r0 rest]; [discriminate |].
      injection Ha as ->. eapply Htswin; [reflexivity | exact Hfull].
Qed.

Lemma start_inv (c0 : Z) : Inv cfg (start c0).
Proof using Type.
  constructor; simpl.
  - exists []. split; [reflexivity |]. intros g Hg. inversion Hg.
  - intros g Hg. inversion Hg.
  - discriminate.
  - intros i a b Ha. discriminate.
  - intros i a b Ha. discriminate.
Qed.

Lemma acquire_all_inv (ps : list Passage) (w : Limiter) :
  Forall passage_ok ps -> Inv cfg w -> Inv cfg (acquire_all cfg ps w).
Proof using Hmin Hmax.
  unfold acquire_all. revert w.
  induction ps as [| p ps IH]; intros w Hps Hw; simpl; [exact Hw |].
  inversion Hps; subst. apply IH; [assumption |].
  apply waitForRateLimit_inv; assumption.
Qed.

End Step.

(** *** From spacing to window counts *)

Lemma increasing_tail (a : Z) (G : list Z) : increasing (a :: G) -> increasing G.
Proof.
  intros H i j x y Hij Hx Hy. apply (H (S i) (S j) x y); [lia | |]; assumption.
Qed.

Lemma win_spaced_tail (m : nat) (len a : Z) (G : list Z) :
  win_spaced m len (a :: G) -> win_spaced m len G.
Proof.
  intros H i x y Hx Hy. apply (H (S i) x y); assumption.
Qed.

Lemma filter_none (f : Z -> bool) (l : list Z) :
  (forall g, g ∈ l -> f g = false) -> List.filter f l = [].
Proof.
  induction l as [| x l IH]; intros H; simpl; [reflexivity |].
  rewrite (H x) by apply list_elem_of_here.
  apply IH. intros g Hg. apply H. apply list_elem_of_further, Hg.
Qed.

Lemma count_in_window_bound (m : nat) (len t : Z) (G : list Z) :
  (1 <= m)%nat -> increasing G -> win_spaced m len G ->
  (count_in_window t len G <= m)%nat.
Proof.
  intros Hm. unfold count_in_window.
  induction G as [| a G IH]; intros Hinc Hwin; simpl; [lia |].
  specialize (IH (increasing_tail _ _ Hinc) (win_spaced_tail _ _ _ _ Hwin)).
  destruct ((t <=? a) && (a <? t + len)) eqn:E; [| exact IH].
  apply andb_true_iff in E as [E1 E2].
  apply Z.leb_le in E1. apply Z.ltb_lt in E2. simpl.
  rewrite <- (take_drop (m - 1) G), List.filter_app, length_app.
  rewrite (filter_none _ (drop (m - 1) G)).
  - pose proof (List.filter_length_le
                  (fun g => (t <=? g) && (g <? t + len)) (take (m - 1) G)).
    rewrite length_take in H. simpl. lia.
  - intros g Hg. apply list_elem_of_lookup in Hg as [j Hj].
    rewrite lookup_drop in Hj.
    assert (Hlt : (m - 1 < length G)%nat).
    { apply lookup_lt_Some in Hj. lia. }
    destruct (lookup_lt_is_Some_2 _ _ Hlt) as [b Hb].
    assert (a + len <= b).
    { apply (Hwin 0%nat a b); [reflexivity |].
      replace (0 + m)%nat with (S (m - 1)) by lia. exact Hb. }
    assert (b <= g).
    { apply (increasing_tail _ _ Hinc (m - 1)%nat (m - 1 + j)%nat);
        [lia | |]; assumption. }
    apply andb_false_iff. right. apply Z.ltb_ge. lia.
Qed.

Lemma granted_length (cfg : Config) (ps : list Passage) (w : Limiter) :
  length (granted (acquire_all cfg ps w))
  = (length (granted w) + length ps)%nat.
Proof.
  unfold acquire_all. revert w.
  induction ps as [| p ps IH]; intros w; simpl; [lia |].
  rewrite IH. simpl. rewrite length_app. simpl. lia.
Qed.

(** *** Claim *)

Definition steady : Passage :=
  {| idle := 0; jitter_min := 0; late_min := 0; late_read := 0;
     jitter_win := 0; late_win := 0 |}.

Example six_back_to_back :
  granted (acquire_all default_config
             [steady; steady; steady; steady; steady; steady] (start 1000000))
  = [1000000; 1002000; 1004000; 1010000; 1012000; 1014000].
Proof. reflexivity. Qed.

(** C1. With the default configuration, whatever the waits and jitters,
    every request for a slot is granted, any window of 10000 ms (from [t]
    up to, not including, [t + 10000]) holds at most 3 granted slots, and
    two consecutive granted slots are at least 2000 ms apart. *)
Theorem C1_rate_limit (c0 : Z) (ps : list Passage) :
  Forall passage_ok ps ->
  let G := granted (acquire_all default_config ps (start c0)) in
  length G = length ps /\
  (forall t, (count_in_window t 10000 G <= 3)%nat) /\
  min_spaced 2000 G.
Proof.
  intros Hps G.
  assert (HI : Inv default_config
                 (acquire_all default_config ps (start c0))).
  { apply acquire_all_inv; [simpl; lia | simpl; lia | exact Hps |].
    apply start_inv. }
  destruct HI as [_ _ _ HminG HwinG]. fold G in HminG, HwinG.
  split; [| split].
  - subst G. rewrite granted_length. reflexivity.
  - intros t. apply (count_in_window_bound 3 10000 t G); [lia | | exact HwinG].
    apply (min_spaced_increasing 2000); [lia | exact HminG].
  - exact HminG.
Qed.

Lemma C1_rate_limit_witness :
  let G := granted (acquire_all default_config
                      [steady; steady; steady; steady; steady; steady]
                      (start 1000000)) in
  length G = 6%nat /\
  (forall t, (count_in_window t 10000 G <= 3)%nat) /\
  min_spaced 2000 G.
Proof.
  apply (C1_rate_limit 1000000 [steady; steady; steady; steady; steady; steady]).
  repeat constructor; simpl; lia.
Defined.

End RateLimiter.

(** ** Overpass client: failover, response mapping, cache and sharing *)

Module Overpass.
Local Open Scope Z_scope.

(** *** Data *)

Inductive ElementType := node | way | relation.

Record OverpassElement := {
  el_type : ElementType;
  el_id : Z;
  el_lat : option Q;
  el_lon : option Q;
  el_center : option (Q * Q);
  el_tags : option (gmap string string)
}.

(** Of [OverpassResponse] only [elements] is read. *)
Record OverpassResponse := { elements : list OverpassElement }.

Inductive EstablishmentType :=
| bar | wine_cellar | nightclub | supermarket | restaurant | liquor_store.

Record Establishment := {
  id : string;
  name : string;
  type : EstablishmentType;
  lat : Q;
  lng : Q;
  isOpen : bool;
  city : option string;
  tags : gmap string string
}.

(** The errors [fetchWithFallback] builds or passes on. *)
Inductive Error :=
| TooManyRequests (endpoint : string)
| ApiError (status : Z)
| Raised (reason : string)
| AllFailed.

Definition OVERPASS_INSTANCES : list string :=
  [ "https://overpass-api.de/api/interpreter";
    "https://overpass.private.coffee/api/interpreter";
    "https://overpass.osm.ch/api/interpreter" ]%string.

(** *** [fetchWithFallback] *)

(** What one attempt meets: an HTTP response with its status and what
    [response.json()] gives, or an exception from [fetch]. *)
Inductive Reply :=
| Responded (status : Z) (body : Error + OverpassResponse)
| Threw (err : Error).

(** [currentInstanceIndex] is a variable of the module, shared by all calls.
    While an attempt waits for its slot, for the reply, or in [sleep], other
    calls of [fetchWithFallback] may run, and each of their failed attempts
    advances the cursor by one: the three increments of this function are
    the only writes.  So an attempt meets, besides its reply and its two
    jitters, the number of such advances during its waits. *)
Record Attempt := {
  reply : Reply;
  jitter250 : Z;
  jitter200 : Z;
  others_while_waiting : nat;
  others_while_sleeping : nat
}.

Definition attempt_ok (a : Attempt) : Prop :=
  0 <= jitter250 a < 250 /\ 0 <= jitter200 a < 200.

Inductive Action :=
| Slot
| Post (endpoint : string)
| Sleep (ms : Z).

Definition response_ok (status : Z) : bool := (200 <=? status) && (status <=? 299).

Definition next_instance (cursor : nat) : nat :=
  (cursor + 1) mod length OVERPASS_INSTANCES.

(** The cursor after [n] increments. *)
Definition advance (n cursor : nat) : nat := Nat.iter n next_instance cursor.

Definition backoff (base : Z) (attempt : nat) (jitter : Z) : Z :=
  base * 2 ^ Z.min 4 (Z.of_nat attempt) + jitter.

(** The result of one turn of the loop, with the value the turn leaves in
    [currentInstanceIndex]. *)
Inductive Turn :=
| Return (data : OverpassResponse) (cursor : nat)
| Continue (lastError : Error) (cursor : nat).

(** One turn of the [for] loop: the body for attempt number [attempt],
    entered with [currentInstanceIndex = cursor].  The endpoint is read on
    entry; the increments read the cursor again, after the waits: on 429
    after the sleep, on another status at once, on an exception before the
    sleep. *)
Definition turn (base : Z) (attempt : nat) (a : Attempt) (cursor : nat)
  : Turn * list Action :=
  let endpoint := nth cursor OVERPASS_INSTANCES ""%string in
  let seen := advance (others_while_waiting a) cursor in
  let caught (error : Error) :=
    (Continue error (advance (others_while_sleeping a) (next_instance seen)),
     [Slot; Post endpoint; Sleep (base + jitter200 a)]) in
  match reply a with
  | Threw error => caught error
  | Responded status body =>
      if response_ok status then
        match body with
        | inr data => (Return data seen, [Slot; Post endpoint])
        | inl error => caught error
        end
      else if status =? 429 then
        (Continue (TooManyRequests endpoint)
           (next_instance (advance (others_while_sleeping a) seen)),
         [Slot; Post endpoint; Sleep (backoff base attempt (jitter250 a))])
      else
        (Continue (ApiError status) (next_instance seen),
         [Slot; Post endpoint])
  end.

(** The loop from attempt [attempt] with [fuel] attempts left. *)
Fixpoint attempts (base : Z) (env : nat -> Attempt) (fuel attempt : nat)
    (cursor : nat) (lastError : option Error)
  : (Error + OverpassResponse) * nat * list Action :=
  match fuel with
  | O => (inl (default AllFailed lastError), cursor, [])
  | S fuel' =>
      match turn base attempt (env attempt) cursor with
      | (Return data cursor', acts) => (inr data, cursor', acts)
      | (Continue error cursor', acts) =>
          let '(r, c, rest) :=
            attempts base env fuel' (S attempt) cursor' (Some error) in
          (r, c, acts ++ rest)
      end
  end.

Definition maxTries : nat := length OVERPASS_INSTANCES * 2.

(** [fetchWithFallback]: its result, the value of [currentInstanceIndex]
    when it settles, and what it did. *)
Definition fetchWithFallback (base : Z) (env : nat -> Attempt) (cursor : nat)
  : (Error + OverpassResponse) * nat * list Action :=
  attempts base env maxTries 0 cursor None.

Definition is_post (a : Action) : bool :=
  match a with Post _ => true | _ => false end.

Definition posts (acts : list Action) : nat := length (List.filter is_post acts).

(** The endpoints posted to, in order. *)
Fixpoint posted (acts : list Action) : list string :=
  match acts with
  | [] => []
  | Post endpoint :: rest => endpoint :: posted rest
  | _ :: rest => posted rest
  end.

(** The error an attempt records when it does not return. *)
Definition failure (a : Attempt) (endpoint : string) : option Error :=
  match reply a with
  | Threw error => Some error
  | Responded status body =>
      if response_ok status then
        match body with inr _ => None | inl error => Some error end
      else if status =? 429 then Some (TooManyRequests endpoint)
      else Some (ApiError status)
  end.

(** An attempt that does not return data. *)
Definition failed (a : Attempt) : bool :=
  match reply a with
  | Threw _ => true
  | Responded status body =>
      if response_ok status then
        match body with inr _ => false | inl _ => true end
      else true
  end.

(** An attempt that sleeps before the next one. *)
Definition sleeps (a : Attempt) : bool :=
  match reply a with
  | Threw _ => true
  | Responded status body =>
      if response_ok status then
        match body with inr _ => false | inl _ => true end
      else status =? 429
  end.

(** The advances by other calls during the waits of one attempt. *)
Definition others (a : Attempt) : nat :=
  others_while_waiting a + (if sleeps a then others_while_sleeping a else 0).

(** No other call advances the cursor while this one runs. *)
Definition alone (env : nat -> Attempt) : Prop :=
  forall k, others_while_waiting (env k) = 0%nat /\
            others_while_sleeping (env k) = 0%nat.

(** *** Failover: proofs *)

Lemma advance_next (n cursor : nat) :
  advance n (next_instance cursor) = next_instance (advance n cursor).
Proof. unfold advance. symmetry. apply (Nat.iter_succ_r n next_instance). Qed.

Lemma advance_add (n m cursor : nat) :
  advance m (advance n cursor) = advance (n + m) cursor.
Proof. unfold advance. rewrite Nat.add_comm. symmetry. apply Nat.iter_add. Qed.

Lemma turn_continue base attempt a cursor error cursor' acts :
  turn base attempt a cursor = (Continue error cursor', acts) ->
  cursor' = advance (S (others a)) cursor /\
  Some error = failure a (nth cursor OVERPASS_INSTANCES ""%string) /\
  posts acts = 1%nat /\
  posted acts = [nth cursor OVERPASS_INSTANCES ""%string].
Proof.
  unfold turn, failure, others, sleeps.
  destruct (reply a) as [status [err | data] | err];
    try destruct (response_ok status); try destruct (status =? 429);
    intros [= <- <- <-]; repeat split; try reflexivity;
    rewrite ?advance_next, ?advance_add, ?Nat.add_0_r; reflexivity.
Qed.

Lemma turn_return base attempt a cursor data cursor' acts :
  turn base attempt a cursor = (Return data cursor', acts) ->
  cursor' = advance (others_while_waiting a) cursor /\
  posts acts = 1%nat /\
  posted acts = [nth cursor OVERPASS_INSTANCES ""%string].
Proof.
  unfold turn.
  destruct (reply a) as [status [err | data'] | err];
    try destruct (response_ok status); try destruct (status =? 429);
    intros [= <- <- <-]; repeat split; reflexivity.
Qed.

Lemma posts_app (l1 l2 : list Action) : posts (l1 ++ l2) = (posts l1 + posts l2)%nat.
Proof. unfold posts. rewrite List.filter_app, length_app. reflexivity. Qed.

Lemma posted_app (l1 l2 : list Action) : posted (l1 ++ l2) = posted l1 ++ posted l2.
Proof.
  induction l1 as [| a l1 IH]; simpl; [reflexivity |].
  destruct a; simpl; rewrite IH; reflexivity.
Qed.

Lemma iter_next_instance (k cursor : nat) :
  Nat.iter (S k) next_instance cursor = ((cursor + S k) mod 3)%nat.
Proof.
  induction k as [| k IH].
  - reflexivity.
  - change (Nat.iter (S (S k)) next_instance cursor)
      with (next_instance (Nat.iter (S k) next_instance cursor)).
    rewrite IH. unfold next_instance. simpl length.
    rewrite Nat.Div0.add_mod_idemp_l. f_equal. lia.
Qed.

Lemma advance_mod (n cursor : nat) :
  (cursor < 3)%nat -> advance n cursor = ((cursor + n) mod 3)%nat.
Proof.
  intros Hc. unfold advance. destruct n as [| n].
  - rewrite Nat.add_0_r, (Nat.mod_small cursor 3 Hc). reflexivity.
  - apply iter_next_instance.
Qed.

(** The loop posts once per attempt, and when it gives up it has used all
    its attempts and raises what the last one recorded. *)
Lemma attempts_spec (base : Z) (env : nat -> Attempt) (fuel : nat) :
  forall attempt cursor lastError r c acts,
    attempts base env fuel attempt cursor lastError = (r, c, acts) ->
    (posts acts <= fuel)%nat /\
    forall e, r = inl e ->
      posts acts = fuel /\
      match fuel with
      | O => e = default AllFailed lastError
      | S k =>
          exists endpoint,
            last (posted acts) = Some endpoint /\
            Some e = failure (env (attempt + k)%nat) endpoint
      end.
Proof.
  induction fuel as [| fuel IH]; intros attempt cursor lastError r c acts; simpl.
  - intros [= <- <- <-]. split; [reflexivity |].
    intros e [= <-]. split; reflexivity.
  - destruct (turn base attempt (env attempt) cursor)
      as [[data cursor' | error cursor'] acts0] eqn:T.
    + intros [= <- <- <-].
      destruct (turn_return _ _ _ _ _ _ _ T) as (_ & Hp & _). rewrite Hp.
      split; [lia | discriminate].
    + destruct (attempts base env fuel (S attempt) cursor' (Some error))
        as [[r' c'] rest] eqn:A.
      intros [= <- <- <-].
      destruct (turn_continue _ _ _ _ _ _ _ T) as (_ & Hfail & Hposts & Hposted).
      destruct (IH _ _ _ _ _ _ A) as [Hle Hgive].
      rewrite posts_app, Hposts. split; [lia |].
      intros e He. destruct (Hgive e He) as (Hp & Hlast).
      split; [lia |].
      rewrite posted_app, Hposted.
      destruct fuel as [| k].
      * simpl in Hlast. subst e.
        assert (posted rest = []) as ->.
        { simpl in A. injection A as _ _ <-. reflexivity. }
        exists (nth cursor OVERPASS_INSTANCES ""%string).
        rewrite Nat.add_0_r. split; [reflexivity | exact Hfail].
      * destruct Hlast as (endpoint & Hl & Hf). exists endpoint. split.
        -- destruct (posted rest) as [| x rest'] eqn:E; [discriminate |].
           simpl. simpl in Hl. exact Hl.
        -- replace (attempt + S k)%nat with (S attempt + k)%nat by lia.
           exact Hf.
Qed.

Lemma turn_failed base attempt a cursor :
  failed a = true ->
  exists error cursor' acts,
    turn base attempt a cursor = (Continue error cursor', acts).
Proof.
  unfold failed, turn.
  destruct (reply a) as [status [err | data] | err];
    try destruct (response_ok status); try destruct (status =? 429);
    intros H; try discriminate; eauto.
Qed.

(** When every attempt fails the loop gives up with an error. *)
Lemma attempts_give_up (base : Z) (env : nat -> Attempt) (fuel : nat) :
  forall attempt cursor lastError,
    (forall k, (attempt <= k < attempt + fuel)%nat -> failed (env k) = true) ->
    exists e, (attempts base env fuel attempt cursor lastError).1.1 = inl e.
Proof.
  induction fuel as [| fuel IH]; intros attempt cursor lastError Hall; simpl.
  - eauto.
  - destruct (turn_failed base attempt (env attempt) cursor)
      as (error & cursor' & acts & ->); [apply Hall; lia |].
    destruct (IH (S attempt) cursor' (Some error)) as [e He];
      [intros k Hk; apply Hall; lia |].
    destruct (attempts base env fuel (S attempt) cursor' (Some error))
      as [[r c] rest].
    simpl in *. eauto.
Qed.

Lemma attempts_first_post (base : Z) (env : nat -> Attempt) (fuel : nat)
    attempt cursor lastError r c acts :
  attempts base env (S fuel) attempt cursor lastError = (r, c, acts) ->
  (1 <= posts acts)%nat /\
  (failed (env attempt) = false -> posts acts = 1%nat).
Proof.
  simpl.
  destruct (turn base attempt (env attempt) cursor)
    as [[data cursor' | error cursor'] acts0] eqn:T.
  - intros [= <- <- <-].
    destruct (turn_return _ _ _ _ _ _ _ T) as (_ & Hp & _). rewrite Hp.
    split; [lia | reflexivity].
  - destruct (turn_continue _ _ _ _ _ _ _ T) as (_ & Hfail & Hp & _).
    destruct (attempts base env fuel (S attempt) cursor' (Some error))
      as [[r' c'] rest].
    intros [= <- <- <-]. rewrite posts_app, Hp. split; [lia |].
    intros Hok. exfalso. unfold failed in Hok. unfold failure in Hfail.
    destruct (reply (env attempt)) as [status [err | data] | err];
      try destruct (response_ok status); try destruct (status =? 429);
      discriminate.
Qed.

(** Every call of [fetchWithFallback] posts at least once, and once only
    when the first attempt returns data. *)
Lemma operation_posts (base : Z) (env : nat -> Attempt) (cursor : nat) r c acts :
  fetchWithFallback base env cursor = (r, c, acts) ->
  (1 <= posts acts <= 6)%nat /\
  (failed (env 0%nat) = false -> posts acts = 1%nat).
Proof.
  unfold fetchWithFallback. intros A.
  destruct (attempts_spec _ _ _ _ _ _ _ _ _ A) as [Hle _].
  change maxTries with 6%nat in *.
  destruct (attempts_first_post _ _ _ _ _ _ _ _ _ A) as [Hge Hone].
  split; [split; assumption | exact Hone].
Qed.

(** The retry after a failed attempt goes to the instance under the cursor
    as the failed turn left it. *)
Lemma retry_at_cursor (base : Z) (env : nat -> Attempt) (fuel attempt cursor : nat)
    lastError error cursor' acts :
  turn base attempt (env attempt) cursor = (Continue error cursor', acts) ->
  exists r c rest,
    attempts base env (S (S fuel)) attempt cursor lastError
    = (r, c, acts ++ Slot :: Post (nth cursor' OVERPASS_INSTANCES ""%string) :: rest).
Proof.
  intros T. cbn [attempts]. rewrite T.
  destruct (turn base (S attempt) (env (S attempt)) cursor')
    as [[data c1 | e1 c1] acts1] eqn:T1.
  - exists (inr data), c1, [].
    unfold turn in T1.
    destruct (reply (env (S attempt))) as [status [err | data'] | err];
      try destruct (response_ok status); try destruct (status =? 429);
      try discriminate T1; inversion T1; subst; reflexivity.
  - destruct (attempts base env fuel (S (S attempt)) c1 (Some e1))
      as [[r c] rest].
    unfold turn in T1.
    destruct (reply (env (S attempt))) as [status [err | data'] | err];
      try destruct (response_ok status); try destruct (status =? 429);
      try discriminate T1; inversion T1; subst; eexists r, c, _; reflexivity.
Qed.

Definition busy_then_fine (data : OverpassResponse) (attempt : nat) : Attempt :=
  match attempt with
  | O => {| reply := Responded 429 (inl AllFailed); jitter250 := 17; jitter200 := 0;
            others_while_waiting := 0; others_while_sleeping := 0 |}
  | _ => {| reply := Responded 200 (inr data); jitter250 := 0; jitter200 := 0;
            others_while_waiting := 0; others_while_sleeping := 0 |}
  end.

Definition always_busy (attempt : nat) : Attempt :=
  {| reply := Responded 429 (inl AllFailed); jitter250 := 17; jitter200 := 0;
     others_while_waiting := 0; others_while_sleeping := 0 |}.

(** A call that gets 429 while two failed attempts of another call pass
    during its sleep. *)
Definition busy_and_overtaken (data : OverpassResponse) (attempt : nat) : Attempt :=
  match attempt with
  | O => {| reply := Responded 429 (inl AllFailed); jitter250 := 17; jitter200 := 0;
            others_while_waiting := 0; others_while_sleeping := 2 |}
  | _ => {| reply := Responded 200 (inr data); jitter250 := 0; jitter200 := 0;
            others_while_waiting := 0; others_while_sleeping := 0 |}
  end.

Example failover_to_second_instance (data : OverpassResponse) :
  fetchWithFallback 800 (busy_then_fine data) 0
  = (inr data, 1%nat,
     [Slot; Post "https://overpass-api.de/api/interpreter"; Sleep 817;
      Slot; Post "https://overpass.private.coffee/api/interpreter"]).
Proof. reflexivity. Qed.

(** With other calls at work the cursor has gone round when the sleep
    returns, and the retry goes to the instance that has just answered 429. *)
Example overtaken_retry_on_same_instance (data : OverpassResponse) :
  fetchWithFallback 800 (busy_and_overtaken data) 0
  = (inr data, 0%nat,
     [Slot; Post "https://overpass-api.de/api/interpreter"; Sleep 817;
      Slot; Post "https://overpass-api.de/api/interpreter"]).
Proof. reflexivity. Qed.

Example six_busy_attempts :
  fetchWithFallback 800 always_busy 0
  = (inl (TooManyRequests "https://overpass.osm.ch/api/interpreter"), 0%nat,
     [Slot; Post "https://overpass-api.de/api/interpreter"; Sleep 817;
      Slot; Post "https://overpass.private.coffee/api/interpreter"; Sleep 1617;
      Slot; Post "https://overpass.osm.ch/api/interpreter"; Sleep 3217;
      Slot; Post "https://overpass-api.de/api/interpreter"; Sleep 6417;
      Slot; Post "https://overpass.private.coffee/api/interpreter"; Sleep 12817;
      Slot; Post "https://overpass.osm.ch/api/interpreter"; Sleep 12817]).
Proof. reflexivity. Qed.

(** C4. A 429 reply makes [fetchWithFallback] sleep
    [base * 2 ^ min(4, attempt)] ms plus a jitter in [0, 250) and then
    advance the shared cursor by one place from the value it has when the
    sleep returns; the retry goes to the instance under the cursor so
    advanced, which is the instance after the one that answered 429, and
    another one, when no other call has moved the cursor meanwhile.  The whole call posts at most
    6 times, it raises when all six attempts fail, and when it raises it has
    posted 6 times and raises the error recorded by the sixth attempt. *)
Theorem C4_failover (base : Z) (env : nat -> Attempt) (cursor : nat) :
  (forall attempt, attempt_ok (env attempt)) ->
  (forall attempt body,
     reply (env attempt) = Responded 429 body ->
     let endpoint := nth cursor OVERPASS_INSTANCES ""%string in
     let woken :=
       advance (others_while_sleeping (env attempt))
         (advance (others_while_waiting (env attempt)) cursor) in
     exists jitter, 0 <= jitter < 250 /\
       turn base attempt (env attempt) cursor
       = (Continue (TooManyRequests endpoint) ((woken + 1) mod 3)%nat,
          [Slot; Post endpoint;
           Sleep (base * 2 ^ Z.min 4 (Z.of_nat attempt) + jitter)]) /\
       (forall fuel lastError, exists r c rest,
          attempts base env (S (S fuel)) attempt cursor lastError
          = (r, c,
             [Slot; Post endpoint;
              Sleep (base * 2 ^ Z.min 4 (Z.of_nat attempt) + jitter);
              Slot;
              Post (nth ((woken + 1) mod 3)%nat OVERPASS_INSTANCES ""%string)]
             ++ rest)) /\
       (others (env attempt) = 0%nat -> (cursor < 3)%nat ->
        ((woken + 1) mod 3 = (cursor + 1) mod 3)%nat /\
        nth ((cursor + 1) mod 3)%nat OVERPASS_INSTANCES ""%string <> endpoint)) /\
  (forall r c acts,
     fetchWithFallback base env cursor = (r, c, acts) ->
     (posts acts <= 6)%nat /\
     ((forall k, (k < 6)%nat -> failed (env k) = true) -> exists e, r = inl e) /\
     forall e, r = inl e ->
       posts acts = 6%nat /\
       exists endpoint,
         last (posted acts) = Some endpoint /\
         Some e = failure (env 5%nat) endpoint).
Proof.
  intros Henv. split.
  - intros attempt body Hr endpoint woken. exists (jitter250 (env attempt)).
    split; [apply Henv |].
    assert (T : turn base attempt (env attempt) cursor
                = (Continue (TooManyRequests endpoint) ((woken + 1) mod 3)%nat,
                   [Slot; Post endpoint;
                    Sleep (base * 2 ^ Z.min 4 (Z.of_nat attempt)
                           + jitter250 (env attempt))])).
    { unfold turn. rewrite Hr. reflexivity. }
    split; [exact T |]. split.
    + intros fuel lastError.
      destruct (retry_at_cursor base env fuel attempt cursor lastError _ _ _ T)
        as (r & c & rest & E).
      exists r, c, rest. rewrite E. reflexivity.
    + intros Ho Hc. unfold others, sleeps in Ho. rewrite Hr in Ho. simpl in Ho.
      subst woken.
      assert (others_while_waiting (env attempt) = 0%nat) as -> by lia.
      assert (others_while_sleeping (env attempt) = 0%nat) as -> by lia.
      split; [reflexivity |]. subst endpoint.
      destruct cursor as [| [| [| cursor]]]; [| | | lia]; discriminate.
  - intros r c acts H. unfold fetchWithFallback in H.
    destruct (attempts_spec _ _ _ _ _ _ _ _ _ H) as [Hle Hgive].
    split; [exact Hle |]. split.
    + intros Hall.
      destruct (attempts_give_up base env maxTries 0 cursor None) as [e He];
        [intros k Hk; apply Hall; change maxTries with 6%nat in Hk; lia |].
      rewrite H in He. eauto.
    + intros e He. destruct (Hgive e He) as (Hp & Hlast).
      split; [exact Hp | exact Hlast].
Qed.

Lemma always_busy_ok : forall attempt, attempt_ok (always_busy attempt).
Proof. intros attempt. unfold attempt_ok. simpl. lia. Qed.

Lemma C4_failover_witness :
  exists jitter, 0 <= jitter < 250 /\
    turn 800 3 (always_busy 3) 0
    = (Continue (TooManyRequests "https://overpass-api.de/api/interpreter") 1%nat,
       [Slot; Post "https://overpass-api.de/api/interpreter";
        Sleep (800 * 2 ^ Z.min 4 (Z.of_nat 3) + jitter)]).
Proof.
  destruct (proj1 (C4_failover 800 always_busy 0 always_busy_ok) 3%nat
              (inl AllFailed) eq_refl) as (jitter & Hj & T & _).
  exists jitter. split; [exact Hj | exact T].
Defined.

(** *** Response mapping *)

Definition type_name (t : EstablishmentType) : string :=
  match t with
  | bar => "bar"
  | wine_cellar => "wine-cellar"
  | nightclub => "nightclub"
  | supermarket => "supermarket"
  | restaurant => "restaurant"
  | liquor_store => "liquor-store"
  end.

Definition element_type_name (t : ElementType) : string :=
  match t with node => "node" | way => "way" | relation => "relation" end.

(** [tags.k === v] *)
Definition tag_is (tags : gmap string string) (k v : string) : bool :=
  bool_decide (tags !! k = Some v).

Definition mapOsmTagsToType (tags : gmap string string) : option EstablishmentType :=
  if tag_is tags "amenity" "bar" || tag_is tags "amenity" "pub" then Some bar
  else if tag_is tags "amenity" "nightclub" then Some nightclub
  else if tag_is tags "shop" "wine" then Some wine_cellar
  else if tag_is tags "shop" "alcohol" || tag_is tags "shop" "beverages"
       then Some liquor_store
  else if tag_is tags "amenity" "restaurant" then Some restaurant
  else if tag_is tags "shop" "supermarket" || tag_is tags "shop" "convenience"
       then Some supermarket
  else None.

(** Truthiness of a string and of a number. *)
Definition truthy_string (o : option string) : bool :=
  match o with
  | Some s => negb (String.eqb s "")
  | None => false
  end.

Definition truthy_number (o : option Q) : bool :=
  match o with
  | Some q => negb (Qeq_bool q 0)
  | None => false
  end.

Definition isEstablishmentOpen (tags : gmap string string) : bool :=
  if negb (truthy_string (tags !! "opening_hours")) then true
  else if tag_is tags "opening_hours" "24/7" then true
  else true.

(** Where the callback of [data.elements.map] takes the coordinates from. *)
Definition coordinates (element : OverpassElement) : option (Q * Q) :=
  match el_type element, el_lat element, el_lon element with
  | node, Some la, Some lo =>
      if truthy_number (Some la) && truthy_number (Some lo)
      then Some (la, lo)
      else el_center element
  | _, _, _ => el_center element
  end.

(** The callback of [data.elements.map]; [None] is its [null]. *)
Definition toEstablishment (element : OverpassElement) : option Establishment :=
  match el_tags element with
  | None => None
  | Some tags =>
      match mapOsmTagsToType tags with
      | None => None
      | Some type =>
          match coordinates element with
          | None => None
          | Some (latitude, longitude) =>
              Some {| id := element_type_name (el_type element) +:+ "-"
                            +:+ pretty (el_id element);
                      name := if truthy_string (tags !! "name")
                              then default "" (tags !! "name")
                              else type_name type +:+ " sans nom";
                      type := type;
                      lat := latitude;
                      lng := longitude;
                      isOpen := isEstablishmentOpen tags;
                      city := tags !! "addr:city";
                      tags := tags |}
          end
      end
  end.

(** [data.elements.map(...).filter(est => est !== null)] *)
Definition toEstablishments (data : OverpassResponse) : list Establishment :=
  omap toEstablishment (elements data).

(** *** Cache key *)

Inductive SearchMode := proximity | by_city.

Record CityData := {
  city_name : string;
  boundingbox : option (list string)
}.

(** The arguments of [queryOverpass]. *)
Record Query := {
  q_lat : Q;
  q_lng : Q;
  q_radius : Q;
  q_types : list EstablishmentType;
  q_searchMode : SearchMode;
  q_cityData : option CityData
}.

Fixpoint insert_sorted (x : string) (l : list string) : list string :=
  match l with
  | [] => [x]
  | y :: rest => if String.leb x y then x :: l else y :: insert_sorted x rest
  end.

(** [types.sort()]: the names in code-unit order. *)
Definition sort_names (l : list string) : list string :=
  foldr insert_sorted [] l.

(** The product [x * 100] of [getCacheKey], rounded by [Math.round]; the
    coordinate is the double nearest to [x]. *)
Definition hundredths (x : Q) : Double.double :=
  Double.Math_round (Double.mul (Double.of_Q x) (Double.of_Z 100)).

(** [Math.round(x * 100) / 100], as the rational the resulting double
    stands for. *)
Definition round2 (x : Q) : Q :=
  Double.to_Q (Double.div (hundredths x) (Double.of_Z 100)).

Section CacheKey.

(** The text JavaScript prints for a number, applied to reduced fractions. *)
Variable numToString : Q -> string.

Definition getCacheKey (lat lng radius : Q) (types : list EstablishmentType)
    (searchMode : SearchMode) (city : option string) : string :=
  let typesStr := String.concat "," (sort_names (map type_name types)) in
  let by_position :=
    "proximity:" +:+ numToString (Qred (round2 lat)) +:+ ":"
    +:+ numToString (Qred (round2 lng)) +:+ ":"
    +:+ numToString (Qred radius) +:+ ":" +:+ typesStr in
  match searchMode with
  | by_city =>
      if truthy_string city
      then "city:" +:+ default "" city +:+ ":" +:+ typesStr
      else by_position
  | proximity => by_position
  end.

Definition key_of (q : Query) : string :=
  getCacheKey (q_lat q) (q_lng q) (q_radius q) (q_types q) (q_searchMode q)
    (city_name <$> q_cityData q).

(** *** Cache and requests in flight *)

Record CacheEntry := {
  data : list Establishment;
  timestamp : Z
}.

Definition CACHE_DURATION : Z := 5 * 60 * 1000.

(** The module's maps, and the operations that are under way.  An operation
    is the async body created by one call: [running] holds the cache key it
    closes over, [settled] what its promise settled with, [fetches] counts
    the calls of [fetchWithFallback]. *)
Record Engine := {
  cache : gmap string CacheEntry;
  inFlightRequests : gmap string nat;
  running : gmap nat string;
  settled : gmap nat (Error + list Establishment);
  next_op : nat;
  fetches : nat
}.

Definition idle_engine : Engine :=
  {| cache := ∅; inFlightRequests := ∅; running := ∅; settled := ∅;
     next_op := 0; fetches := 0 |}.

Definition expired (now : Z) (entry : string * CacheEntry) : Prop :=
  now - timestamp entry.2 > CACHE_DURATION.

Global Instance expired_dec now entry : Decision (expired now entry).
Proof. unfold expired. apply _. Defined.

Definition cleanExpiredCache (now : Z) (c : gmap string CacheEntry)
  : gmap string CacheEntry :=
  filter (fun entry => ~ expired now entry) c.

(** What a call of [queryOverpass] hands back before anything is awaited:
    the cached list, or the promise of an operation, joined or started. *)
Inductive Returned :=
| Cached (venues : list Establishment)
| Subscribed (op : nat)
| Started (op : nat).

(** [queryOverpass] up to its first [await]; [now] is the clock at the cache
    test and [nowClean] the clock inside [cleanExpiredCache]. *)
Definition queryOverpass (q : Query) (now nowClean : Z) (s : Engine)
  : Returned * Engine :=
  let cacheKey := key_of q in
  let fresh :=
    match cache s !! cacheKey with
    | Some cached =>
        if now - timestamp cached <? CACHE_DURATION then Some (data cached) else None
    | None => None
    end in
  match fresh with
  | Some venues => (Cached venues, s)
  | None =>
      match inFlightRequests s !! cacheKey with
      | Some inFlight => (Subscribed inFlight, s)
      | None =>
          let op := next_op s in
          (Started op,
           {| cache := cleanExpiredCache nowClean (cache s);
              inFlightRequests := <[cacheKey := op]> (inFlightRequests s);
              running := <[op := cacheKey]> (running s);
              settled := settled s;
              next_op := S op;
              fetches := S (fetches s) |})
      end
  end.

(** The rest of an operation, run when its [fetchWithFallback] has settled
    with [result] at time [now]: map and cache on success, settle the
    promise, and the [finally] of the starting call deletes the record.  The
    [finally] is the continuation of the settled promise and runs in the same
    turn of the event loop, so the two steps are taken together. *)
Definition settle (op : nat) (result : Error + OverpassResponse) (now : Z)
    (s : Engine) : Engine :=
  match running s !! op with
  | None => s
  | Some cacheKey =>
      let outcome :=
        match result with
        | inr fetched => inr (toEstablishments fetched)
        | inl error => inl error
        end in
      {| cache :=
           match outcome with
           | inr establishments =>
               <[cacheKey := {| data := establishments; timestamp := now |}]> (cache s)
           | inl _ => cache s
           end;
         inFlightRequests := delete cacheKey (inFlightRequests s);
         running := delete op (running s);
         settled := <[op := outcome]> (settled s);
         next_op := next_op s;
         fetches := fetches s |}
  end.

Definition clearCache (s : Engine) : Engine :=
  {| cache := ∅; inFlightRequests := inFlightRequests s; running := running s;
     settled := settled s; next_op := next_op s; fetches := fetches s |}.

Inductive Event :=
| Call (q : Query) (now nowClean : Z)
| Settle (op : nat) (result : Error + OverpassResponse) (now : Z)
| ClearCache.

Definition step (s : Engine) (e : Event) : Engine :=
  match e with
  | Call q now nowClean => (queryOverpass q now nowClean s).2
  | Settle op result now => settle op result now s
  | ClearCache => clearCache s
  end.

Definition run (evs : list Event) (s : Engine) : Engine := fold_left step evs s.

(** The answers to a series of calls made one after the other, each given
    as the query with its two clock readings. *)
Fixpoint call_all (cs : list (Query * Z * Z)) (s : Engine)
  : list Returned * Engine :=
  match cs with
  | [] => ([], s)
  | (q, now, nowClean) :: rest =>
      let (r, s') := queryOverpass q now nowClean s in
      let (rs, s'') := call_all rest s' in
      (r :: rs, s'')
  end.

(** What the caller holding [r] has received in state [s]. *)
Definition delivered (r : Returned) (s : Engine)
  : option (Error + list Establishment) :=
  match r with
  | Cached venues => Some (inr venues)
  | Subscribed op | Started op => settled s !! op
  end.

End CacheKey.

(** *** Response mapping: facts *)

Lemma untagged_dropped (element : OverpassElement) :
  el_tags element = None -> toEstablishment element = None.
Proof. unfold toEstablishment. intros ->. reflexivity. Qed.

Lemma uncategorised_dropped (element : OverpassElement) (t : gmap string string) :
  el_tags element = Some t -> mapOsmTagsToType t = None ->
  toEstablishment element = None.
Proof. unfold toEstablishment. intros -> ->. reflexivity. Qed.

Lemma pub_is_bar (t : gmap string string) :
  t !! "amenity"%string = Some "pub"%string -> mapOsmTagsToType t = Some bar.
Proof.
  intros H. unfold mapOsmTagsToType, tag_is. rewrite H. reflexivity.
Qed.

Lemma wine_shop_is_wine_cellar (t : gmap string string) :
  t !! "amenity"%string = None -> t !! "shop"%string = Some "wine"%string ->
  mapOsmTagsToType t = Some wine_cellar.
Proof.
  intros Ha Hs. unfold mapOsmTagsToType, tag_is. rewrite Ha, Hs. reflexivity.
Qed.

Lemma no_category_tag (t : gmap string string) :
  t !! "amenity"%string = None -> t !! "shop"%string = None ->
  mapOsmTagsToType t = None.
Proof.
  intros Ha Hs. unfold mapOsmTagsToType, tag_is. rewrite Ha, Hs. reflexivity.
Qed.

(** A node whose latitude and longitude are both non-zero is placed at its
    own position; anything that is not a node, at its centre. *)
Lemma node_own_position (element : OverpassElement) (la lo : Q) :
  el_type element = node ->
  el_lat element = Some la -> el_lon element = Some lo ->
  ~ (la == 0)%Q -> ~ (lo == 0)%Q ->
  coordinates element = Some (la, lo).
Proof.
  intros Ht Hla Hlo Na No. unfold coordinates. rewrite Ht, Hla, Hlo. simpl.
  destruct (Qeq_bool la 0) eqn:Ea; [apply Qeq_bool_iff in Ea; contradiction |].
  destruct (Qeq_bool lo 0) eqn:Eo; [apply Qeq_bool_iff in Eo; contradiction |].
  reflexivity.
Qed.

Lemma other_geometry_centre (element : OverpassElement) :
  el_type element <> node -> coordinates element = el_center element.
Proof.
  intros Ht. unfold coordinates.
  destruct (el_type element); [contradiction | reflexivity | reflexivity].
Qed.

Lemma no_position_dropped (element : OverpassElement) :
  coordinates element = None -> toEstablishment element = None.
Proof.
  unfold toEstablishment. intros ->.
  destruct (el_tags element) as [t |]; [| reflexivity].
  destruct (mapOsmTagsToType t); reflexivity.
Qed.

Definition tagged (k v : string) : gmap string string := {[ k := v ]}.

Definition a_node (i : Z) (la lo : Q) (t : gmap string string) : OverpassElement :=
  {| el_type := node; el_id := i; el_lat := Some la; el_lon := Some lo;
     el_center := None; el_tags := Some t |}.

(** The scenario of the specification: two bars and a shop that is in no
    category, around (48.8566, 2.3522). *)
Definition paris_reply : OverpassResponse :=
  {| elements :=
       [ a_node 1 (488570 # 10000) (23520 # 10000) (tagged "amenity" "bar");
         a_node 2 (488560 # 10000) (23530 # 10000) (tagged "amenity" "pub");
         a_node 3 (488565 # 10000) (23525 # 10000) (tagged "shop" "bakery") ] |}.

Example paris_scenario :
  map (fun e => (id e, type e, name e)) (toEstablishments paris_reply)
  = [ ("node-1", bar, "bar sans nom"); ("node-2", bar, "bar sans nom") ]%string.
Proof. vm_compute. reflexivity. Qed.

(** A pub that stands on the prime meridian. *)
Definition meridian_pub : OverpassElement :=
  a_node 42 (515 # 10) 0 (tagged "amenity" "pub").

(** C5 (the code departs from the claim). A node carrying its own latitude
    and longitude, tagged [amenity=pub], is dropped when its longitude is 0:
    the test [element.lat && element.lon] takes the number 0 for an absent
    coordinate, and a node has no centre to fall back on. *)
Theorem C5_node_on_meridian_dropped :
  el_type meridian_pub = node /\
  el_lat meridian_pub = Some (515 # 10)%Q /\ el_lon meridian_pub = Some 0%Q /\
  mapOsmTagsToType (tagged "amenity" "pub") = Some bar /\
  coordinates meridian_pub = None /\
  toEstablishment meridian_pub = None /\
  toEstablishments {| elements := [meridian_pub] |} = [].
Proof. vm_compute. repeat split; reflexivity. Qed.

(** *** Cache and sharing: facts *)

(** No usable entry: none at all, or one aged [CACHE_DURATION] or more. *)
Definition stale (entry : option CacheEntry) (now : Z) : Prop :=
  match entry with
  | Some cached => CACHE_DURATION <= now - timestamp cached
  | None => True
  end.

(** Every operation under way owns the record stored under its key, and
    operation numbers are not reused. *)
Record Inv (s : Engine) : Prop := {
  inv_record : forall op key,
      running s !! op = Some key -> inFlightRequests s !! key = Some op;
  inv_fresh : forall op key, running s !! op = Some key -> (op < next_op s)%nat
}.

(** The events among which a cached entry read at time [T] survives: calls
    made no later than [T], and settlements. *)
Definition quiet (T : Z) (e : Event) : Prop :=
  match e with
  | Call _ now nowClean => now <= T /\ nowClean <= T
  | Settle _ _ _ => True
  | ClearCache => False
  end.

Definition not_settle (op : nat) (e : Event) : Prop :=
  match e with
  | Settle op' _ _ => op' <> op
  | _ => True
  end.

Section EngineFacts.
Variable numToString : Q -> string.

Let key_of := key_of numToString.
Let queryOverpass := queryOverpass numToString.
Let step := step numToString.
Let run := run numToString.
Let call_all := call_all numToString.

Definition started_state (q : Query) (nowClean : Z) (s : Engine) : Engine :=
  {| cache := cleanExpiredCache nowClean (cache s);
     inFlightRequests := <[key_of q := next_op s]> (inFlightRequests s);
     running := <[next_op s := key_of q]> (running s);
     settled := settled s;
     next_op := S (next_op s);
     fetches := S (fetches s) |}.

Lemma queryOverpass_hit q now nowClean s cached :
  cache s !! key_of q = Some cached ->
  now - timestamp cached < CACHE_DURATION ->
  queryOverpass q now nowClean s = (Cached (data cached), s).
Proof.
  intros Hc Hage. unfold queryOverpass, Overpass.queryOverpass.
  fold (key_of q). rewrite Hc.
  apply Z.ltb_lt in Hage. rewrite Hage. reflexivity.
Qed.

Lemma queryOverpass_join q now nowClean s op :
  stale (cache s !! key_of q) now ->
  inFlightRequests s !! key_of q = Some op ->
  queryOverpass q now nowClean s = (Subscribed op, s).
Proof.
  intros Hst Hfl. unfold queryOverpass, Overpass.queryOverpass.
  fold (key_of q). rewrite Hfl.
  destruct (cache s !! key_of q) as [cached |]; [| reflexivity].
  simpl in Hst. apply Z.ltb_ge in Hst. rewrite Hst. reflexivity.
Qed.

Lemma queryOverpass_start q now nowClean s :
  stale (cache s !! key_of q) now ->
  inFlightRequests s !! key_of q = None ->
  queryOverpass q now nowClean s = (Started (next_op s), started_state q nowClean s).
Proof.
  intros Hst Hfl. unfold queryOverpass, Overpass.queryOverpass.
  fold (key_of q). rewrite Hfl.
  destruct (cache s !! key_of q) as [cached |]; [| reflexivity].
  simpl in Hst. apply Z.ltb_ge in Hst. rewrite Hst. reflexivity.
Qed.

(** A call leaves the state alone unless it starts an operation. *)
Lemma queryOverpass_state q now nowClean s :
  (queryOverpass q now nowClean s).2 = s \/
  (inFlightRequests s !! key_of q = None /\
   (queryOverpass q now nowClean s).2 = started_state q nowClean s).
Proof.
  unfold queryOverpass, Overpass.queryOverpass. fold (key_of q).
  destruct (cache s !! key_of q) as [cached |].
  - destruct (now - timestamp cached <? CACHE_DURATION); [left; reflexivity |].
    destruct (inFlightRequests s !! key_of q); [left; reflexivity |].
    right. split; reflexivity.
  - destruct (inFlightRequests s !! key_of q); [left; reflexivity |].
    right. split; reflexivity.
Qed.

Lemma idle_engine_inv : Inv idle_engine.
Proof. split; intros op key H; simpl in H; rewrite lookup_empty in H; discriminate. Qed.

Lemma step_inv (s : Engine) (e : Event) : Inv s -> Inv (step s e).
Proof.
  intros [Hrec Hfresh]. destruct e as [q now nowClean | op result now |]; simpl.
  - unfold step. simpl. fold (queryOverpass q now nowClean s).
    destruct (queryOverpass_state q now nowClean s) as [-> | [Hnone ->]];
      [split; assumption |].
    split; simpl; intros op key H.
    + destruct (decide (op = next_op s)) as [-> | Hne].
      * rewrite lookup_insert_eq in H. injection H as <-.
        apply lookup_insert_eq.
      * rewrite lookup_insert_ne in H by congruence.
        assert (key <> key_of q).
        { intros ->. rewrite (Hrec _ _ H) in Hnone. discriminate. }
        rewrite lookup_insert_ne by congruence. apply Hrec, H.
    + destruct (decide (op = next_op s)) as [-> | Hne]; [lia |].
      rewrite lookup_insert_ne in H by congruence.
      specialize (Hfresh _ _ H). lia.
  - unfold step. simpl. unfold settle.
    destruct (running s !! op) as [cacheKey |] eqn:Hop; [| split; assumption].
    split; simpl; intros op' key H.
    + destruct (decide (op' = op)) as [-> | Hne].
      * rewrite lookup_delete_eq in H. discriminate.
      * rewrite lookup_delete_ne in H by congruence.
        assert (key <> cacheKey).
        { intros ->. pose proof (Hrec _ _ H) as H1.
          rewrite (Hrec _ _ Hop) in H1. congruence. }
        rewrite lookup_delete_ne by congruence. apply Hrec, H.
    + destruct (decide (op' = op)) as [-> | Hne].
      * rewrite lookup_delete_eq in H. discriminate.
      * rewrite lookup_delete_ne in H by congruence. eapply Hfresh, H.
  - split; assumption.
Qed.

Lemma run_inv (evs : list Event) (s : Engine) : Inv s -> Inv (run evs s).
Proof.
  unfold run, Overpass.run. revert s.
  induction evs as [| e evs IH]; intros s Hs; simpl; [exact Hs |].
  apply IH. apply step_inv, Hs.
Qed.

(** **** An entry that stays *)

Definition kept (key : string) (entry : CacheEntry) (s : Engine) : Prop :=
  cache s !! key = Some entry /\ forall op, running s !! op <> Some key.

Lemma step_kept key entry T s e :
  T - timestamp entry < CACHE_DURATION ->
  quiet T e -> kept key entry s -> kept key entry (step s e).
Proof.
  intros HT Hq [Hc Hrun]. destruct e as [q now nowClean | op result now |].
  - destruct Hq as [Hnow Hclean]. unfold step. simpl.
    fold (queryOverpass q now nowClean s).
    destruct (decide (key_of q = key)) as [Hk | Hk].
    + rewrite (queryOverpass_hit q now nowClean s entry);
        [split; assumption | rewrite Hk; exact Hc | lia].
    + destruct (queryOverpass_state q now nowClean s) as [-> | [_ ->]];
        [split; assumption |].
      split; simpl.
      * apply map_lookup_filter_Some_2; [exact Hc |].
        unfold expired. simpl. lia.
      * intros op. destruct (decide (op = next_op s)) as [-> | Hne].
        -- rewrite lookup_insert_eq. congruence.
        -- rewrite lookup_insert_ne by congruence. apply Hrun.
  - unfold step. simpl. unfold settle.
    destruct (running s !! op) as [cacheKey |] eqn:Hop; [| split; assumption].
    assert (cacheKey <> key) by (intros ->; exact (Hrun op Hop)).
    split; simpl.
    + destruct result as [error | fetched]; [exact Hc |].
      rewrite lookup_insert_ne by congruence. exact Hc.
    + intros op'. destruct (decide (op' = op)) as [-> | Hne].
      * rewrite lookup_delete_eq. discriminate.
      * rewrite lookup_delete_ne by congruence. apply Hrun.
  - destruct Hq.
Qed.

Lemma run_kept key entry T evs s :
  T - timestamp entry < CACHE_DURATION ->
  Forall (quiet T) evs -> kept key entry s -> kept key entry (run evs s).
Proof.
  intros HT. unfold run, Overpass.run. revert s.
  induction evs as [| e evs IH]; intros s Hq Hk; simpl; [exact Hk |].
  inversion Hq; subst. apply IH; [assumption |].
  eapply step_kept; eassumption.
Qed.

Lemma settle_kept op key fetched t0 s :
  Inv s -> running s !! op = Some key ->
  kept key {| data := toEstablishments fetched; timestamp := t0 |}
    (settle op (inr fetched) t0 s).
Proof.
  intros [Hrec Hfresh] Hop. unfold settle. rewrite Hop. split; simpl.
  - apply lookup_insert_eq.
  - intros op' H. destruct (decide (op' = op)) as [-> | Hne].
    + rewrite lookup_delete_eq in H. discriminate.
    + rewrite lookup_delete_ne in H by congruence.
      pose proof (Hrec _ _ H) as H1. rewrite (Hrec _ _ Hop) in H1. congruence.
Qed.

(** **** A record that is shared *)

(** While operation [op] for [key] is under way: its record is in the map,
    and the cache holds for [key] nothing it did not hold before. *)
Definition shared (key : string) (op : nat) (before : option CacheEntry)
    (s : Engine) : Prop :=
  inFlightRequests s !! key = Some op /\
  running s !! op = Some key /\
  (cache s !! key = None \/ cache s !! key = before) /\
  Inv s.

Lemma step_shared key op before s e :
  not_settle op e -> shared key op before s -> shared key op before (step s e).
Proof.
  intros Hns (Hfl & Hrun & Hc & HI).
  pose proof (step_inv s e HI) as HI'.
  destruct HI as [Hrec Hfresh].
  destruct e as [q now nowClean | op' result now |].
  - unfold step in *. simpl in *. fold (queryOverpass q now nowClean s) in *.
    destruct (queryOverpass_state q now nowClean s) as [E | [Hnone E]];
      rewrite E in *; [exact (conj Hfl (conj Hrun (conj Hc HI'))) |].
    assert (key_of q <> key) by (intros Hk; rewrite Hk, Hfl in Hnone; discriminate).
    assert (op <> next_op s) by (specialize (Hfresh _ _ Hrun); lia).
    refine (conj _ (conj _ (conj _ HI'))); simpl.
    + rewrite lookup_insert_ne by congruence. exact Hfl.
    + rewrite lookup_insert_ne by congruence. exact Hrun.
    + destruct (cleanExpiredCache nowClean (cache s) !! key) as [x |] eqn:Ex;
        [| left; reflexivity].
      apply map_lookup_filter_Some_1_1 in Ex.
      destruct Hc as [Hc | Hc]; [congruence |]. right. congruence.
  - simpl in Hns. unfold step in *. simpl in *. unfold settle in *.
    destruct (running s !! op') as [cacheKey |] eqn:Hop';
      [| exact (conj Hfl (conj Hrun (conj Hc HI')))].
    assert (cacheKey <> key).
    { intros ->. pose proof (Hrec _ _ Hop') as H1. congruence. }
    refine (conj _ (conj _ (conj _ HI'))); simpl.
    + rewrite lookup_delete_ne by congruence. exact Hfl.
    + rewrite lookup_delete_ne by congruence. exact Hrun.
    + destruct result as [error | fetched]; [exact Hc |].
      rewrite lookup_insert_ne by congruence. exact Hc.
  - refine (conj Hfl (conj Hrun (conj _ HI'))). left. apply lookup_empty.
Qed.

Lemma run_shared key op before evs s :
  Forall (not_settle op) evs ->
  shared key op before s -> shared key op before (run evs s).
Proof.
  unfold run, Overpass.run. revert s.
  induction evs as [| e evs IH]; intros s Hq Hs; simpl; [exact Hs |].
  inversion Hq; subst. apply IH; [assumption |].
  apply step_shared; assumption.
Qed.

Lemma shared_join key op before s q now nowClean :
  shared key op before s -> key_of q = key -> stale before now ->
  queryOverpass q now nowClean s = (Subscribed op, s).
Proof.
  intros (Hfl & _ & Hc & _) Hk Hst.
  apply queryOverpass_join; rewrite Hk; [| exact Hfl].
  destruct Hc as [-> | ->]; [exact I | exact Hst].
Qed.

Lemma shared_call_all key op before s cs :
  shared key op before s ->
  Forall (fun c => key_of c.1.1 = key /\ stale before c.1.2) cs ->
  call_all cs s = (replicate (length cs) (Subscribed op), s).
Proof.
  intros Hs. induction cs as [| [[q now] nowClean] cs IH]; intros Hcs; simpl;
    [reflexivity |].
  inversion Hcs as [| c cs' Hc Hrest]; subst. destruct Hc as [Hk Hst].
  simpl in Hk, Hst.
  rewrite (shared_join _ _ _ _ _ _ _ Hs Hk Hst), (IH Hrest). reflexivity.
Qed.

End EngineFacts.

(** *** The cache key and the order of the categories *)

(** Position of a category name in code-unit order. *)
Definition rank (t : EstablishmentType) : nat :=
  match t with
  | bar => 0
  | liquor_store => 1
  | nightclub => 2
  | restaurant => 3
  | supermarket => 4
  | wine_cellar => 5
  end.

Definition by_rank (a b : EstablishmentType) : Prop := (rank a <= rank b)%nat.

Fixpoint insert_type (x : EstablishmentType) (l : list EstablishmentType)
  : list EstablishmentType :=
  match l with
  | [] => [x]
  | y :: rest =>
      if (rank x <=? rank y)%nat then x :: l else y :: insert_type x rest
  end.

Definition sort_types (l : list EstablishmentType) : list EstablishmentType :=
  foldr insert_type [] l.

Lemma leb_rank (a b : EstablishmentType) :
  String.leb (type_name a) (type_name b) = (rank a <=? rank b)%nat.
Proof. destruct a, b; reflexivity. Qed.

Lemma rank_inj (a b : EstablishmentType) : rank a = rank b -> a = b.
Proof. destruct a, b; simpl; intros H; try reflexivity; discriminate. Qed.

Global Instance by_rank_trans : Transitive by_rank.
Proof. intros a b c. unfold by_rank. lia. Qed.

Global Instance by_rank_antisym : AntiSymm eq by_rank.
Proof. intros a b Hab Hba. apply rank_inj. unfold by_rank in *. lia. Qed.

Lemma insert_type_names x l :
  map type_name (insert_type x l) = insert_sorted (type_name x) (map type_name l).
Proof.
  induction l as [| y l IH]; simpl; [reflexivity |].
  rewrite leb_rank. destruct (rank x <=? rank y)%nat; simpl; [reflexivity |].
  rewrite IH. reflexivity.
Qed.

Lemma sort_types_names l :
  map type_name (sort_types l) = sort_names (map type_name l).
Proof.
  induction l as [| x l IH]; simpl; [reflexivity |].
  rewrite insert_type_names, IH. reflexivity.
Qed.

Lemma insert_type_perm x l : insert_type x l ≡ₚ x :: l.
Proof.
  induction l as [| y l IH]; simpl; [reflexivity |].
  destruct (rank x <=? rank y)%nat; [reflexivity |].
  rewrite IH. apply perm_swap.
Qed.

Lemma sort_types_perm l : sort_types l ≡ₚ l.
Proof.
  induction l as [| x l IH]; simpl; [reflexivity |].
  rewrite insert_type_perm, IH. reflexivity.
Qed.

Lemma insert_type_sorted x l : Sorted by_rank l -> Sorted by_rank (insert_type x l).
Proof.
  induction l as [| y l IH]; intros Hs; simpl.
  - repeat constructor.
  - destruct (rank x <=? rank y)%nat eqn:E.
    + apply Nat.leb_le in E. constructor; [exact Hs |]. constructor. exact E.
    + apply Nat.leb_gt in E. inversion Hs as [| ? ? Hs' Hhd]; subst.
      constructor; [apply IH, Hs' |].
      destruct l as [| z l]; simpl.
      * constructor. unfold by_rank. lia.
      * destruct (rank x <=? rank z)%nat; constructor.
        -- unfold by_rank. lia.
        -- inversion Hhd; subst. assumption.
Qed.

Lemma sort_types_sorted l : Sorted by_rank (sort_types l).
Proof.
  induction l as [| x l IH]; simpl; [constructor |].
  apply insert_type_sorted, IH.
Qed.

(** The sorted list of names does not depend on the order in which the
    categories were given. *)
Lemma sort_names_perm (l l' : list EstablishmentType) :
  l ≡ₚ l' -> sort_names (map type_name l) = sort_names (map type_name l').
Proof.
  intros Hp. rewrite <- !sort_types_names. f_equal.
  apply (Sorted_unique by_rank); try apply sort_types_sorted.
  rewrite !sort_types_perm. exact Hp.
Qed.

Lemma getCacheKey_types_order (numToString : Q -> string)
    lat lng radius (types types' : list EstablishmentType) searchMode city :
  types ≡ₚ types' ->
  getCacheKey numToString lat lng radius types searchMode city
  = getCacheKey numToString lat lng radius types' searchMode city.
Proof.
  intros Hp. unfold getCacheKey. rewrite (sort_names_perm _ _ Hp). reflexivity.
Qed.

(** In city mode with a city name, the key ignores position and radius. *)
Lemma getCacheKey_city (numToString : Q -> string)
    lat lng radius lat' lng' radius' types (c : string) :
  c <> ""%string ->
  getCacheKey numToString lat lng radius types by_city (Some c)
  = getCacheKey numToString lat' lng' radius' types by_city (Some c).
Proof.
  intros Hc. unfold getCacheKey. simpl.
  destruct (String.eqb c "") eqn:E; [apply String.eqb_eq in E; contradiction |].
  reflexivity.
Qed.

(** *** Claims on the cache and on sharing *)

(** The coarse grid: in proximity mode the key depends on the position only
    through its coordinates rounded to two decimals. *)
Lemma getCacheKey_rounded (numToString : Q -> string)
    (lat lng lat' lng' radius radius' : Q) types city city' :
  hundredths lat = hundredths lat' ->
  hundredths lng = hundredths lng' ->
  (radius == radius')%Q ->
  getCacheKey numToString lat lng radius types proximity city
  = getCacheKey numToString lat' lng' radius' types proximity city'.
Proof.
  intros Hlat Hlng Hr. unfold getCacheKey, round2.
  rewrite Hlat, Hlng, (Qred_complete _ _ Hr). reflexivity.
Qed.

(** A stand-in for the number printer in concrete runs. *)
Definition show_fraction (q : Q) : string :=
  pretty (Qnum q) +:+ "/" +:+ pretty (Z.pos (Qden q)).

Definition paris_query : Query :=
  {| q_lat := 488566 # 10000; q_lng := 23522 # 10000; q_radius := 5;
     q_types := [bar]; q_searchMode := proximity; q_cityData := None |}.

Definition paris_nearby : Query :=
  {| q_lat := 488571 # 10000; q_lng := 23519 # 10000; q_radius := 5;
     q_types := [bar]; q_searchMode := proximity; q_cityData := None |}.

Definition lyon_query : Query :=
  {| q_lat := 457640 # 10000; q_lng := 48357 # 10000; q_radius := 5;
     q_types := [restaurant; bar]; q_searchMode := proximity; q_cityData := None |}.

(** The rounded coordinates are doubles: 48.86 is 3438216840520663 / 2^46
    and 2.35 is 5291729562160333 / 2^51. *)
Example paris_key :
  key_of show_fraction paris_query
  = "proximity:3438216840520663/70368744177664:5291729562160333/2251799813685248:5/1:bar"%string /\
  key_of show_fraction paris_nearby = key_of show_fraction paris_query /\
  key_of show_fraction lyon_query
  = "proximity:6440147467139809/140737488355328:1362338887279575/281474976710656:5/1:bar,restaurant"%string.
Proof. vm_compute. repeat split; reflexivity. Qed.

(** The product is rounded as a double before [Math.round] sees it: the
    double 40.025 lies just below the decimal, its exact product with 100
    just below 4002.5, and the double product is 4002.5; the key carries
    40.03. *)
Example round2_of_double_product :
  Double.mul (Double.of_Q (40025 # 1000)) (Double.of_Z 100)
  = Double.of_Q (40025 # 10) /\
  hundredths (40025 # 1000) = Double.of_Z 4003 /\
  round2 (40025 # 1000) = Double.to_Q (Double.of_Q (4003 # 100)) /\
  JsNum.js_round (Double.to_Q (Double.of_Q (40025 # 1000)) * 100) = 4002%Z.
Proof. vm_compute. repeat split; reflexivity. Qed.

(** C2. Once an operation has answered a query (its list is cached at time
    [t0]), a call with the same cache key made less than five minutes after
    [t0] gets that list from the cache and leaves the whole state as it
    was: no operation is started, so nothing goes to the network.  This
    holds whatever other calls and settlements happen in between, the cache
    not being cleared by hand. *)
Theorem C2_cache_hit (numToString : Q -> string)
    (evs0 : list Event) (op : nat) (key : string) (fetched : OverpassResponse)
    (t0 : Z) (evs : list Event) (q : Query) (now nowClean : Z) :
  let s0 := run numToString evs0 idle_engine in
  running s0 !! op = Some key ->
  let s1 := settle op (inr fetched) t0 s0 in
  Forall (quiet now) evs ->
  let s2 := run numToString evs s1 in
  key_of numToString q = key ->
  now - t0 < CACHE_DURATION ->
  queryOverpass numToString q now nowClean s2
  = (Cached (toEstablishments fetched), s2).
Proof.
  intros s0 Hop s1 Hq s2 Hk Hage.
  assert (HI : Inv s0) by apply run_inv, idle_engine_inv.
  pose proof (settle_kept op key fetched t0 s0 HI Hop) as K1.
  pose proof (run_kept numToString key
                {| data := toEstablishments fetched; timestamp := t0 |}
                now evs _ Hage Hq K1) as [Hc _].
  apply (queryOverpass_hit numToString q now nowClean s2
           {| data := toEstablishments fetched; timestamp := t0 |});
    [rewrite Hk; exact Hc | exact Hage].
Qed.

Lemma C2_cache_hit_witness :
  let s0 := run show_fraction [Call paris_query 1000 1000] idle_engine in
  let s1 := settle 0 (inr paris_reply) 2000 s0 in
  let s2 := run show_fraction [Call lyon_query 2500 2500] s1 in
  queryOverpass show_fraction paris_nearby 3000 3000 s2
  = (Cached (toEstablishments paris_reply), s2).
Proof.
  apply (C2_cache_hit show_fraction [Call paris_query 1000 1000] 0%nat
           (key_of show_fraction paris_query) paris_reply 2000
           [Call lyon_query 2500 2500] paris_nearby 3000 3000).
  - vm_compute. reflexivity.
  - repeat constructor; simpl; lia.
  - vm_compute. reflexivity.
  - reflexivity.
Defined.

(** C3. A call that finds neither a usable cache entry nor a record for its
    key starts one operation: one call of [fetchWithFallback], which posts
    once when its first attempt returns data and at most six times when
    instances fail over.  Until that operation settles, whatever else
    happens, every further call with the same key joins it and changes
    nothing, so N callers share one operation.  When the operation settles,
    with a list or with an error, the record of the key is gone and every
    caller has received what the operation settled with. *)
Theorem C3_in_flight_dedup (numToString : Q -> string)
    (evs0 : list Event) (q : Query) (now nowClean : Z) :
  let s := run numToString evs0 idle_engine in
  let key := key_of numToString q in
  stale (cache s !! key) now ->
  inFlightRequests s !! key = None ->
  let op := next_op s in
  let s1 := (queryOverpass numToString q now nowClean s).2 in
  (queryOverpass numToString q now nowClean s).1 = Started op /\
  fetches s1 = S (fetches s) /\
  (forall base env cursor r c acts,
     fetchWithFallback base env cursor = (r, c, acts) ->
     (1 <= posts acts <= 6)%nat /\
     (failed (env 0%nat) = false -> posts acts = 1%nat)) /\
  forall (evs : list Event) (cs : list (Query * Z * Z)),
    Forall (not_settle op) evs ->
    Forall (fun c => key_of numToString c.1.1 = key /\
                     stale (cache s !! key) c.1.2) cs ->
    let s2 := run numToString evs s1 in
    call_all numToString cs s2 = (replicate (length cs) (Subscribed op), s2) /\
    forall (result : Error + OverpassResponse) (t : Z),
      let s3 := settle op result t s2 in
      let outcome :=
        match result with
        | inr fetched => inr (toEstablishments fetched)
        | inl error => inl error
        end in
      inFlightRequests s3 !! key = None /\
      running s3 !! op = None /\
      delivered (Started op) s3 = Some outcome /\
      delivered (Subscribed op) s3 = Some outcome.
Proof.
  intros s key Hst Hfl op s1.
  assert (HI : Inv s) by apply run_inv, idle_engine_inv.
  assert (E : queryOverpass numToString q now nowClean s
              = (Started op, started_state numToString q nowClean s)).
  { apply queryOverpass_start; assumption. }
  subst s1. rewrite E. simpl.
  split; [reflexivity |]. split; [reflexivity |].
  split; [intros base env cursor r c acts; apply operation_posts |].
  intros evs cs Hevs Hcs.
  assert (Hs1 : shared key op (cache s !! key)
                  (started_state numToString q nowClean s)).
  { pose proof (step_inv numToString s (Call q now nowClean) HI) as HI1.
    unfold step in HI1. simpl in HI1. rewrite E in HI1. simpl in HI1.
    refine (conj _ (conj _ (conj _ HI1))); simpl.
    - apply lookup_insert_eq.
    - apply lookup_insert_eq.
    - fold key.
      destruct (cleanExpiredCache nowClean (cache s) !! key) as [x |] eqn:Ex;
        [| left; reflexivity].
      apply map_lookup_filter_Some_1_1 in Ex. right. congruence. }
  pose proof (run_shared numToString key op _ evs _ Hevs Hs1) as Hs2.
  split; [apply (shared_call_all numToString key op (cache s !! key)); assumption |].
  intros result t. destruct Hs2 as (Hfl2 & Hrun2 & _ & _).
  unfold settle. rewrite Hrun2. simpl.
  rewrite !lookup_delete_eq, lookup_insert_eq. repeat split; reflexivity.
Qed.

Lemma C3_in_flight_dedup_witness :
  let s := run show_fraction [] idle_engine in
  let op := next_op s in
  let s1 := (queryOverpass show_fraction paris_query 1000 1000 s).2 in
  (queryOverpass show_fraction paris_query 1000 1000 s).1 = Started op /\
  fetches s1 = 1%nat.
Proof.
  refine (let H := C3_in_flight_dedup show_fraction [] paris_query 1000 1000 I _ in
          conj (proj1 H) (proj1 (proj2 H))).
  reflexivity.
Defined.

Example three_callers_one_fetch :
  let s1 := (queryOverpass show_fraction paris_query 1000 1000 idle_engine).2 in
  let '(answers, s2) :=
    call_all show_fraction [(paris_nearby, 1010, 1010); (paris_query, 1020, 1020)] s1 in
  answers = [Subscribed 0%nat; Subscribed 0%nat] /\ fetches s2 = 1%nat /\
  inFlightRequests (settle 0 (inl AllFailed) 5000 s2)
    !! key_of show_fraction paris_query = None.
Proof. vm_compute. repeat split; reflexivity. Qed.

End Overpass.

(** * Further properties of the code *)

(** ** Heading hook: normalisation, smoothing and the life cycle *)

Module HeadingFacts.
Import JsNum Heading.
Local Open Scope Q_scope.

(** Events of a session that only ever hears the accelerometer. *)
Definition accel_only (e : Event) : Prop :=
  match e with
  | Activate | StopTracking | AccelReading _ _ => True
  | _ => False
  end.

(** Events of a session that only ever hears the magnetometer. *)
Definition mag_only (e : Event) : Prop :=
  match e with
  | Activate | StopTracking | MagReading _ _ => True
  | _ => False
  end.

Lemma inject_Z_sub (a b : Z) : inject_Z (a - b) == inject_Z a - inject_Z b.
Proof.
  unfold Z.sub. rewrite inject_Z_plus, inject_Z_opp. reflexivity.
Qed.

Lemma normalized_unique (x y : Q) (k : Z) :
  normalized x -> normalized y -> x == y + 360 * inject_Z k -> x == y.
Proof.
  intros [X0 X1] [Y0 Y1] E.
  destruct (small_multiple k) as [-> | [-> | ->]]; try lra.
  - change (inject_Z (-1)) with (-1) in E. lra.
  - change (inject_Z 0) with 0 in E. lra.
  - change (inject_Z 1) with 1 in E. lra.
Qed.

Lemma normalizeAngle_eq (x r : Q) (k : Z) :
  normalized r -> r == x + 360 * inject_Z k -> normalizeAngle x == r.
Proof.
  intros Hr E. destruct (normalizeAngle_congr x) as [k' Hk'].
  apply (normalized_unique _ _ (k' - k)); [apply normalizeAngle_range | exact Hr |].
  rewrite inject_Z_sub, Hk', E. ring.
Qed.

(** Headings that differ by whole turns normalise to the same value. *)
Theorem normalizeAngle_periodic (x y : Q) (k : Z) :
  x == y + 360 * inject_Z k -> normalizeAngle x == normalizeAngle y.
Proof.
  intros E. destruct (normalizeAngle_congr y) as [k' Hk'].
  apply (normalizeAngle_eq x _ (k' - k)); [apply normalizeAngle_range |].
  rewrite inject_Z_sub, Hk', E. ring.
Qed.

Lemma normalizeAngle_periodic_witness : normalizeAngle 725 == normalizeAngle 5.
Proof.
  apply (normalizeAngle_periodic 725 5 2). reflexivity.
Defined.

(** The shortest-arc distance of two normalised headings that differ, up to
    whole turns, by [d] with [|d| <= 180] is [|d|]. *)
Lemma circDist_of (a b d : Q) (k : Z) :
  normalized a -> normalized b -> -180 <= d -> d <= 180 ->
  a - b == d + 360 * inject_Z k -> circDist a b == Qabs d.
Proof.
  intros [A0 A1] [B0 B1] D0 D1 E. unfold circDist.
  assert (Hk : k = (-1)%Z \/ k = 0%Z \/ k = 1%Z) by (apply small_multiple; lra).
  assert (Z0 : -360 < a - b /\ a - b < 360) by lra.
  revert Z0 E. generalize (a - b). intros z Z0 E.
  assert (Hz : Qabs z == Qabs d \/ Qabs z == 360 - Qabs d).
  { destruct Hk as [-> | [-> | ->]].
    - change (inject_Z (-1)) with (-1) in E. right.
      apply (Qabs_case z); intros Hz; apply (Qabs_case d); intros Hd; lra.
    - change (inject_Z 0) with 0 in E. left.
      apply (Qabs_case z); intros Hz; apply (Qabs_case d); intros Hd; lra.
    - change (inject_Z 1) with 1 in E. right.
      apply (Qabs_case z); intros Hz; apply (Qabs_case d); intros Hd; lra. }
  assert (Hd : 0 <= Qabs d /\ Qabs d <= 180).
  { split; [apply Qabs_nonneg | apply Qabs_Qle_condition; lra]. }
  revert Hz Hd. generalize (Qabs z) (Qabs d). intros u v Hz Hd.
  destruct (Q.min_spec u (360 - u)) as [[L ->] | [L ->]]; lra.
Qed.

(** Smoothing closes a fifth of the gap: after one step toward the heading
    [n], the shortest-arc distance to [n] is four fifths of what it was. *)
Theorem smoothing_contracts (p n : Q) :
  normalized p -> normalized n ->
  circDist (smooth (Some p) n) n == (8 # 10) * circDist p n.
Proof.
  intros Hp Hn. simpl. unfold smoothing_factor.
  destruct (shortestDelta_range p n Hp Hn) as [D0 D1].
  destruct (shortestDelta_congr p n) as [k1 Hk1].
  set (d := shortestDelta p n) in *. clearbody d.
  pose proof (normalizeAngle_range (p + (2 # 10) * d)) as Hx.
  destruct (normalizeAngle_congr (p + (2 # 10) * d)) as [k2 Hk2].
  set (x := normalizeAngle (p + (2 # 10) * d)) in *. clearbody x.
  rewrite (circDist_of p n (- d) k1); try assumption; try lra.
  rewrite (circDist_of x n (- ((8 # 10) * d)) (k1 + k2)); try assumption; try lra.
  2:{ rewrite inject_Z_plus. lra. }
  rewrite !Qabs_opp, Qabs_Qmult. reflexivity.
Qed.

Lemma smoothing_contracts_witness :
  circDist (smooth (Some 350) 10) 10 == (8 # 10) * circDist 350 10.
Proof.
  apply (smoothing_contracts 350 10); split; reflexivity || discriminate.
Defined.

Section Session.
Variable atan2Deg : Q -> Q -> Q.
Variable tiltHeadingDeg : Vec3 -> Vec3 -> Q.
Variable euler : Q -> Q -> Q -> Q.

Let step := step atan2Deg tiltHeadingDeg euler.
Let run := run atan2Deg tiltHeadingDeg euler.

(** The tilt-compensated path publishes nothing while only one of its two
    sensors has delivered. *)
Lemma accel_only_keeps (h : Hook) (evs : list Event) :
  Forall accel_only evs ->
  latestMag h = None -> heading (orientation h) = None ->
  heading (orientation (run evs h)) = None /\ latestMag (run evs h) = None.
Proof.
  unfold run, Heading.run. revert h.
  induction evs as [| e evs IH]; intros h Hev Hm Hh; simpl; [split; assumption |].
  inversion Hev as [| ? ? He Hrest]; subst.
  apply IH; [exact Hrest | |];
    destruct e; simpl in *; try contradiction; try assumption; try reflexivity;
    destruct (isActive h); try assumption;
    unfold onAccelReading, computeTiltCompensatedHeading; simpl;
    rewrite Hm; simpl; assumption.
Qed.

Lemma mag_only_keeps (h : Hook) (evs : list Event) :
  Forall mag_only evs ->
  latestAccel h = None -> heading (orientation h) = None ->
  heading (orientation (run evs h)) = None /\ latestAccel (run evs h) = None.
Proof.
  unfold run, Heading.run. revert h.
  induction evs as [| e evs IH]; intros h Hev Hm Hh; simpl; [split; assumption |].
  inversion Hev as [| ? ? He Hrest]; subst.
  apply IH; [exact Hrest | |];
    destruct e; simpl in *; try contradiction; try assumption; try reflexivity;
    destruct (isActive h); try assumption;
    unfold onMagReading, computeTiltCompensatedHeading; simpl;
    rewrite Hm; simpl; assumption.
Qed.

(** A session that hears only the accelerometer, or only the magnetometer,
    never publishes a heading. *)
Theorem unpaired_sensor_is_silent (supported : bool) (evs : list Event) :
  Forall accel_only evs \/ Forall mag_only evs ->
  heading (orientation (run evs (initial supported))) = None.
Proof.
  intros [H | H].
  - apply (accel_only_keeps _ _ H); reflexivity.
  - apply (mag_only_keeps _ _ H); reflexivity.
Qed.

(** [stopTracking] keeps the last accelerometer and magnetometer samples:
    after a restart the first accelerometer reading is paired with the
    magnetometer sample of the session before and published at once. *)
Theorem samples_outlive_stop (h : Hook) (m v : Vec3) (scr : Screen) :
  latestMag h = Some m ->
  heading (orientation
    (run [StopTracking; Activate; AccelReading v scr] h))
  = Some (normalizeAngle (normalizeAngle (tiltHeadingDeg v m) + getScreenAngle scr)).
Proof.
  intros Hm. simpl. unfold onAccelReading, computeTiltCompensatedHeading.
  simpl. rewrite Hm. reflexivity.
Qed.

End Session.

Definition a_vec : Vec3 := {| vx := 0; vy := 0; vz := 1 |}.

Lemma unpaired_sensor_is_silent_witness :
  heading (orientation
    (run no_atan2 no_tilt no_euler
       [Activate; AccelReading a_vec no_screen; AccelReading a_vec landscape]
       (initial true))) = None.
Proof.
  apply (unpaired_sensor_is_silent no_atan2 no_tilt no_euler).
  left. repeat constructor.
Defined.

Lemma samples_outlive_stop_witness :
  heading (orientation
    (run no_atan2 no_tilt no_euler
       [StopTracking; Activate; AccelReading a_vec no_screen]
       (run no_atan2 no_tilt no_euler
          [Activate; MagReading a_vec no_screen] (initial true))))
  = Some (normalizeAngle (normalizeAngle (no_tilt a_vec a_vec) + getScreenAngle no_screen)).
Proof.
  apply (samples_outlive_stop no_atan2 no_tilt no_euler _ a_vec a_vec no_screen).
  reflexivity.
Defined.

End HeadingFacts.

(** ** Euler conversion with the device held upright *)

Module EulerFacts.
Import Euler.
Local Open Scope R_scope.

Lemma rot_upright (alpha : R) :
  rotA alpha 90 0 = - sin (to_rad alpha) /\ rotB alpha 90 0 = cos (to_rad alpha).
Proof.
  unfold rotA, rotB.
  replace (to_rad 90) with (PI / 2) by (unfold to_rad; field).
  replace (to_rad 0) with 0 by (unfold to_rad; field).
  rewrite sin_PI2, sin_0, cos_0. split; ring.
Qed.

(** The heading the code computes when the quotient is the tangent of an
    angle [t] of the right half plane and [shift] is what the branches add. *)
Lemma heading_from_tangent (negative_zero : bool) (alpha beta gamma t s : R) :
  rotB alpha beta gamma <> 0 ->
  - (PI / 2) < t < PI / 2 ->
  rotA alpha beta gamma / rotB alpha beta gamma = tan t ->
  shift (rotA alpha beta gamma) (rotB alpha beta gamma) = s ->
  computeCompassHeadingFromEuler negative_zero alpha beta gamma
  = Some (to_deg (t + s)).
Proof.
  intros HB Ht Hq Hs. rewrite (code_heading_eq _ _ _ _ HB), Hq, Hs.
  rewrite (atan_tan t Ht). reflexivity.
Qed.

Lemma to_deg_turn (alpha : R) : to_deg (2 * PI - to_rad alpha) = 360 - alpha.
Proof. unfold to_deg, to_rad. field. pose proof PI_RGT_0. lra. Qed.

(** With the device upright (beta = 90, gamma = 0) the Euler conversion
    gives [360 - alpha], the value of the alpha-only fallback. *)
Theorem upright_heading (negative_zero : bool) (alpha : R) :
  0 < alpha < 360 -> alpha <> 90 -> alpha <> 270 ->
  computeCompassHeadingFromEuler negative_zero alpha 90 0 = Some (360 - alpha).
Proof.
  intros [A0 A1] N90 N270. pose proof PI_RGT_0 as HPI.
  destruct (rot_upright alpha) as [EA EB].
  set (a := to_rad alpha) in *.
  assert (Ha : 0 < a < 2 * PI).
  { subst a. unfold to_rad. split.
    - apply Rmult_lt_0_compat; lra.
    - replace (2 * PI) with (360 * (PI / 180)) by field.
      apply Rmult_lt_compat_r; lra. }
  assert (Na1 : a <> PI / 2).
  { subst a. unfold to_rad. intros H. apply N90.
    apply (Rmult_eq_reg_r (PI / 180)); [| lra]. rewrite H. field. }
  assert (Na2 : a <> 3 * (PI / 2)).
  { subst a. unfold to_rad. intros H. apply N270.
    apply (Rmult_eq_reg_r (PI / 180)); [| lra]. rewrite H. field. }
  rewrite <- to_deg_turn. fold a.
  destruct (Rlt_dec a (PI / 2)) as [R1 | R1].
  - (* first quadrant *)
    assert (Hc : 0 < cos a) by (apply cos_gt_0; lra).
    assert (Hs : 0 < sin a) by (apply sin_gt_0; lra).
    replace (2 * PI - a) with (- a + 2 * PI) by ring.
    apply heading_from_tangent; rewrite ?EA, ?EB; try lra.
    + unfold tan. rewrite sin_neg, cos_neg. field. lra.
    + unfold shift. destruct (Rlt_dec (cos a) 0); [lra |].
      destruct (Rlt_dec (- sin a) 0); [reflexivity | lra].
  - destruct (Rlt_dec a (3 * (PI / 2))) as [R2 | R2].
    + (* second and third quadrants *)
      assert (Hc : cos a < 0) by (apply cos_lt_0; lra).
      replace (2 * PI - a) with (PI - a + PI) by ring.
      apply heading_from_tangent; rewrite ?EA, ?EB; try lra.
      * rewrite Rtrigo_facts.tan_pi_minus by lra. unfold tan. field. lra.
      * unfold shift. destruct (Rlt_dec (cos a) 0); [reflexivity | lra].
    + (* fourth quadrant *)
      assert (Hcos : cos (2 * PI - a) = cos a).
      { rewrite cos_minus, cos_2PI, sin_2PI. ring. }
      assert (Hsin : sin (2 * PI - a) = - sin a).
      { rewrite sin_minus, cos_2PI, sin_2PI. ring. }
      assert (Hc : 0 < cos a) by (rewrite <- Hcos; apply cos_gt_0; lra).
      assert (Hs : sin a < 0) by (apply sin_lt_0; lra).
      replace (2 * PI - a) with (2 * PI - a + 0) at 1 by ring.
      apply heading_from_tangent; rewrite ?EA, ?EB; try lra.
      * unfold tan. rewrite Hcos, Hsin. field. lra.
      * unfold shift. destruct (Rlt_dec (cos a) 0); [lra |].
        destruct (Rlt_dec (- sin a) 0); [lra | reflexivity].
Qed.

Lemma upright_heading_witness :
  computeCompassHeadingFromEuler false 135 90 0 = Some (360 - 135).
Proof.
  apply (upright_heading false 135); lra.
Defined.

End EulerFacts.

(** ** Rate limiter: size of the window and length of a wait *)

Module RateLimiterFacts.
Import RateLimiter.
Local Open Scope Z_scope.

(** The clock reading used for the cutoff in a call of [waitForRateLimit]. *)
Definition cutoff_reading (cfg : Config) (p : Passage) (w : Limiter) : Z :=
  let now := clock w + idle p in
  let since := now - lastRequestTs w in
  (if since <? MIN_INTERVAL_MS cfg
   then now + (MIN_INTERVAL_MS cfg - since + jitter_min p)
   else now) + late_min p.

Lemma waitForRateLimit_recent (cfg : Config) (p : Passage) (w : Limiter) :
  exists ts,
    recentRequests (waitForRateLimit cfg p w)
    = shift_older (cutoff_reading cfg p w - WINDOW_MS cfg) (recentRequests w) ++ [ts].
Proof. eexists. reflexivity. Qed.

Section Bounds.
Variable cfg : Config.
Hypothesis Hmin : 0 < MIN_INTERVAL_MS cfg.
Hypothesis Hmax : 1 <= MAX_REQS_PER_WINDOW cfg.

(** After the old entries are shifted out, the window array holds at most the
    allowed count. *)
Lemma shifted_window_small (p : Passage) (w : Limiter) :
  passage_ok p -> Inv cfg w ->
  Z.of_nat (length (shift_older (cutoff_reading cfg p w - WINDOW_MS cfg)
                      (recentRequests w)))
  <= MAX_REQS_PER_WINDOW cfg.
Proof using Hmin Hmax.
  intros (Hidle & Hl1 & Hl2 & Hl3 & Hj1 & Hj2) [Hsplit Hclock Hlast HminG HwinG].
  set (t1 := cutoff_reading cfg p w).
  assert (Ht1last : lastRequestTs w + MIN_INTERVAL_MS cfg <= t1).
  { subst t1. unfold cutoff_reading.
    destruct (_ <? MIN_INTERVAL_MS cfg) eqn:E; [lia |].
    apply Z.ltb_ge in E. lia. }
  destruct Hsplit as (old & HG & Hold).
  destruct (shift_older_spec (t1 - WINDOW_MS cfg) (recentRequests w))
    as (dropped & Hrec & Hdrop & Hhead).
  set (recent := shift_older (t1 - WINDOW_MS cfg) (recentRequests w)) in *.
  assert (Hincr : increasing (granted w)).
  { apply (min_spaced_increasing (MIN_INTERVAL_MS cfg)); [lia | exact HminG]. }
  assert (HG' : granted w = (old ++ dropped) ++ recent).
  { rewrite HG, Hrec at 1. rewrite app_assoc. reflexivity. }
  destruct (Z_le_gt_dec (Z.of_nat (length recent)) (MAX_REQS_PER_WINDOW cfg))
    as [? | Hgt]; [assumption | exfalso].
  destruct recent as [| r0 rest] eqn:Erec; [simpl in Hgt; lia |].
  specialize (Hhead r0 rest eq_refl).
  set (m := Z.to_nat (MAX_REQS_PER_WINDOW cfg)) in *.
  set (i := length (old ++ dropped)).
  assert (Hr0 : granted w !! i = Some r0).
  { rewrite HG'. rewrite lookup_app_r by (subst i; lia).
    replace (i - length (old ++ dropped))%nat with 0%nat by (subst i; lia).
    reflexivity. }
  assert (Hlt : (i + m < length (granted w))%nat).
  { rewrite HG', length_app. fold i. simpl in *. subst m. lia. }
  destruct (lookup_lt_is_Some_2 _ _ Hlt) as [b Hb].
  pose proof (HwinG i r0 b Hr0 Hb) as Hwin.
  destruct (lookup_lt_is_Some_2 (granted w) (pred (length (granted w)))
              ltac:(lia)) as [g Hg].
  assert (Hbg : b <= g).
  { apply (Hincr (i + m)%nat (pred (length (granted w))) b g); [lia | |]; assumption. }
  assert (lastRequestTs w = g).
  { apply Hlast. rewrite last_lookup. exact Hg. }
  lia.
Qed.

Lemma window_after_call (p : Passage) (w : Limiter) :
  passage_ok p -> Inv cfg w ->
  Z.of_nat (length (recentRequests (waitForRateLimit cfg p w)))
  <= MAX_REQS_PER_WINDOW cfg + 1.
Proof using Hmin Hmax.
  intros Hp Hw. destruct (waitForRateLimit_recent cfg p w) as [ts ->].
  pose proof (shifted_window_small p w Hp Hw).
  rewrite length_app. simpl. lia.
Qed.

Lemma window_bounded (c0 : Z) (ps : list Passage) :
  Forall passage_ok ps ->
  Z.of_nat (length (recentRequests (acquire_all cfg ps (start c0))))
  <= MAX_REQS_PER_WINDOW cfg + 1.
Proof using Hmin Hmax.
  intros Hps.
  induction ps as [| p ps' _] using rev_ind; [simpl; lia |].
  unfold acquire_all. rewrite fold_left_app. simpl.
  apply Forall_app in Hps as [Hps' Hp]. inversion Hp; subst.
  apply window_after_call; [assumption |].
  apply acquire_all_inv; [assumption | assumption | assumption | apply start_inv].
Qed.

(** The last grant never lies ahead of the clock. *)
Definition last_behind (w : Limiter) : Prop := lastRequestTs w <= clock w.

Lemma acquire_all_last_behind (ps : list Passage) (w : Limiter) :
  last_behind w -> last_behind (acquire_all cfg ps w).
Proof using Type.
  intros Hw. induction ps as [| p ps' _] using rev_ind; [exact Hw |].
  unfold acquire_all. rewrite fold_left_app. simpl.
  unfold last_behind, enqueueRateLimitedSlot, waitForRateLimit. simpl. lia.
Qed.

(** Once a call has started, its slot comes within the minimum interval plus
    one window, the two jitters and the lateness of the clock readings. *)
Lemma wait_bounded (p : Passage) (w : Limiter) :
  0 <= WINDOW_MS cfg -> passage_ok p -> Inv cfg w -> last_behind w ->
  clock (enqueueRateLimitedSlot cfg p w) - (clock w + idle p)
  <= MIN_INTERVAL_MS cfg + jitter_min p + late_min p
     + late_read p + WINDOW_MS cfg + jitter_win p + late_win p.
Proof using Hmin Hmax.
  intros HW (Hidle & Hl1 & Hl2 & Hl3 & Hj1 & Hj2) HI Hlb.
  pose proof (inv_clock _ _ HI) as Hclock.
  destruct (inv_split _ _ HI) as (old & HG & _).
  unfold enqueueRateLimitedSlot, waitForRateLimit. simpl.
  fold (cutoff_reading cfg p w).
  assert (Ht1 : clock w + idle p <= cutoff_reading cfg p w
                <= clock w + idle p + MIN_INTERVAL_MS cfg + jitter_min p + late_min p).
  { unfold cutoff_reading, last_behind in *.
    destruct (_ <? MIN_INTERVAL_MS cfg) eqn:E;
      [apply Z.ltb_lt in E | apply Z.ltb_ge in E]; lia. }
  set (t1 := cutoff_reading cfg p w) in *.
  destruct (shift_older_spec (t1 - WINDOW_MS cfg) (recentRequests w))
    as (dropped & Hrec & _ & _).
  set (recent := shift_older (t1 - WINDOW_MS cfg) (recentRequests w)) in *.
  destruct (MAX_REQS_PER_WINDOW cfg <=? Z.of_nat (length recent)); [| lia].
  destruct recent as [| oldest rest] eqn:Erec; [lia |].
  assert (Hold : oldest <= clock w).
  { apply Hclock. rewrite HG, Hrec.
    apply elem_of_app. right. apply elem_of_app. right. apply list_elem_of_here. }
  destruct (0 <? _) eqn:E; [apply Z.ltb_lt in E | apply Z.ltb_ge in E]; lia.
Qed.

End Bounds.

(** With the default configuration the window array never holds more than
    four timestamps, however many slots have been handed out. *)
Theorem recentRequests_bounded (c0 : Z) (ps : list Passage) :
  Forall passage_ok ps ->
  (length (recentRequests (acquire_all default_config ps (start c0))) <= 4)%nat.
Proof.
  intros Hps.
  pose proof (window_bounded default_config ltac:(simpl; lia) ltac:(simpl; lia)
                c0 ps Hps) as H.
  simpl in H. lia.
Qed.

Lemma recentRequests_bounded_witness :
  (length (recentRequests
     (acquire_all default_config
        [steady; steady; steady; steady; steady; steady] (start 1000000))) <= 4)%nat.
Proof.
  apply (recentRequests_bounded 1000000).
  repeat constructor; simpl; lia.
Defined.

(** With the default configuration a caller whose turn has come is granted
    its slot within 12298 ms, plus the lateness of the timers. *)
Theorem slot_wait_bounded (c0 : Z) (ps : list Passage) (p : Passage) :
  0 <= c0 -> Forall passage_ok ps -> passage_ok p ->
  let w := acquire_all default_config ps (start c0) in
  clock (enqueueRateLimitedSlot default_config p w) - (clock w + idle p)
  <= 12298 + late_min p + late_read p + late_win p.
Proof.
  intros Hc Hps Hp w.
  assert (HI : Inv default_config w).
  { apply acquire_all_inv; [simpl; lia | simpl; lia | exact Hps | apply start_inv]. }
  assert (Hlb : last_behind w).
  { apply acquire_all_last_behind. unfold last_behind. simpl. exact Hc. }
  pose proof (wait_bounded default_config ltac:(simpl; lia) ltac:(simpl; lia)
                p w ltac:(simpl; lia) Hp HI Hlb) as H.
  destruct Hp as (_ & _ & _ & _ & Hj1 & Hj2).
  revert H. generalize (clock (enqueueRateLimitedSlot default_config p w)).
  intros c H. simpl in H. lia.
Qed.

Lemma slot_wait_bounded_witness :
  let w := acquire_all default_config [steady; steady; steady] (start 1000000) in
  clock (enqueueRateLimitedSlot default_config steady w) - (clock w + idle steady)
  <= 12298 + late_min steady + late_read steady + late_win steady.
Proof.
  apply (slot_wait_bounded 1000000 [steady; steady; steady] steady).
  - lia.
  - repeat constructor; simpl; lia.
  - repeat constructor; simpl; lia.
Defined.

End RateLimiterFacts.

(** ** Failover: what one call of [fetchWithFallback] does on the network *)

Module FailoverFacts.
Import Overpass.
Local Open Scope Z_scope.

(** Total time asked of [sleep]. *)
Fixpoint slept (acts : list Action) : Z :=
  match acts with
  | [] => 0
  | Sleep ms :: rest => ms + slept rest
  | _ :: rest => slept rest
  end.

(** A log made of rounds: a slot, then one post, then at most one sleep. *)
Inductive rounds : list Action -> Prop :=
| rounds_nil : rounds []
| rounds_post endpoint rest :
    rounds rest -> rounds (Slot :: Post endpoint :: rest)
| rounds_sleep endpoint ms rest :
    rounds rest -> rounds (Slot :: Post endpoint :: Sleep ms :: rest).

(** The instance [k] places after [cursor] in the rotation. *)
Definition instance_after (cursor k : nat) : string :=
  nth ((cursor + k) mod 3) OVERPASS_INSTANCES ""%string.

(** How often other calls have advanced the cursor during the [k] attempts
    from [attempt] on. *)
Fixpoint drift (env : nat -> Attempt) (attempt k : nat) : nat :=
  match k with
  | O => 0
  | S k' => others (env attempt) + drift env (S attempt) k'
  end.

(** What the sleeps of the attempts from [attempt] on may add up to. *)
Fixpoint budget (base : Z) (fuel attempt : nat) : Z :=
  match fuel with
  | O => 0
  | S fuel' =>
      base * 2 ^ Z.min 4 (Z.of_nat attempt) + 249 + budget base fuel' (S attempt)
  end.

Lemma slept_app (l1 l2 : list Action) : slept (l1 ++ l2) = slept l1 + slept l2.
Proof.
  induction l1 as [| a l1 IH]; simpl; [reflexivity |].
  destruct a; simpl; rewrite IH; lia.
Qed.

Lemma rounds_app (l1 l2 : list Action) : rounds l1 -> rounds l2 -> rounds (l1 ++ l2).
Proof.
  intros H1 H2. induction H1; simpl; [exact H2 | |]; constructor; assumption.
Qed.

Lemma budget_nonneg (base : Z) (fuel attempt : nat) :
  0 <= base -> 0 <= budget base fuel attempt.
Proof.
  intros Hb. revert attempt.
  induction fuel as [| f IHf]; intros a; simpl; [lia |].
  specialize (IHf (S a)).
  assert (0 <= 2 ^ Z.min 4 (Z.of_nat a)) by (apply Z.pow_nonneg; lia).
  nia.
Qed.

Lemma drift_alone (env : nat -> Attempt) (attempt k : nat) :
  alone env -> drift env attempt k = 0%nat.
Proof.
  intros Ha. revert attempt. induction k as [| k IH]; intros attempt; simpl.
  - reflexivity.
  - rewrite IH. unfold others. destruct (Ha attempt) as [-> ->].
    destruct (sleeps (env attempt)); reflexivity.
Qed.

(** One turn of the loop: a slot, a post to the current instance, and at
    most one sleep within the budget of the attempt. *)
Lemma turn_log (base : Z) (attempt : nat) (a : Attempt) (cursor : nat) :
  0 <= base -> attempt_ok a ->
  let acts := (turn base attempt a cursor).2 in
  rounds acts /\
  0 <= slept acts <= base * 2 ^ Z.min 4 (Z.of_nat attempt) + 249.
Proof.
  intros Hb [H250 H200].
  assert (Hpow : 1 <= 2 ^ Z.min 4 (Z.of_nat attempt)).
  { assert (0 < 2 ^ Z.min 4 (Z.of_nat attempt)); [| lia].
    apply Z.pow_pos_nonneg; lia. }
  assert (Hmul : base <= base * 2 ^ Z.min 4 (Z.of_nat attempt)) by nia.
  unfold turn.
  destruct (reply a) as [status [err | data] | err];
    try destruct (response_ok status); try destruct (status =? 429);
    simpl; (split; [repeat constructor |]);
    unfold backoff; lia.
Qed.

Lemma attempts_log (base : Z) (env : nat -> Attempt) (fuel : nat) :
  0 <= base -> (forall k, attempt_ok (env k)) ->
  forall attempt cursor lastError r c acts,
    attempts base env fuel attempt cursor lastError = (r, c, acts) ->
    rounds acts /\ 0 <= slept acts <= budget base fuel attempt.
Proof.
  intros Hb Henv.
  induction fuel as [| fuel IH]; intros attempt cursor lastError r c acts; simpl.
  - intros [= <- <- <-]. simpl. split; [constructor | lia].
  - pose proof (turn_log base attempt (env attempt) cursor Hb (Henv attempt))
      as (Hr & Hs).
    pose proof (budget_nonneg base fuel (S attempt) Hb) as Hbud.
    destruct (turn base attempt (env attempt) cursor)
      as [[data cursor' | error cursor'] acts0] eqn:T; simpl in Hr, Hs.
    + intros [= <- <- <-]. split; [assumption | lia].
    + destruct (attempts base env fuel (S attempt) cursor' (Some error))
        as [[r' c'] rest] eqn:A.
      intros [= <- <- <-].
      destruct (IH _ _ _ _ _ _ A) as (Hr' & Hs').
      rewrite slept_app.
      split; [apply rounds_app; assumption | lia].
Qed.

(** Where the posts of the loop go: attempt number [k] of the loop posts to
    the instance under the cursor after [k] increments of its own and the
    increments of the other calls so far; and where the cursor is left. *)
Lemma attempts_posted (base : Z) (env : nat -> Attempt) (fuel : nat) :
  forall attempt cursor lastError r c acts,
    attempts base env fuel attempt cursor lastError = (r, c, acts) ->
    posted acts
    = map (fun k => nth (advance (k + drift env attempt k) cursor)
                      OVERPASS_INSTANCES ""%string)
        (seq 0 (posts acts)) /\
    (forall data, r = inr data ->
       (1 <= posts acts)%nat /\
       c = advance (posts acts - 1 + drift env attempt (posts acts - 1)
                    + others_while_waiting (env (attempt + (posts acts - 1))%nat))
             cursor) /\
    (forall e, r = inl e -> c = advance (fuel + drift env attempt fuel) cursor).
Proof.
  induction fuel as [| fuel IH]; intros attempt cursor lastError r c acts; simpl.
  - intros [= <- <- <-]. simpl. split; [reflexivity |].
    split; [discriminate | intros e _; reflexivity].
  - destruct (turn base attempt (env attempt) cursor)
      as [[data cursor' | error cursor'] acts0] eqn:T.
    + intros [= <- <- <-].
      destruct (turn_return _ _ _ _ _ _ _ T) as (-> & -> & ->).
      simpl. rewrite Nat.add_0_r. split; [reflexivity |].
      split; [| discriminate]. intros data' _. split; [lia | reflexivity].
    + destruct (attempts base env fuel (S attempt) cursor' (Some error))
        as [[r' c'] rest] eqn:A.
      intros [= <- <- <-].
      destruct (turn_continue _ _ _ _ _ _ _ T) as (-> & _ & Hposts & Hposted).
      destruct (IH _ _ _ _ _ _ A) as (Hp' & Hok' & Hko').
      rewrite posts_app, Hposts, posted_app, Hposted, Hp'.
      split; [| split].
      * change (1 + posts rest)%nat with (S (posts rest)).
        cbn [seq map app]. f_equal. rewrite <- seq_shift, map_map.
        apply map_ext. intros k. rewrite advance_add. cbn [drift].
        replace (S (others (env attempt)) + (k + drift env (S attempt) k))%nat
          with (S k + (others (env attempt) + drift env (S attempt) k))%nat by lia.
        reflexivity.
      * intros data Hd. destruct (Hok' data Hd) as [Hge ->].
        split; [lia |].
        rewrite advance_add.
        apply (f_equal (fun n => advance n cursor)).
        replace (1 + posts rest - 1)%nat with (S (posts rest - 1)) by lia.
        replace (attempt + S (posts rest - 1))%nat
          with (S attempt + (posts rest - 1))%nat by lia.
        cbn [drift]. lia.
      * intros e He. rewrite (Hko' e He), advance_add.
        change (advance (S (others (env attempt))
                         + (fuel + drift env (S attempt) fuel)) cursor
                = advance (S fuel + drift env attempt (S fuel)) cursor).
        apply (f_equal (fun n => advance n cursor)).
        cbn [drift]. lia.
Qed.

(** Every post of [fetchWithFallback] comes right after a rate-limit slot,
    and a sleep only comes right after a post. *)
Theorem slot_before_every_post (base : Z) (env : nat -> Attempt) (cursor : nat) :
  0 <= base -> (forall k, attempt_ok (env k)) ->
  rounds (fetchWithFallback base env cursor).2.
Proof.
  intros Hb Henv. unfold fetchWithFallback.
  destruct (attempts base env maxTries 0 cursor None) as [[r c] acts] eqn:A.
  destruct (attempts_log base env maxTries Hb Henv _ _ _ _ _ _ A) as (H & _).
  exact H.
Qed.

(** Attempt number [k] of a call posts to the instance [k] places after the
    starting cursor plus one place for every increment other calls have made
    during the waits of the attempts before it.  For a call that runs alone
    the posts go round the instances in order, starting at the cursor; when
    data comes back the cursor stays on the instance that answered, and when
    the call gives up the cursor is back where it was. *)
Theorem posts_rotate (base : Z) (env : nat -> Attempt) (cursor : nat) r c acts :
  (cursor < 3)%nat ->
  fetchWithFallback base env cursor = (r, c, acts) ->
  posted acts
  = map (fun k => instance_after cursor (k + drift env 0 k)) (seq 0 (posts acts)) /\
  (alone env ->
   posted acts = map (instance_after cursor) (seq 0 (posts acts)) /\
   (forall data, r = inr data ->
      (1 <= posts acts)%nat /\
      c = ((cursor + (posts acts - 1)) mod 3)%nat /\
      last (posted acts) = Some (nth c OVERPASS_INSTANCES ""%string)) /\
   (forall e, r = inl e -> c = cursor /\
      posted acts = map (instance_after cursor) [0; 1; 2; 3; 4; 5]%nat)).
Proof.
  intros Hc A. unfold fetchWithFallback in A.
  destruct (attempts_posted base env maxTries _ _ _ _ _ _ A) as (Hp & Hok & Hko).
  assert (Hgen : posted acts
                 = map (fun k => instance_after cursor (k + drift env 0 k))
                     (seq 0 (posts acts))).
  { rewrite Hp. apply map_ext. intros k. unfold instance_after.
    rewrite (advance_mod _ cursor Hc). reflexivity. }
  split; [exact Hgen |].
  intros Ha.
  assert (Hrot : posted acts = map (instance_after cursor) (seq 0 (posts acts))).
  { rewrite Hgen. apply map_ext. intros k.
    rewrite (drift_alone env 0 k Ha), Nat.add_0_r. reflexivity. }
  split; [exact Hrot |]. split.
  - intros data Hd. destruct (Hok data Hd) as [Hge Hcur].
    rewrite (drift_alone env _ _ Ha), (proj1 (Ha _)), !Nat.add_0_r in Hcur.
    rewrite (advance_mod _ cursor Hc) in Hcur.
    split; [exact Hge |]. split; [exact Hcur |].
    rewrite Hrot, Hcur.
    replace (posts acts) with (S (posts acts - 1)) at 1 by lia.
    rewrite seq_S, map_app. cbn [map]. rewrite last_snoc. reflexivity.
  - intros e He.
    destruct (attempts_spec _ _ _ _ _ _ _ _ _ A) as [_ Hgive].
    destruct (Hgive e He) as (Hn & _).
    pose proof (Hko e He) as Hcur.
    rewrite (drift_alone env _ _ Ha), Nat.add_0_r in Hcur.
    change maxTries with 6%nat in *.
    rewrite (advance_mod _ cursor Hc) in Hcur. split.
    + rewrite Hcur. replace (cursor + 6)%nat with (cursor + 2 * 3)%nat by lia.
      rewrite Nat.Div0.mod_add. apply Nat.mod_small. exact Hc.
    + rewrite Hrot, Hn. reflexivity.
Qed.

(** One call sleeps at most 47 times the backoff base plus six jitters:
    39094 ms with the default base of 800 ms. *)
Theorem total_sleep_bounded (base : Z) (env : nat -> Attempt) (cursor : nat) :
  0 <= base -> (forall k, attempt_ok (env k)) ->
  0 <= slept (fetchWithFallback base env cursor).2 <= 47 * base + 1494.
Proof.
  intros Hb Henv. unfold fetchWithFallback.
  destruct (attempts base env maxTries 0 cursor None) as [[r c] acts] eqn:A.
  destruct (attempts_log base env maxTries Hb Henv _ _ _ _ _ _ A)
    as (_ & Hs).
  simpl. change (budget base maxTries 0)
    with (base * 2 ^ 0 + 249 + (base * 2 ^ 1 + 249 + (base * 2 ^ 2 + 249
          + (base * 2 ^ 3 + 249 + (base * 2 ^ 4 + 249
          + (base * 2 ^ 4 + 249 + 0)))))) in Hs.
  lia.
Qed.

(** A call whose second attempt waits while another call fails once: it
    starts on the first instance and posts to the first, the second and the
    first again. *)
Definition overtaken_twice_failing (data : OverpassResponse) (attempt : nat) : Attempt :=
  match attempt with
  | 0%nat => {| reply := Responded 500 (inl AllFailed); jitter250 := 0; jitter200 := 0;
            others_while_waiting := 0; others_while_sleeping := 0 |}
  | 1%nat => {| reply := Responded 500 (inl AllFailed); jitter250 := 0; jitter200 := 0;
            others_while_waiting := 1; others_while_sleeping := 0 |}
  | _ => {| reply := Responded 200 (inr data); jitter250 := 0; jitter200 := 0;
            others_while_waiting := 0; others_while_sleeping := 0 |}
  end.

Example overlapped_posts (data : OverpassResponse) :
  posted (fetchWithFallback 800 (overtaken_twice_failing data) 0).2
  = ["https://overpass-api.de/api/interpreter";
     "https://overpass.private.coffee/api/interpreter";
     "https://overpass-api.de/api/interpreter"]%string.
Proof. reflexivity. Qed.

Lemma always_busy_alone : alone always_busy.
Proof. intros k. split; reflexivity. Qed.

Lemma slot_before_every_post_witness :
  rounds (fetchWithFallback 800 always_busy 0).2.
Proof.
  apply (slot_before_every_post 800 always_busy 0); [lia | apply always_busy_ok].
Defined.

Lemma posts_rotate_witness :
  posted (fetchWithFallback 800 always_busy 1).2
  = map (instance_after 1) (seq 0 (posts (fetchWithFallback 800 always_busy 1).2)).
Proof.
  refine (proj1 (proj2 (posts_rotate 800 always_busy 1 _ _ _ _ eq_refl)
                   always_busy_alone)).
  lia.
Defined.

Lemma total_sleep_bounded_witness :
  0 <= slept (fetchWithFallback 800 always_busy 0).2 <= 47 * 800 + 1494.
Proof.
  apply (total_sleep_bounded 800 always_busy 0); [lia | apply always_busy_ok].
Defined.

End FailoverFacts.

(** ** Response mapping: what every establishment of a result satisfies *)

Module MappingFacts.
Import Overpass.
Local Open Scope Z_scope.

(** The pair that names an element in OpenStreetMap. *)
Definition osm_ref (element : OverpassElement) : ElementType * Z :=
  (el_type element, el_id element).

Lemma toEstablishment_id (element : OverpassElement) (e : Establishment) :
  toEstablishment element = Some e ->
  id e = element_type_name (el_type element) +:+ "-" +:+ pretty (el_id element).
Proof.
  unfold toEstablishment. intros H.
  destruct (el_tags element) as [tags |]; [| discriminate].
  destruct (mapOsmTagsToType tags) as [type |]; [| discriminate].
  destruct (coordinates element) as [[la lo] |]; [| discriminate].
  injection H as <-. reflexivity.
Qed.

Lemma toEstablishment_open (element : OverpassElement) (e : Establishment) :
  toEstablishment element = Some e -> isOpen e = true.
Proof.
  unfold toEstablishment. intros H.
  destruct (el_tags element) as [tags |]; [| discriminate].
  destruct (mapOsmTagsToType tags) as [type |]; [| discriminate].
  destruct (coordinates element) as [[la lo] |]; [| discriminate].
  injection H as <-. simpl. unfold isEstablishmentOpen.
  destruct (negb _); [reflexivity |]. destruct (tag_is _ _ _); reflexivity.
Qed.

Lemma toEstablishment_type (element : OverpassElement) (e : Establishment) :
  toEstablishment element = Some e -> mapOsmTagsToType (tags e) = Some (type e).
Proof.
  unfold toEstablishment. intros H.
  destruct (el_tags element) as [tgs |]; [| discriminate].
  destruct (mapOsmTagsToType tgs) as [ty |] eqn:Hty; [| discriminate].
  destruct (coordinates element) as [[la lo] |]; [| discriminate].
  injection H as <-. exact Hty.
Qed.

Lemma toEstablishment_name (element : OverpassElement) (e : Establishment) :
  toEstablishment element = Some e -> name e <> ""%string.
Proof.
  unfold toEstablishment. intros H.
  destruct (el_tags element) as [tgs |]; [| discriminate].
  destruct (mapOsmTagsToType tgs) as [ty |]; [| discriminate].
  destruct (coordinates element) as [[la lo] |]; [| discriminate].
  injection H as <-. simpl.
  destruct (tgs !! "name"%string) as [s |]; simpl.
  - destruct (String.eqb_spec s ""); simpl; [| assumption].
    destruct ty; discriminate.
  - destruct ty; discriminate.
Qed.

Lemma id_text_inj (t1 t2 : ElementType) (z1 z2 : Z) :
  element_type_name t1 +:+ "-" +:+ pretty z1
  = element_type_name t2 +:+ "-" +:+ pretty z2 ->
  t1 = t2 /\ z1 = z2.
Proof.
  destruct t1, t2; simpl; intros H; try discriminate;
    (split; [reflexivity |]); simplify_eq; reflexivity.
Qed.

Lemma ids_identify_elements (e1 e2 : OverpassElement) (v1 v2 : Establishment) :
  toEstablishment e1 = Some v1 -> toEstablishment e2 = Some v2 ->
  id v1 = id v2 -> osm_ref e1 = osm_ref e2.
Proof.
  intros H1 H2 Hid.
  rewrite (toEstablishment_id _ _ H1), (toEstablishment_id _ _ H2) in Hid.
  destruct (id_text_inj _ _ _ _ Hid) as [Ht Hz].
  unfold osm_ref. rewrite Ht, Hz. reflexivity.
Qed.

(** Every establishment of a result comes from an element of the response
    that carries its tags; its category is the one the tags map to, its name
    is not empty, and it is reported open. *)
Theorem establishments_well_formed (data : OverpassResponse) (e : Establishment) :
  e ∈ toEstablishments data ->
  exists element,
    element ∈ elements data /\
    toEstablishment element = Some e /\
    el_tags element = Some (tags e) /\
    mapOsmTagsToType (tags e) = Some (type e) /\
    coordinates element = Some (lat e, lng e) /\
    name e <> ""%string /\
    isOpen e = true.
Proof.
  unfold toEstablishments. intros Hin.
  apply list_elem_of_omap in Hin as (element & Hel & He).
  exists element. split; [exact Hel |]. split; [exact He |].
  unfold toEstablishment in He.
  destruct (el_tags element) as [tgs |]; [| discriminate].
  destruct (mapOsmTagsToType tgs) as [ty |] eqn:Hty; [| discriminate].
  destruct (coordinates element) as [[la lo] |]; [| discriminate].
  injection He as <-. simpl.
  repeat split; try assumption.
  - destruct (tgs !! "name"%string) as [s |]; simpl.
    + destruct (String.eqb_spec s ""); simpl; [| assumption].
      destruct ty; discriminate.
    + destruct ty; discriminate.
  - unfold isEstablishmentOpen.
    destruct (negb _); [reflexivity |]. destruct (tag_is _ _ _); reflexivity.
Qed.

(** When the response names no element twice, the establishments of the
    result have pairwise different ids. *)
Theorem distinct_elements_distinct_ids (data : OverpassResponse) :
  NoDup (map osm_ref (elements data)) ->
  NoDup (map id (toEstablishments data)).
Proof.
  unfold toEstablishments.
  induction (elements data) as [| x l IH]; simpl; intros Hnd; [constructor |].
  apply NoDup_cons in Hnd as [Hx Hl].
  destruct (toEstablishment x) as [v |] eqn:Hv; simpl; [| exact (IH Hl)].
  apply NoDup_cons. split; [| exact (IH Hl)].
  intros Hin. apply list_elem_of_fmap in Hin as (v' & Hid & Hin).
  apply list_elem_of_omap in Hin as (x' & Hx' & Hv').
  apply Hx. apply list_elem_of_fmap. exists x'. split; [| exact Hx'].
  exact (ids_identify_elements _ _ _ _ Hv Hv' Hid).
Qed.

Definition paris_bar : Establishment :=
  {| id := "node-1"; name := "bar sans nom"; type := bar;
     lat := 488570 # 10000; lng := 23520 # 10000; isOpen := true;
     city := None; tags := tagged "amenity" "bar" |}.

Lemma paris_bar_found : paris_bar ∈ toEstablishments paris_reply.
Proof.
  apply list_elem_of_omap.
  exists (a_node 1 (488570 # 10000) (23520 # 10000) (tagged "amenity" "bar")).
  split; [left | vm_compute; reflexivity].
Qed.

Lemma establishments_well_formed_witness :
  paris_bar ∈ toEstablishments paris_reply /\
  exists element,
    element ∈ elements paris_reply /\ toEstablishment element = Some paris_bar.
Proof.
  split; [exact paris_bar_found |].
  destruct (establishments_well_formed paris_reply paris_bar paris_bar_found)
    as (element & Hin & Hto & _).
  exists element. split; assumption.
Defined.

Lemma distinct_elements_distinct_ids_witness :
  NoDup (map id (toEstablishments paris_reply)).
Proof.
  apply (distinct_elements_distinct_ids paris_reply).
  unfold osm_ref. simpl.
  repeat (apply NoDup_cons; split); try apply NoDup_nil_2;
    rewrite ?elem_of_cons, ?elem_of_nil; intros H; intuition discriminate.
Defined.

End MappingFacts.

(** ** The page: default selection and the list of establishments *)

Module App.
Import JsNum Overpass.
Local Open Scope Q_scope.

(** [userLocation] *)
Record Location := { loc_lat : Q; loc_lng : Q }.

Section Selection.

(** The haversine distance, computed with floating-point trigonometry. *)
Variable calculateDistance : Q -> Q -> Q -> Q -> Q.

Definition distanceTo (userLocation : Location) (est : Establishment) : Q :=
  calculateDistance (loc_lat userLocation) (loc_lng userLocation) (lat est) (lng est).

(** The callback of [establishments.filter]. *)
Definition passes (openOnly : bool) (est : Establishment) : bool :=
  if openOnly && negb (isOpen est) then false else true.

(** The callback of [filteredEstablishments.find]. *)
Definition same_id (selected est : Establishment) : bool :=
  String.eqb (id est) (id selected).

(** One turn of the [for ... of] loop on [(nearest, minDistance)]. *)
Definition closer (userLocation : Location) (acc : Establishment * Q)
    (est : Establishment) : Establishment * Q :=
  let dist := distanceTo userLocation est in
  if Qltb dist acc.2 then (est, dist) else acc.

Definition nearest (userLocation : Location) (first : Establishment)
    (filteredEstablishments : list Establishment) : Establishment :=
  (fold_left (closer userLocation) filteredEstablishments
     (first, distanceTo userLocation first)).1.

(** The selection effect: the value of [selectedEstablishment] it leaves. *)
Definition selectionEffect (userLocation : option Location)
    (establishments : list Establishment) (openOnly : bool)
    (selectedEstablishment : option Establishment) : option Establishment :=
  match userLocation, establishments with
  | None, _ | _, [] => None
  | Some location, _ :: _ =>
      let filteredEstablishments := List.filter (passes openOnly) establishments in
      match filteredEstablishments with
      | [] => None
      | first :: _ =>
          let updated :=
            match selectedEstablishment with
            | Some selected => List.find (same_id selected) filteredEstablishments
            | None => None
            end in
          match updated with
          | Some updated => Some updated
          | None => Some (nearest location first filteredEstablishments)
          end
      end
  end.

End Selection.

End App.

Module EstablishmentList.
Import JsNum Overpass.
Local Open Scope Q_scope.

Section List.

Variable calculateDistance : Q -> Q -> Q -> Q -> Q.

(** [{ ...est, distance }] *)
Definition withDistance (userLocation : App.Location) (est : Establishment)
  : Establishment * Q :=
  (est, App.distanceTo calculateDistance userLocation est).

(** [sort((a, b) => a.distance - b.distance)]: the sort is stable, so a row
    goes before the rows after it that are not strictly nearer. *)
Fixpoint insert_row (a : Establishment * Q) (l : list (Establishment * Q))
  : list (Establishment * Q) :=
  match l with
  | [] => [a]
  | b :: rest => if Qltb b.2 a.2 then b :: insert_row a rest else a :: l
  end.

Definition sort_rows (l : list (Establishment * Q)) : list (Establishment * Q) :=
  foldr insert_row [] l.

(** [establishmentsWithDistance] *)
Definition establishmentsWithDistance (userLocation : App.Location)
    (establishments : list Establishment) : list (Establishment * Q) :=
  take 10 (sort_rows (map (withDistance userLocation) establishments)).

End List.

End EstablishmentList.

(** ** Selection and list: what the user is shown *)

Module PageFacts.
Import JsNum Overpass App EstablishmentList.
Local Open Scope Q_scope.

(** The first of the nearest rows. *)
Definition first_min (l : list (Establishment * Q)) : option (Establishment * Q) :=
  foldr (fun a acc =>
           match acc with
           | None => Some a
           | Some m => if Qltb m.2 a.2 then Some m else Some a
           end) None l.

Definition by_distance (a b : Establishment * Q) : Prop := a.2 <= b.2.

Lemma Qltb_false (a b : Q) : Qltb a b = false <-> b <= a.
Proof.
  split.
  - apply Qltb_ge.
  - intros H. destruct (Qltb a b) eqn:E; [| reflexivity].
    apply Qltb_lt in E. lra.
Qed.

Section Facts.

Variable calculateDistance : Q -> Q -> Q -> Q -> Q.

Abbreviation distanceTo := (App.distanceTo calculateDistance).
Abbreviation selectionEffect := (App.selectionEffect calculateDistance).
Abbreviation withDistance := (EstablishmentList.withDistance calculateDistance).
Abbreviation establishmentsWithDistance :=
  (EstablishmentList.establishmentsWithDistance calculateDistance).

Lemma insert_row_perm a l : Permutation (insert_row a l) (a :: l).
Proof.
  induction l as [| b rest IH]; simpl; [reflexivity |].
  destruct (Qltb b.2 a.2); [| reflexivity].
  rewrite IH. apply perm_swap.
Qed.

Lemma sort_rows_perm l : Permutation (sort_rows l) l.
Proof.
  induction l as [| a l IH]; simpl; [reflexivity |].
  rewrite insert_row_perm, IH. reflexivity.
Qed.

Lemma insert_row_sorted a l :
  Sorted by_distance l -> Sorted by_distance (insert_row a l).
Proof.
  induction l as [| b rest IH]; simpl; intros Hs.
  - repeat constructor.
  - destruct (Qltb b.2 a.2) eqn:E.
    + apply Sorted_inv in Hs as [Hrest Hhd].
      constructor; [exact (IH Hrest) |].
      apply Qltb_lt in E.
      destruct rest as [| c rest']; simpl.
      * constructor. unfold by_distance. lra.
      * destruct (Qltb c.2 a.2); constructor.
        -- inversion Hhd; assumption.
        -- unfold by_distance. lra.
    + apply Qltb_false in E. constructor; [exact Hs |]. constructor. exact E.
Qed.

Lemma sort_rows_sorted l : Sorted by_distance (sort_rows l).
Proof.
  induction l as [| a l IH]; simpl; [constructor |].
  apply insert_row_sorted. exact IH.
Qed.

#[local] Instance by_distance_trans : Transitive by_distance.
Proof. intros a b c. unfold by_distance. lra. Qed.

Lemma head_insert_row a l :
  head (insert_row a l)
  = match head l with
    | None => Some a
    | Some m => if Qltb m.2 a.2 then Some m else Some a
    end.
Proof. destruct l as [| b rest]; simpl; [reflexivity |]. destruct (Qltb b.2 a.2); reflexivity. Qed.

Lemma head_sort_rows l : head (sort_rows l) = first_min l.
Proof.
  induction l as [| a l IH]; simpl; [reflexivity |].
  rewrite head_insert_row, IH. reflexivity.
Qed.

(** The loop, on rows that carry their distance. *)
Definition closer_row (acc a : Establishment * Q) : Establishment * Q :=
  if Qltb a.2 acc.2 then a else acc.

Lemma loop_rows (location : Location) l acc :
  fold_left (closer calculateDistance location) l acc
  = fold_left closer_row (map (withDistance location) l) acc.
Proof.
  revert acc. induction l as [| est l IH]; intros acc; simpl; [reflexivity |].
  rewrite IH. reflexivity.
Qed.

Lemma loop_first_min rows acc :
  fold_left closer_row rows acc
  = match first_min rows with
    | None => acc
    | Some m => if Qltb m.2 acc.2 then m else acc
    end.
Proof.
  revert acc. induction rows as [| a rows IH]; intros acc; simpl; [reflexivity |].
  rewrite IH. unfold closer_row.
  destruct (first_min rows) as [m |].
  - destruct (Qltb a.2 acc.2) eqn:E1, (Qltb m.2 a.2) eqn:E2;
      try rewrite E1; try reflexivity.
    + destruct (Qltb m.2 acc.2) eqn:E3; [reflexivity |].
      apply Qltb_lt in E1, E2. apply Qltb_false in E3. lra.
    + destruct (Qltb m.2 acc.2) eqn:E3; [| reflexivity].
      apply Qltb_false in E1, E2. apply Qltb_lt in E3. lra.
  - destruct (Qltb a.2 acc.2); reflexivity.
Qed.

Lemma first_min_head a rows :
  match first_min (a :: rows) with
  | None => a
  | Some m => if Qltb m.2 a.2 then m else a
  end = default a (first_min (a :: rows)).
Proof.
  simpl. destruct (first_min rows) as [m |]; simpl.
  - destruct (Qltb m.2 a.2) eqn:E; simpl; [rewrite E; reflexivity |].
    destruct (Qltb a.2 a.2) eqn:E'; reflexivity.
  - destruct (Qltb a.2 a.2); reflexivity.
Qed.

Lemma nearest_first_min (location : Location) first rest :
  Some (withDistance location (nearest calculateDistance location first (first :: rest)))
  = first_min (map (withDistance location) (first :: rest)).
Proof.
  unfold nearest. rewrite loop_rows.
  change (first, distanceTo location first) with (withDistance location first).
  rewrite loop_first_min.
  change (map (withDistance location) (first :: rest))
    with (withDistance location first :: map (withDistance location) rest).
  rewrite first_min_head.
  set (rows := withDistance location first :: map (withDistance location) rest).
  assert (Hin : forall m, first_min rows = Some m ->
                  m = withDistance location m.1).
  { assert (Hall : Forall (fun m => m = withDistance location m.1) rows).
    { subst rows. rewrite <- (map_cons (withDistance location)).
      apply Forall_forall. intros m Hm. apply list_elem_of_fmap in Hm as (e & -> & _).
      reflexivity. }
    clearbody rows. induction Hall as [| a rows' Ha Hall IH]; simpl; [discriminate |].
    intros m. destruct (first_min rows') as [m' |].
    - destruct (Qltb m'.2 a.2); intros [= <-]; [apply IH; reflexivity | exact Ha].
    - intros [= <-]. exact Ha. }
  destruct (first_min rows) as [m |] eqn:E; simpl.
  - rewrite <- (Hin m eq_refl). reflexivity.
  - subst rows. simpl in E. destruct (first_min _) as [m |]; [| discriminate].
    destruct (Qltb _ _); discriminate.
Qed.

Lemma filter_passes_false l : List.filter (passes false) l = l.
Proof.
  induction l as [| a l IH]; simpl; [reflexivity |]. rewrite IH. reflexivity.
Qed.

Lemma filter_passes_open openOnly l :
  Forall (fun e => isOpen e = true) l -> List.filter (passes openOnly) l = l.
Proof.
  induction 1 as [| a l Ha _ IH]; simpl; [reflexivity |].
  unfold passes at 1. rewrite Ha, andb_false_r, IH. reflexivity.
Qed.

Lemma find_same_id selected l u :
  List.find (same_id selected) l = Some u -> In u l /\ id u = id selected.
Proof.
  intros H. apply find_some in H as [Hin Hid].
  split; [exact Hin |]. apply String.eqb_eq. exact Hid.
Qed.

Lemma find_unique_id (l : list Establishment) u :
  NoDup (map id l) -> In u l -> List.find (same_id u) l = Some u.
Proof.
  induction l as [| a l IH]; simpl; intros Hnd Hin; [contradiction |].
  apply NoDup_cons in Hnd as [Ha Hl].
  unfold same_id at 1. destruct (String.eqb_spec (id a) (id u)) as [E | E].
  - destruct Hin as [-> | Hin]; [reflexivity |].
    exfalso. apply Ha. rewrite E. apply list_elem_of_fmap. exists u.
    split; [reflexivity | apply list_elem_of_In; exact Hin].
  - destruct Hin as [-> | Hin]; [contradiction |]. exact (IH Hl Hin).
Qed.

Lemma filter_ids_NoDup (f : Establishment -> bool) l :
  NoDup (map id l) -> NoDup (map id (List.filter f l)).
Proof.
  induction l as [| a l IH]; simpl; intros Hnd; [constructor |].
  apply NoDup_cons in Hnd as [Ha Hl].
  destruct (f a); simpl; [| exact (IH Hl)].
  apply NoDup_cons. split; [| exact (IH Hl)].
  intros Hin. apply Ha. apply list_elem_of_fmap in Hin as (e & -> & Hin).
  apply list_elem_of_fmap. exists e. split; [reflexivity |].
  apply list_elem_of_In. apply list_elem_of_In in Hin.
  apply filter_In in Hin as [Hin _]. exact Hin.
Qed.

Lemma nearest_in (location : Location) first l :
  In first l -> In (nearest calculateDistance location first l) l.
Proof.
  unfold nearest. intros Hfirst.
  assert (H : forall l' acc, (forall x, In x l' -> In x l) -> In acc.1 l ->
            In (fold_left (closer calculateDistance location) l' acc).1 l).
  { induction l' as [| a l' IH]; intros acc Hsub Hacc; simpl; [exact Hacc |].
    apply IH.
    - intros x Hx. apply Hsub. right. exact Hx.
    - unfold closer. destruct (Qltb _ _); simpl; [| exact Hacc].
      apply Hsub. left. reflexivity. }
  apply H; [auto | exact Hfirst].
Qed.

(** A selection the effect leaves is one of the establishments, and one the
    open-only filter lets through. *)
Theorem selection_is_listed userLocation establishments openOnly selected e :
  selectionEffect userLocation establishments openOnly selected = Some e ->
  In e establishments /\ passes openOnly e = true.
Proof.
  unfold App.selectionEffect.
  destruct userLocation as [location |]; [| destruct establishments; discriminate].
  destruct establishments as [| e0 rest]; [discriminate |].
  set (establishments := e0 :: rest).
  destruct (List.filter (passes openOnly) establishments) as [| first l] eqn:F;
    [discriminate |].
  assert (Hsub : forall x, In x (first :: l) ->
                   In x establishments /\ passes openOnly x = true).
  { intros x Hx. rewrite <- F in Hx. apply filter_In in Hx. exact Hx. }
  destruct selected as [selected |].
  - destruct (List.find (same_id selected) (first :: l)) as [u |] eqn:Hfind.
    + intros [= <-]. apply Hsub. apply (find_same_id _ _ _ Hfind).
    + intros [= <-]. apply Hsub. apply nearest_in. left. reflexivity.
  - intros [= <-]. apply Hsub. apply nearest_in. left. reflexivity.
Qed.

(** While an establishment with the id of the selected one is listed and
    passes the filter, the effect keeps the selection on that id, wherever
    the user stands. *)
Theorem selection_is_sticky (location : Location) establishments openOnly selected e :
  In e establishments -> passes openOnly e = true -> id e = id selected ->
  exists updated,
    selectionEffect (Some location) establishments openOnly (Some selected)
    = Some updated /\
    id updated = id selected /\ In updated establishments.
Proof.
  intros Hin Hpass Hid. unfold App.selectionEffect.
  destruct establishments as [| e0 rest]; [contradiction |].
  set (establishments := e0 :: rest) in *.
  assert (Hf : In e (List.filter (passes openOnly) establishments))
    by (apply filter_In; split; assumption).
  destruct (List.filter (passes openOnly) establishments) as [| first l] eqn:F;
    [contradiction |].
  destruct (List.find (same_id selected) (first :: l)) as [u |] eqn:Hfind.
  - exists u. split; [reflexivity |].
    destruct (find_same_id _ _ _ Hfind) as [Hu Hidu]. split; [exact Hidu |].
    rewrite <- F in Hu. apply filter_In in Hu as [Hu _]. exact Hu.
  - exfalso. apply (find_none _ _ Hfind e) in Hf.
    unfold same_id in Hf. rewrite Hid, String.eqb_refl in Hf. discriminate.
Qed.

(** With nothing selected, the effect selects an establishment that passes
    the filter and is at least as near as every other one that does. *)
Theorem default_is_nearest (location : Location) establishments openOnly e :
  In e establishments -> passes openOnly e = true ->
  exists n,
    selectionEffect (Some location) establishments openOnly None = Some n /\
    In n establishments /\ passes openOnly n = true /\
    distanceTo location n <= distanceTo location e.
Proof.
  intros Hin Hpass.
  assert (Hf : In e (List.filter (passes openOnly) establishments))
    by (apply filter_In; split; assumption).
  unfold App.selectionEffect.
  destruct establishments as [| e0 rest]; [contradiction |].
  set (establishments := e0 :: rest) in *.
  destruct (List.filter (passes openOnly) establishments) as [| first l] eqn:F;
    [contradiction |].
  exists (nearest calculateDistance location first (first :: l)).
  split; [reflexivity |].
  assert (Hn : In (nearest calculateDistance location first (first :: l)) (first :: l))
    by (apply nearest_in; left; reflexivity).
  assert (Hn' : In (nearest calculateDistance location first (first :: l))
                  (List.filter (passes openOnly) establishments))
    by (rewrite F; exact Hn).
  apply filter_In in Hn' as [Hn1 Hn2].
  split; [exact Hn1 |]. split; [exact Hn2 |].
  pose proof (nearest_first_min location first l) as Hmin.
  rewrite <- head_sort_rows in Hmin.
  pose proof (sort_rows_sorted (map (withDistance location) (first :: l))) as Hs.
  pose proof (sort_rows_perm (map (withDistance location) (first :: l))) as Hp.
  destruct (sort_rows (map (withDistance location) (first :: l))) as [| m rows];
    [discriminate |].
  simpl in Hmin. injection Hmin as Hm.
  apply Sorted_StronglySorted in Hs; [| apply _].
  apply StronglySorted_inv in Hs as [_ Hall].
  assert (He : In (withDistance location e) (m :: rows)).
  { apply list_elem_of_In. rewrite Hp. apply list_elem_of_fmap. exists e.
    split; [reflexivity | apply list_elem_of_In; exact Hf]. }
  destruct He as [He | He].
  - rewrite He in Hm. apply (f_equal snd) in Hm. simpl in Hm.
    rewrite Hm. apply Qle_refl.
  - rewrite Forall_forall in Hall. apply list_elem_of_In in He.
    specialize (Hall _ He). unfold by_distance in Hall. rewrite <- Hm in Hall.
    exact Hall.
Qed.

(** When the ids of the establishments are pairwise different, running the
    effect on the selection it left changes nothing: the effect, which runs
    again whenever the selection changes, comes to rest after one run. *)
Theorem selection_settles userLocation establishments openOnly selected :
  NoDup (map id establishments) ->
  selectionEffect userLocation establishments openOnly
    (selectionEffect userLocation establishments openOnly selected)
  = selectionEffect userLocation establishments openOnly selected.
Proof.
  intros Hnd.
  destruct (selectionEffect userLocation establishments openOnly selected)
    as [u |] eqn:E.
  - pose proof (filter_ids_NoDup (passes openOnly) _ Hnd) as Hndf.
    unfold App.selectionEffect in *.
    destruct userLocation as [location |]; [| destruct establishments; discriminate].
    destruct establishments as [| e0 rest]; [discriminate |].
    set (establishments := e0 :: rest) in *.
    destruct (List.filter (passes openOnly) establishments) as [| first l] eqn:F;
      [discriminate |].
    assert (Hu : In u (first :: l)).
    { destruct selected as [selected |].
      - destruct (List.find (same_id selected) (first :: l)) as [u' |] eqn:Hfind.
        + injection E as <-. apply (find_same_id _ _ _ Hfind).
        + injection E as <-. apply nearest_in. left. reflexivity.
      - injection E as <-. apply nearest_in. left. reflexivity. }
    rewrite (find_unique_id _ _ Hndf Hu). reflexivity.
  - unfold App.selectionEffect in *.
    destruct userLocation as [location |]; [| destruct establishments; reflexivity].
    destruct establishments as [| e0 rest]; [reflexivity |].
    destruct (List.filter (passes openOnly) (e0 :: rest)) as [| first l];
      [reflexivity |].
    destruct selected as [selected |]; [| discriminate].
    destruct (List.find (same_id selected) (first :: l)); discriminate.
Qed.

(** Every establishment the service returns is reported open, so ticking
    open-only changes neither the filtered list nor the selection. *)
Theorem open_only_changes_nothing userLocation (data : OverpassResponse) selected :
  List.filter (passes true) (toEstablishments data) = toEstablishments data /\
  selectionEffect userLocation (toEstablishments data) true selected
  = selectionEffect userLocation (toEstablishments data) false selected.
Proof.
  assert (H : forall openOnly,
            List.filter (passes openOnly) (toEstablishments data)
            = toEstablishments data).
  { intros openOnly. apply filter_passes_open. apply Forall_forall. intros e He.
    unfold toEstablishments in He.
    apply list_elem_of_omap in He as (element & _ & He).
    exact (MappingFacts.toEstablishment_open _ _ He). }
  split; [apply H |].
  unfold App.selectionEffect. rewrite (H true), (H false). reflexivity.
Qed.

(** The list shows ten rows when there are ten establishments or more, and
    all of them otherwise; the rows are in order of distance, and every
    establishment left out is at least as far as every row shown. *)
Theorem list_shows_the_nearest (location : Location) establishments :
  let rows := establishmentsWithDistance location establishments in
  length rows = Nat.min 10 (length establishments) /\
  Sorted by_distance rows /\
  exists hidden,
    Permutation (map (withDistance location) establishments) (rows ++ hidden) /\
    forall a b, In a rows -> In b hidden -> a.2 <= b.2.
Proof.
  unfold EstablishmentList.establishmentsWithDistance.
  set (sorted := sort_rows (map (withDistance location) establishments)).
  pose proof (sort_rows_perm (map (withDistance location) establishments)) as Hp.
  pose proof (sort_rows_sorted (map (withDistance location) establishments)) as Hs.
  fold sorted in Hp, Hs. simpl.
  split.
  { rewrite length_take, (Permutation_length Hp), length_map. reflexivity. }
  rewrite <- (take_drop 10 sorted) in Hs.
  apply Sorted_StronglySorted in Hs; [| apply _].
  split.
  { apply StronglySorted_Sorted. apply (StronglySorted_app_1_l _ _ _ Hs). }
  exists (drop 10 sorted). split.
  { rewrite take_drop. symmetry. exact Hp. }
  intros a b Ha Hb.
  apply (StronglySorted_app_1_elem_of _ _ _ a b Hs); apply list_elem_of_In; assumption.
Qed.

(** With nothing selected and the open-only filter off, the compass selects
    the establishment of the first row of the list. *)
Theorem first_row_is_default_selection (location : Location) establishments :
  selectionEffect (Some location) establishments false None
  = fst <$> head (establishmentsWithDistance location establishments).
Proof.
  unfold App.selectionEffect, EstablishmentList.establishmentsWithDistance.
  rewrite filter_passes_false.
  destruct establishments as [| first rest]; [reflexivity |].
  pose proof (nearest_first_min location first rest) as Hmin.
  rewrite <- head_sort_rows in Hmin.
  destruct (sort_rows (map (withDistance location) (first :: rest))) as [| m rows];
    [discriminate |].
  simpl in *. injection Hmin as <-. reflexivity.
Qed.

End Facts.

(** A stand-in for the distance, and the user of the scenario. *)
Definition taxicab (lat1 lng1 lat2 lng2 : Q) : Q :=
  Qabs (lat2 - lat1) + Qabs (lng2 - lng1).

Definition here : Location := {| loc_lat := 488566 # 10000; loc_lng := 23522 # 10000 |}.

Definition paris_pub : Establishment :=
  {| id := "node-2"; name := "bar sans nom"; type := bar;
     lat := 488560 # 10000; lng := 23530 # 10000; isOpen := true;
     city := None; tags := tagged "amenity" "pub" |}.

Definition paris_venues : list Establishment := [MappingFacts.paris_bar; paris_pub].

Lemma paris_venues_ids : NoDup (map id paris_venues).
Proof.
  simpl. repeat (apply NoDup_cons; split); try apply NoDup_nil_2;
    rewrite ?elem_of_cons, ?elem_of_nil; intros H; intuition discriminate.
Qed.

Lemma selection_is_listed_witness :
  In MappingFacts.paris_bar paris_venues /\ passes false MappingFacts.paris_bar = true.
Proof.
  apply (selection_is_listed taxicab (Some here) paris_venues false None).
  vm_compute. reflexivity.
Defined.

Lemma selection_is_sticky_witness :
  exists updated,
    App.selectionEffect taxicab (Some here) paris_venues true (Some paris_pub)
    = Some updated /\
    id updated = id paris_pub /\ In updated paris_venues.
Proof.
  apply (selection_is_sticky taxicab here paris_venues true paris_pub paris_pub).
  - right. left. reflexivity.
  - reflexivity.
  - reflexivity.
Defined.

Lemma default_is_nearest_witness :
  exists n,
    App.selectionEffect taxicab (Some here) paris_venues false None = Some n /\
    In n paris_venues /\ passes false n = true /\
    App.distanceTo taxicab here n <= App.distanceTo taxicab here paris_pub.
Proof.
  apply (default_is_nearest taxicab here paris_venues false paris_pub).
  - right. left. reflexivity.
  - reflexivity.
Defined.

Lemma selection_settles_witness :
  App.selectionEffect taxicab (Some here) paris_venues false
    (App.selectionEffect taxicab (Some here) paris_venues false (Some paris_pub))
  = App.selectionEffect taxicab (Some here) paris_venues false (Some paris_pub).
Proof.
  apply (selection_settles taxicab (Some here) paris_venues false (Some paris_pub)).
  exact paris_venues_ids.
Defined.

End PageFacts.

(** ** City search (Nominatim) *)

Module Nominatim.
Local Open Scope Z_scope.

(** Of [address] only these four fields are read. *)
Record Address := {
  city : option string;
  town : option string;
  village : option string;
  municipality : option string
}.

Record NominatimResponse := {
  item_place_id : Z;
  item_display_name : string;
  item_lat : string;
  item_lon : string;
  item_type : string;
  item_importance : Q;
  item_boundingbox : option (list string);
  item_address : option Address;
  item_name : option string
}.

Record City := {
  place_id : Z;
  display_name : string;
  name : string;
  lat : string;
  lon : string;
  type : string;
  importance : Q;
  boundingbox : option (list string)
}.

Definition validTypes : list string :=
  [ "city"; "town"; "village"; "municipality"; "suburb"; "hamlet";
    "administrative"; "neighbourhood"; "quarter"; "borough" ]%string.

Definition invalidTypes : list string :=
  [ "road"; "street"; "highway"; "path"; "footway" ]%string.

Definition includes (l : list string) (s : string) : bool :=
  existsb (String.eqb s) l.

(** The callback of the first [filter]. *)
Definition accepted (item : NominatimResponse) : bool :=
  (includes validTypes (item_type item)
   || match item_address item with
      | Some a =>
          Overpass.truthy_string (city a) || Overpass.truthy_string (town a)
          || Overpass.truthy_string (village a)
      | None => false
      end)
  && negb (includes invalidTypes (item_type item)).

(** The character [','], code 44. *)
Definition comma : Ascii.ascii := Ascii.ascii_of_nat 44.

(** [s.split(',')[0]] *)
Fixpoint before_comma (s : string) : string :=
  match s with
  | EmptyString => EmptyString
  | String c rest =>
      if Ascii.eqb c comma then EmptyString else String c (before_comma rest)
  end.

(** [a || b] where [b] is a string. *)
Definition or_else (a : option string) (b : string) : string :=
  if Overpass.truthy_string a then default ""%string a else b.

Definition cityName (item : NominatimResponse) : string :=
  or_else (item_address item ≫= city)
    (or_else (item_address item ≫= town)
       (or_else (item_address item ≫= village)
          (or_else (item_address item ≫= municipality)
             (or_else (item_name item)
                (before_comma (item_display_name item)))))).

(** The callback of [map]. *)
Definition toCity (item : NominatimResponse) : City :=
  {| place_id := item_place_id item;
     display_name := item_display_name item;
     name := cityName item;
     lat := item_lat item;
     lon := item_lon item;
     type := item_type item;
     importance := item_importance item;
     boundingbox := item_boundingbox item |}.

Fixpoint findIndex {A : Type} (p : A -> bool) (l : list A) : option nat :=
  match l with
  | [] => None
  | x :: rest => if p x then Some 0%nat else S <$> findIndex p rest
  end.

(** [sort((a, b) => b.importance - a.importance)]: the sort is stable, so a
    city goes before the cities after it that are not strictly more
    important. *)
Fixpoint insert_city (a : City) (l : list City) : list City :=
  match l with
  | [] => [a]
  | b :: rest =>
      if JsNum.Qltb (importance a) (importance b)
      then b :: insert_city a rest else a :: l
  end.

Definition sort_cities (l : list City) : list City := foldr insert_city [] l.

Section Search.

(** [String.prototype.toLowerCase] and the length of a string in UTF-16
    code units. *)
Variable toLowerCase : string -> string.
Variable utf16Length : string -> nat.

(** The callback of [findIndex], for the city [city]. *)
Definition same_name (city c : City) : bool :=
  String.eqb (toLowerCase (name c)) (toLowerCase (name city)).

(** The second [filter], on the part [l] of [self] that starts at [index]. *)
Fixpoint first_of_name (self : list City) (index : nat) (l : list City)
  : list City :=
  match l with
  | [] => []
  | city :: rest =>
      if bool_decide (findIndex (same_name city) self = Some index)
      then city :: first_of_name self (S index) rest
      else first_of_name self (S index) rest
  end.

Definition dedupe (self : list City) : list City := first_of_name self 0 self.

(** The chain from [data] to [cities]. *)
Definition toCities (data : list NominatimResponse) (limit : nat) : list City :=
  take limit (sort_cities (dedupe (map toCity (List.filter accepted data)))).

Record Search := {
  searchCache : gmap string (list City);
  lastRequestTime : Z
}.

Definition MIN_REQUEST_INTERVAL : Z := 300.

(** What one call meets: the clock at its start, how late the clock is when
    [lastRequestTime] is written, and the list the request gives, [None]
    when the request fails, answers with an error status or cannot be
    parsed. *)
Record Visit := {
  now : Z;
  late : Z;
  reply : option (list NominatimResponse)
}.

Definition visit_ok (v : Visit) : Prop := 0 <= late v.

Definition cacheKey (query : string) (limit : nat) : string :=
  toLowerCase query +:+ "-" +:+ pretty limit.

(** [searchCities]: the cities returned, the state left, and the times at
    which a request was sent. *)
Definition searchCities (query : string) (limit : nat) (v : Visit) (s : Search)
  : list City * Search * list Z :=
  if (utf16Length query <? 2)%nat then ([], s, [])
  else
    match searchCache s !! cacheKey query limit with
    | Some cached => (cached, s, [])
    | None =>
        let timeSinceLastRequest := now v - lastRequestTime s in
        let woken :=
          if timeSinceLastRequest <? MIN_REQUEST_INTERVAL
          then now v + (MIN_REQUEST_INTERVAL - timeSinceLastRequest)
          else now v in
        let sent := woken + late v in
        match reply v with
        | Some data =>
            let cities := toCities data limit in
            (cities,
             {| searchCache := <[cacheKey query limit := cities]> (searchCache s);
                lastRequestTime := sent |},
             [sent])
        | None =>
            ([], {| searchCache := searchCache s; lastRequestTime := sent |}, [sent])
        end
    end.

Definition clearCitySearchCache (s : Search) : Search :=
  {| searchCache := ∅; lastRequestTime := lastRequestTime s |}.

Definition getCityDetails (name : string) (v : Visit) (s : Search)
  : option City * Search * list Z :=
  let '(cities, s', sent) := searchCities name 1 v s in
  (head cities, s', sent).

(** The timer set after a successful search, when it fires. *)
Definition expire (key : string) (s : Search) : Search :=
  {| searchCache := delete key (searchCache s);
     lastRequestTime := lastRequestTime s |}.

(** What happens to the module: a search, awaited before anything else
    happens, a timer that fires, or the cache cleared by hand. *)
Inductive Event :=
| Call (query : string) (limit : nat) (v : Visit)
| Expire (key : string)
| Clear.

(** The times of the requests sent along a series of events. *)
Fixpoint search_all (evs : list Event) (s : Search) : list Z :=
  match evs with
  | [] => []
  | Call query limit v :: rest =>
      let '(_, s', sent) := searchCities query limit v s in
      sent ++ search_all rest s'
  | Expire key :: rest => search_all rest (expire key s)
  | Clear :: rest => search_all rest (clearCitySearchCache s)
  end.

End Search.

End Nominatim.

(** ** City search: what the results satisfy *)

Module NominatimFacts.
Import JsNum Nominatim.
Local Open Scope Z_scope.

Definition by_importance (a b : City) : Prop := (importance b <= importance a)%Q.

#[local] Instance by_importance_trans : Transitive by_importance.
Proof. intros a b c. unfold by_importance. lra. Qed.

Lemma findIndex_Some {A : Type} (p : A -> bool) (l : list A) (i : nat) :
  findIndex p l = Some i ->
  (exists x, l !! i = Some x /\ p x = true) /\
  (forall j y, (j < i)%nat -> l !! j = Some y -> p y = false).
Proof.
  revert i. induction l as [| x l IH]; intros i; simpl; [discriminate |].
  destruct (p x) eqn:Hx.
  - intros [= <-]. split; [exists x; split; [reflexivity | exact Hx] |].
    intros j y Hj. lia.
  - destruct (findIndex p l) as [k |]; [| discriminate].
    simpl. intros [= <-]. destruct (IH k eq_refl) as [Hex Hmin].
    split; [exact Hex |].
    intros [| j] y Hj; simpl; [intros [= <-]; exact Hx |].
    apply Hmin. lia.
Qed.

Lemma insert_city_perm a l : Permutation (insert_city a l) (a :: l).
Proof.
  induction l as [| b rest IH]; simpl; [reflexivity |].
  destruct (Qltb (importance a) (importance b)); [| reflexivity].
  rewrite IH. apply perm_swap.
Qed.

Lemma sort_cities_perm l : Permutation (sort_cities l) l.
Proof.
  induction l as [| a l IH]; simpl; [reflexivity |].
  rewrite insert_city_perm, IH. reflexivity.
Qed.

Lemma insert_city_sorted a l :
  Sorted by_importance l -> Sorted by_importance (insert_city a l).
Proof.
  induction l as [| b rest IH]; simpl; intros Hs.
  - repeat constructor.
  - destruct (Qltb (importance a) (importance b)) eqn:E.
    + apply Sorted_inv in Hs as [Hrest Hhd].
      constructor; [exact (IH Hrest) |].
      apply Qltb_lt in E.
      destruct rest as [| c rest']; simpl.
      * constructor. unfold by_importance. lra.
      * destruct (Qltb (importance a) (importance c)); constructor.
        -- inversion Hhd; assumption.
        -- unfold by_importance. lra.
    + apply Qltb_ge in E. constructor; [exact Hs |]. constructor. exact E.
Qed.

Lemma sort_cities_sorted l : Sorted by_importance (sort_cities l).
Proof.
  induction l as [| a l IH]; simpl; [constructor |].
  apply insert_city_sorted. exact IH.
Qed.

Section Facts.

Variable toLowerCase : string -> string.
Variable utf16Length : string -> nat.

Abbreviation same_name := (Nominatim.same_name toLowerCase).
Abbreviation first_of_name := (Nominatim.first_of_name toLowerCase).
Abbreviation dedupe := (Nominatim.dedupe toLowerCase).
Abbreviation toCities := (Nominatim.toCities toLowerCase).
Abbreviation searchCities := (Nominatim.searchCities toLowerCase utf16Length).
Abbreviation getCityDetails := (Nominatim.getCityDetails toLowerCase utf16Length).
Abbreviation search_all := (Nominatim.search_all toLowerCase utf16Length).
Abbreviation cacheKey := (Nominatim.cacheKey toLowerCase).

Definition lower_name (c : City) : string := toLowerCase (name c).

(** The candidates of a reply: the accepted items as cities, one per name. *)
Definition candidates (data : list NominatimResponse) : list City :=
  dedupe (map toCity (List.filter accepted data)).

Lemma first_of_name_spec (self : list City) :
  forall l index, drop index self = l ->
    (forall c, c ∈ first_of_name self index l ->
       exists j, (index <= j)%nat /\ self !! j = Some c /\
                 findIndex (same_name c) self = Some j) /\
    NoDup (map lower_name (first_of_name self index l)).
Proof.
  induction l as [| city rest IH]; intros index Hdrop; simpl.
  - split; [intros c Hc; inversion Hc | constructor].
  - assert (Hrest : drop (S index) self = rest).
    { replace (S index) with (index + 1)%nat by lia.
      rewrite <- (drop_drop self 1 index), Hdrop. reflexivity. }
    assert (Hcity : self !! index = Some city).
    { rewrite <- (Nat.add_0_r index), <- lookup_drop, Hdrop. reflexivity. }
    destruct (IH (S index) Hrest) as [Hin Hnd].
    destruct (bool_decide (findIndex (same_name city) self = Some index)) eqn:E.
    + apply bool_decide_eq_true in E. split.
      * intros c Hc. apply elem_of_cons in Hc as [-> | Hc].
        -- exists index. auto.
        -- destruct (Hin c Hc) as (j & Hj & Hl & Hf). exists j.
           split; [lia | split; assumption].
      * simpl. apply NoDup_cons. split; [| exact Hnd].
        intros Hdup. apply list_elem_of_fmap in Hdup as (c & Hname & Hc).
        destruct (Hin c Hc) as (j & Hj & _ & Hf).
        apply findIndex_Some in Hf as [_ Hmin].
        assert (Hfalse : same_name c city = false) by (apply (Hmin index); [lia | exact Hcity]).
        unfold Nominatim.same_name in Hfalse. unfold lower_name in Hname.
        rewrite Hname, String.eqb_refl in Hfalse. discriminate.
    + split; [| exact Hnd].
      intros c Hc. destruct (Hin c Hc) as (j & Hj & Hl & Hf). exists j.
      split; [lia | split; assumption].
Qed.

Lemma dedupe_names (self : list City) : NoDup (map lower_name (dedupe self)).
Proof. apply (first_of_name_spec self self 0%nat). reflexivity. Qed.

Lemma dedupe_in (self : list City) c : c ∈ dedupe self -> c ∈ self.
Proof.
  intros Hc.
  destruct (first_of_name_spec self self 0%nat eq_refl) as [Hin _].
  destruct (Hin c Hc) as (j & _ & Hl & _).
  apply list_elem_of_lookup. exists j. exact Hl.
Qed.

Lemma dedupe_head c l : exists rest, dedupe (c :: l) = c :: rest.
Proof.
  assert (H : findIndex (same_name c) (c :: l) = Some 0%nat).
  { simpl. unfold Nominatim.same_name. rewrite String.eqb_refl. reflexivity. }
  unfold Nominatim.dedupe. cbn [Nominatim.first_of_name].
  rewrite (bool_decide_eq_true_2 _ H). eexists. reflexivity.
Qed.

Lemma candidates_origin (data : list NominatimResponse) c :
  c ∈ candidates data ->
  exists item, item ∈ data /\ accepted item = true /\ c = toCity item.
Proof.
  intros Hc. apply dedupe_in in Hc.
  apply list_elem_of_fmap in Hc as (item & -> & Hitem).
  apply list_elem_of_In, filter_In in Hitem as [Hin Hacc].
  exists item. split; [apply list_elem_of_In; exact Hin |]. split; [exact Hacc | reflexivity].
Qed.

(** The cities of a search are at most [limit], bear pairwise different
    names whatever the case of the letters, come in order of importance,
    the most important first, and each is an accepted item of the reply. *)
Theorem cities_well_formed (data : list NominatimResponse) (limit : nat) :
  (length (toCities data limit) <= limit)%nat /\
  NoDup (map lower_name (toCities data limit)) /\
  Sorted by_importance (toCities data limit) /\
  forall c, c ∈ toCities data limit ->
    exists item, item ∈ data /\ accepted item = true /\ c = toCity item.
Proof.
  unfold Nominatim.toCities. fold (candidates data).
  pose proof (sort_cities_perm (candidates data)) as Hp.
  pose proof (sort_cities_sorted (candidates data)) as Hs.
  split; [rewrite length_take; lia |]. split; [| split].
  - apply (sublist_NoDup _ (map lower_name (sort_cities (candidates data)))).
    + rewrite Hp. apply dedupe_names.
    + apply fmap_sublist, sublist_take.
  - rewrite <- (take_drop limit (sort_cities (candidates data))) in Hs.
    apply Sorted_StronglySorted in Hs; [| apply _].
    apply StronglySorted_Sorted. apply (StronglySorted_app_1_l _ _ _ Hs).
  - intros c Hc. apply candidates_origin.
    rewrite <- Hp. apply (elem_of_sublist _ _ _ Hc (sublist_take _ _)).
Qed.

(** For a name of two characters or more that is not in the cache, when the
    request gives a list: [getCityDetails] returns the most important of
    the candidates, and nothing only when no item of the list is
    accepted. *)
Theorem getCityDetails_best (name : string) (v : Visit) (s : Search)
    (data : list NominatimResponse) :
  (2 <= utf16Length name)%nat ->
  searchCache s !! cacheKey name 1 = None ->
  reply v = Some data ->
  match (getCityDetails name v s).1.1 with
  | Some c =>
      c ∈ candidates data /\
      forall c', c' ∈ candidates data -> (importance c' <= importance c)%Q
  | None => forall item, item ∈ data -> accepted item = false
  end.
Proof.
  intros Hlen Hcache Hreply.
  unfold Nominatim.getCityDetails, Nominatim.searchCities.
  apply Nat.ltb_ge in Hlen. rewrite Hlen, Hcache, Hreply. simpl.
  unfold Nominatim.toCities. fold (candidates data).
  pose proof (sort_cities_perm (candidates data)) as Hp.
  pose proof (sort_cities_sorted (candidates data)) as Hs.
  destruct (sort_cities (candidates data)) as [| c rest] eqn:E; simpl.
  - apply Permutation_nil in Hp.
    unfold candidates in Hp.
    destruct (map toCity (List.filter accepted data)) as [| c0 l0] eqn:M.
    + intros item Hitem. destruct (accepted item) eqn:Hacc; [| reflexivity].
      assert (Hin : In item (List.filter accepted data)).
      { apply filter_In. split; [apply list_elem_of_In; exact Hitem | exact Hacc]. }
      destruct (List.filter accepted data); [contradiction | discriminate].
    + destruct (dedupe_head c0 l0) as [rest Hd]. rewrite Hd in Hp. discriminate.
  - split.
    + rewrite <- Hp. left.
    + intros c' Hc'. rewrite <- Hp in Hc'.
      apply Sorted_StronglySorted in Hs; [| apply _].
      apply StronglySorted_inv in Hs as [_ Hall].
      apply elem_of_cons in Hc' as [-> | Hc']; [apply Qle_refl |].
      rewrite Forall_forall in Hall. exact (Hall _ Hc').
Qed.

Lemma min_spaced_cons (gap x : Z) (G : list Z) :
  RateLimiter.min_spaced gap G ->
  (forall t, head G = Some t -> x + gap <= t) ->
  RateLimiter.min_spaced gap (x :: G).
Proof.
  intros HG Hx [| i] a b; simpl.
  - intros [= <-] Hb. apply Hx. destruct G; [discriminate | exact Hb].
  - apply HG.
Qed.

Lemma searchCities_sent query limit v s :
  visit_ok v ->
  let '(_, s', sent) := searchCities query limit v s in
  (sent = [] /\ lastRequestTime s' = lastRequestTime s) \/
  (sent = [lastRequestTime s'] /\
   lastRequestTime s + MIN_REQUEST_INTERVAL <= lastRequestTime s').
Proof.
  unfold visit_ok, Nominatim.searchCities, MIN_REQUEST_INTERVAL. intros Hlate.
  destruct (utf16Length query <? 2)%nat; [left; split; reflexivity |].
  destruct (searchCache s !! _); [left; split; reflexivity |].
  destruct (now v - lastRequestTime s <? 300) eqn:E;
    [apply Z.ltb_lt in E | apply Z.ltb_ge in E];
    destruct (reply v); right; simpl; split; try reflexivity; lia.
Qed.

Definition event_ok (e : Event) : Prop :=
  match e with
  | Call _ _ v => visit_ok v
  | _ => True
  end.

(** When searches are made one after the other, each awaited before the
    next, two requests are never sent less than 300 ms apart, whatever
    timers fire and whenever the cache is cleared in between. *)
Theorem requests_spaced (evs : list Event) (s : Search) :
  Forall event_ok evs ->
  RateLimiter.min_spaced MIN_REQUEST_INTERVAL (search_all evs s) /\
  forall t, head (search_all evs s) = Some t ->
    lastRequestTime s + MIN_REQUEST_INTERVAL <= t.
Proof.
  revert s. induction evs as [| e evs IH]; intros s Hok; simpl.
  - split; [intros i a b H; destruct i; discriminate | discriminate].
  - inversion Hok as [| ? ? Hv Hrest]; subst.
    destruct e as [query limit v | key |]; simpl in Hv.
    + pose proof (searchCities_sent query limit v s Hv) as Hsent.
      destruct (searchCities query limit v s) as [[cities s'] sent].
      destruct (IH s' Hrest) as [Hsp Hhd].
      destruct Hsent as [[-> Hlast] | [-> Hlast]]; simpl.
      * rewrite <- Hlast. split; assumption.
      * split; [apply min_spaced_cons; assumption |].
        intros t [= <-]. exact Hlast.
    + exact (IH (expire key s) Hrest).
    + exact (IH (clearCitySearchCache s) Hrest).
Qed.

End Facts.

(** A reply with two places called Lyon and a road, and stand-ins for the
    two string functions on texts without capitals. *)
Definition place (i : Z) (kind label : string) (weight : Q) : NominatimResponse :=
  {| item_place_id := i; item_display_name := label; item_lat := "45.76";
     item_lon := "4.83"; item_type := kind; item_importance := weight;
     item_boundingbox := None; item_address := None; item_name := None |}.

Definition lyon_reply : list NominatimResponse :=
  [ place 1 "road" "rue de lyon, paris" (3 # 10);
    place 2 "village" "lyon, quebec" (2 # 10);
    place 3 "city" "lyon, france" (8 # 10) ].

Definition as_is (s : string) : string := s.

Definition fresh : Search := {| searchCache := ∅; lastRequestTime := 0 |}.

Definition lyon_visit : Visit :=
  {| now := 5000; late := 3; reply := Some lyon_reply |}.

Lemma getCityDetails_best_witness :
  match (Nominatim.getCityDetails as_is String.length "lyon" lyon_visit fresh).1.1 with
  | Some c =>
      c ∈ candidates as_is lyon_reply /\
      forall c', c' ∈ candidates as_is lyon_reply -> (importance c' <= importance c)%Q
  | None => forall item, item ∈ lyon_reply -> accepted item = false
  end.
Proof.
  apply (getCityDetails_best as_is String.length "lyon" lyon_visit fresh lyon_reply).
  - simpl. lia.
  - reflexivity.
  - reflexivity.
Defined.

Lemma requests_spaced_witness :
  RateLimiter.min_spaced MIN_REQUEST_INTERVAL
    (Nominatim.search_all as_is String.length
       [Call "lyon" 5 lyon_visit;
        Expire "lyon-5";
        Call "lyon" 5 {| now := 5100; late := 0; reply := None |}]
       fresh).
Proof.
  refine (proj1 (requests_spaced as_is String.length _ fresh _)).
  repeat (apply Forall_cons_2; [unfold event_ok, visit_ok; simpl; try lia; exact I |]).
  apply Forall_nil_2.
Defined.

Example throttled_second_request :
  Nominatim.search_all as_is String.length
    [Call "lyon" 5 lyon_visit;
     Expire "lyon-5";
     Call "lyon" 5 {| now := 5100; late := 0; reply := None |}]
    fresh
  = [5003; 5303].
Proof. vm_compute. reflexivity. Qed.

(** The village of Quebec comes first in the reply and takes the name: the
    city of the same name is dropped before the sort by importance. *)
Example first_of_a_name_wins :
  map (fun c => (place_id c, name c))
    (Nominatim.toCities as_is lyon_reply 5) = [(2, "lyon"%string)].
Proof. vm_compute. reflexivity. Qed.

End NominatimFacts.

(** ** Cache: keys that never meet, errors that are not remembered *)

Module CacheFacts.
Import Overpass.
Local Open Scope Z_scope.

(** The character [':'], code 58. *)
Definition colon : Ascii.ascii := Ascii.ascii_of_nat 58.

Fixpoint has_char (c : Ascii.ascii) (s : string) : bool :=
  match s with
  | EmptyString => false
  | String a rest => Ascii.eqb a c || has_char c rest
  end.

Lemma has_char_app c (s t : string) :
  has_char c (s +:+ t) = has_char c s || has_char c t.
Proof.
  induction s as [| a s IH]; simpl; [reflexivity |].
  rewrite IH, orb_assoc. reflexivity.
Qed.

Lemma app_nil (t : string) : ("" +:+ t)%string = t.
Proof. reflexivity. Qed.

Lemma app_cons (a : Ascii.ascii) (s t : string) :
  String a s +:+ t = String a (s +:+ t).
Proof. reflexivity. Qed.

(** A text is cut in one way only at its last colon. *)
Lemma split_at_last_colon (s1 s2 t1 t2 : string) :
  has_char colon t1 = false -> has_char colon t2 = false ->
  s1 +:+ ":" +:+ t1 = s2 +:+ ":" +:+ t2 -> s1 = s2 /\ t1 = t2.
Proof.
  intros H1 H2. revert s2.
  induction s1 as [| a s1 IH]; intros [| b s2] H;
    rewrite ?app_cons, ?app_nil in H.
  - injection H as H. split; [reflexivity | exact H].
  - injection H as _ H. rewrite H, has_char_app in H1. simpl in H1.
    rewrite orb_true_r in H1. discriminate.
  - injection H as _ H. rewrite <- H, has_char_app in H2. simpl in H2.
    rewrite orb_true_r in H2. discriminate.
  - injection H as -> H. destruct (IH _ H) as [-> ->]. split; reflexivity.
Qed.

Definition typesStr (types : list EstablishmentType) : string :=
  String.concat "," (map type_name types).

Lemma concat_cons (x y : EstablishmentType) (l : list EstablishmentType) :
  typesStr (x :: y :: l) = type_name x +:+ "," +:+ typesStr (y :: l).
Proof. reflexivity. Qed.

Lemma typesStr_no_colon (l : list EstablishmentType) :
  has_char colon (typesStr l) = false.
Proof.
  induction l as [| x [| y l] IH]; [reflexivity | destruct x; reflexivity |].
  rewrite concat_cons, !has_char_app, IH.
  destruct x; reflexivity.
Qed.

Lemma typesStr_inj (l1 l2 : list EstablishmentType) :
  typesStr l1 = typesStr l2 -> l1 = l2.
Proof.
  revert l2. induction l1 as [| x l1 IH]; intros [| y l2] H.
  - reflexivity.
  - destruct l2 as [| y' l2]; [destruct y; discriminate |].
    rewrite concat_cons in H. destruct y; discriminate.
  - destruct l1 as [| x' l1]; [destruct x; discriminate |].
    rewrite concat_cons in H. destruct x; discriminate.
  - destruct l1 as [| x' l1], l2 as [| y' l2].
    + destruct x, y; try discriminate; reflexivity.
    + rewrite concat_cons in H.
      remember (typesStr (y' :: l2)) as r eqn:E.
      destruct x, y; vm_compute in H; congruence.
    + rewrite concat_cons in H.
      remember (typesStr (x' :: l1)) as r eqn:E.
      destruct x, y; vm_compute in H; congruence.
    + rewrite !concat_cons in H.
      remember (typesStr (x' :: l1)) as r1 eqn:E1.
      remember (typesStr (y' :: l2)) as r2 eqn:E2.
      assert (x = y /\ r1 = r2) as [-> Hr].
      { destruct x, y; vm_compute in H; try discriminate;
          (split; [reflexivity | congruence]). }
      subst r1 r2. rewrite (IH _ Hr). reflexivity.
Qed.

Lemma city_key (numToString : Q -> string) lat lng radius types (c : string) :
  c <> ""%string ->
  getCacheKey numToString lat lng radius types by_city (Some c)
  = ("city:" +:+ c +:+ ":" +:+ typesStr (sort_types types))%string.
Proof.
  intros Hc. unfold getCacheKey, typesStr. simpl.
  destruct (String.eqb_spec c ""); [contradiction |]. simpl.
  rewrite sort_types_names. reflexivity.
Qed.

(** A request shares the cache key of a request by city exactly when it is
    by city too, names the same city, and asks for the same categories in
    any order.  A request by position never does, whether it carries a city
    name or not.  Position, radius and bounding box play no part in a key by
    city: two places of one name share their entry. *)
Theorem city_key_shared_iff (numToString : Q -> string)
    lat1 lng1 radius1 types1 (city1 : string)
    lat2 lng2 radius2 types2 (city2 : option string) mode2 :
  city1 <> ""%string ->
  getCacheKey numToString lat1 lng1 radius1 types1 by_city (Some city1)
  = getCacheKey numToString lat2 lng2 radius2 types2 mode2 city2
  <-> mode2 = by_city /\ city2 = Some city1 /\ types1 ≡ₚ types2.
Proof.
  intros H1. split.
  - intros H. rewrite (city_key _ _ _ _ _ _ H1) in H.
    destruct mode2; [unfold getCacheKey in H; simpl in H; discriminate |].
    destruct city2 as [c |]; [| unfold getCacheKey in H; simpl in H; discriminate].
    destruct (String.eqb_spec c "") as [-> | H2];
      [unfold getCacheKey in H; simpl in H; discriminate |].
    rewrite (city_key _ _ _ _ _ _ H2) in H. simpl in H.
    injection H as H.
    apply split_at_last_colon in H as [Hc Ht]; try apply typesStr_no_colon.
    split; [reflexivity |]. split; [rewrite Hc; reflexivity |].
    apply typesStr_inj in Ht.
    rewrite <- (sort_types_perm types1), <- (sort_types_perm types2), Ht.
    reflexivity.
  - intros (-> & -> & Hp).
    rewrite (getCacheKey_types_order _ _ _ _ _ _ _ _ Hp).
    apply getCacheKey_city, H1.
Qed.

(** Paris in France and Paris in Texas, asked for by city. *)
Lemma city_key_shared_iff_witness :
  getCacheKey show_fraction (488566 # 10000) (23522 # 10000) 5
    [restaurant; bar] by_city (Some "Paris"%string)
  = getCacheKey show_fraction (336609 # 10000) (-955555 # 10000) 2
    [bar; restaurant] by_city (Some "Paris"%string).
Proof.
  apply (city_key_shared_iff show_fraction
           (488566 # 10000) (23522 # 10000) 5 [restaurant; bar] "Paris"
           (336609 # 10000) (-955555 # 10000) 2 [bar; restaurant]
           (Some "Paris"%string) by_city);
    [discriminate |].
  split; [reflexivity |]. split; [reflexivity |].
  apply Permutation_swap.
Defined.

(** Every cached list and every delivered list is a mapped response. *)
Definition mapped (venues : list Establishment) : Prop :=
  exists fetched, venues = toEstablishments fetched.

Record Mapped (s : Engine) : Prop := {
  mapped_cache : forall key entry, cache s !! key = Some entry -> mapped (data entry);
  mapped_settled : forall op venues,
      settled s !! op = Some (inr venues) -> mapped venues
}.

Section Engine.
Variable numToString : Q -> string.

Abbreviation key_of := (Overpass.key_of numToString).
Abbreviation queryOverpass := (Overpass.queryOverpass numToString).
Abbreviation step := (Overpass.step numToString).
Abbreviation run := (Overpass.run numToString).

Lemma idle_engine_mapped : Mapped idle_engine.
Proof.
  split; simpl; intros ? ? H; rewrite lookup_empty in H; discriminate.
Qed.

Lemma step_mapped (s : Engine) (e : Event) : Mapped s -> Mapped (step s e).
Proof.
  intros [Hc Hs]. destruct e as [q now nowClean | op result now |]; simpl.
  - destruct (queryOverpass_state numToString q now nowClean s) as [-> | [_ ->]];
      [split; assumption |].
    split; simpl; [| exact Hs].
    intros key entry H. apply map_lookup_filter_Some_1_1 in H. exact (Hc _ _ H).
  - unfold settle. destruct (running s !! op) as [cacheKey |]; [| split; assumption].
    split; simpl.
    + intros key entry H. destruct result as [error | fetched]; [exact (Hc _ _ H) |].
      destruct (decide (key = cacheKey)) as [-> | Hne].
      * rewrite lookup_insert_eq in H. injection H as <-. exists fetched. reflexivity.
      * rewrite lookup_insert_ne in H by congruence. exact (Hc _ _ H).
    + intros op' venues H. destruct (decide (op' = op)) as [-> | Hne].
      * rewrite lookup_insert_eq in H.
        destruct result as [error | fetched]; [discriminate |].
        injection H as <-. exists fetched. reflexivity.
      * rewrite lookup_insert_ne in H by congruence. exact (Hs _ _ H).
  - split; simpl; [| exact Hs].
    intros key entry H. rewrite lookup_empty in H. discriminate.
Qed.

Lemma run_mapped (evs : list Event) (s : Engine) : Mapped s -> Mapped (run evs s).
Proof.
  unfold Overpass.run. revert s.
  induction evs as [| e evs IH]; intros s Hs; simpl; [exact Hs |].
  apply IH, step_mapped, Hs.
Qed.

(** Whatever list a caller of [queryOverpass] ends up with, from the cache
    or from a promise, at once or after any further events, it is the
    mapping of a response: so each of its establishments has a category
    that agrees with its tags, a name, and is reported open. *)
Theorem delivered_lists_are_mapped (evs : list Event) (q : Query) (now nowClean : Z)
    (later : list Event) (venues : list Establishment) :
  let s := run evs idle_engine in
  let call := queryOverpass q now nowClean s in
  delivered call.1 (run later call.2) = Some (inr venues) ->
  (exists fetched, venues = toEstablishments fetched) /\
  Forall (fun e => mapOsmTagsToType (tags e) = Some (type e) /\
                   name e <> ""%string /\ isOpen e = true) venues.
Proof.
  intros s call Hd.
  assert (Hm : mapped venues).
  { assert (Hs : Mapped s) by apply run_mapped, idle_engine_mapped.
    assert (Hs' : Mapped call.2) by apply (step_mapped s (Call q now nowClean) Hs).
    pose proof (run_mapped later _ Hs') as [_ Hset].
    destruct Hs as [Hc _].
    subst call. unfold Overpass.queryOverpass in *.
    destruct (cache s !! Overpass.key_of numToString q) as [cached |] eqn:Ec.
    - destruct (now - timestamp cached <? CACHE_DURATION).
      + simpl in Hd. injection Hd as <-. exact (Hc _ _ Ec).
      + destruct (inFlightRequests s !! Overpass.key_of numToString q);
          simpl in Hd; exact (Hset _ _ Hd).
    - destruct (inFlightRequests s !! Overpass.key_of numToString q);
        simpl in Hd; exact (Hset _ _ Hd). }
  split; [exact Hm |].
  destruct Hm as [fetched ->]. apply Forall_forall. intros e He.
  unfold toEstablishments in He. apply list_elem_of_omap in He as (el & _ & He).
  split; [| split].
  - exact (MappingFacts.toEstablishment_type _ _ He).
  - exact (MappingFacts.toEstablishment_name _ _ He).
  - exact (MappingFacts.toEstablishment_open _ _ He).
Qed.

(** An error is not remembered: when the operation of a key fails, the cache
    is as it was, the record is gone, and the next call with that key starts
    a new operation, which goes to the network again. *)
Theorem failed_request_is_retried (q : Query) (op : nat) (error : Error)
    (t now nowClean : Z) (s : Engine) :
  running s !! op = Some (key_of q) ->
  stale (cache s !! key_of q) now ->
  let s' := settle op (inl error) t s in
  cache s' = cache s /\
  settled s' !! op = Some (inl error) /\
  (queryOverpass q now nowClean s').1 = Started (next_op s) /\
  fetches (queryOverpass q now nowClean s').2 = S (fetches s).
Proof.
  intros Hop Hst s'.
  assert (Hc : cache s' = cache s) by (unfold s', settle; rewrite Hop; reflexivity).
  assert (Hfl : inFlightRequests s' !! key_of q = None).
  { unfold s', settle. rewrite Hop. simpl. apply lookup_delete_eq. }
  split; [exact Hc |]. split.
  { unfold s', settle. rewrite Hop. simpl. apply lookup_insert_eq. }
  rewrite (queryOverpass_start numToString q now nowClean s');
    [| rewrite Hc; exact Hst | exact Hfl].
  unfold s', settle. rewrite Hop. split; reflexivity.
Qed.

(** [clearCache] empties the cache and leaves the requests in flight alone:
    a caller still joins the operation of its key, and when the operation
    returns its list is cached, although nothing was asked after the
    clearing. *)
Theorem clearCache_spares_requests (q : Query) (op : nat)
    (fetched : OverpassResponse) (t now nowClean : Z) (s : Engine) :
  Inv s -> running s !! op = Some (key_of q) ->
  queryOverpass q now nowClean (clearCache s) = (Subscribed op, clearCache s) /\
  cache (settle op (inr fetched) t (clearCache s)) !! key_of q
  = Some {| data := toEstablishments fetched; timestamp := t |}.
Proof.
  intros [Hrec _] Hop. split.
  - apply queryOverpass_join; simpl.
    + rewrite lookup_empty. exact I.
    + exact (Hrec _ _ Hop).
  - unfold settle. simpl. rewrite Hop. simpl. apply lookup_insert_eq.
Qed.

End Engine.

Definition paris_started : Engine :=
  Overpass.run show_fraction [Call paris_query 1000 1000] idle_engine.

Lemma paris_started_inv : Inv paris_started.
Proof. apply run_inv, idle_engine_inv. Qed.

Lemma delivered_lists_are_mapped_witness :
  (exists fetched, toEstablishments paris_reply = toEstablishments fetched) /\
  Forall (fun e => mapOsmTagsToType (tags e) = Some (type e) /\
                   name e <> ""%string /\ isOpen e = true)
    (toEstablishments paris_reply).
Proof.
  apply (delivered_lists_are_mapped show_fraction [] paris_query 1000 1000
           [Settle 0 (inr paris_reply) 2000] (toEstablishments paris_reply)).
  vm_compute. reflexivity.
Defined.

Lemma failed_request_is_retried_witness :
  let s' := settle 0 (inl AllFailed) 2000 paris_started in
  cache s' = cache paris_started /\
  settled s' !! 0%nat = Some (inl AllFailed) /\
  (Overpass.queryOverpass show_fraction paris_query 3000 3000 s').1
  = Started (next_op paris_started) /\
  fetches (Overpass.queryOverpass show_fraction paris_query 3000 3000 s').2
  = S (fetches paris_started).
Proof.
  apply (failed_request_is_retried show_fraction paris_query 0 AllFailed
           2000 3000 3000 paris_started).
  - vm_compute. reflexivity.
  - vm_compute. exact I.
Defined.

Lemma clearCache_spares_requests_witness :
  Overpass.queryOverpass show_fraction paris_query 3000 3000 (clearCache paris_started)
  = (Subscribed 0%nat, clearCache paris_started) /\
  cache (settle 0 (inr paris_reply) 2000 (clearCache paris_started))
    !! Overpass.key_of show_fraction paris_query
  = Some {| data := toEstablishments paris_reply; timestamp := 2000 |}.
Proof.
  apply (clearCache_spares_requests show_fraction paris_query 0 paris_reply
           2000 3000 3000 paris_started).
  - exact paris_started_inv.
  - vm_compute. reflexivity.
Defined.

End CacheFacts.

(** ** The Overpass QL query *)

Module OverpassQuery.
Import Overpass.
Local Open Scope string_scope.

(** The double quote, code 34, and the line feed, code 10. *)
Definition quote : string := String (Ascii.ascii_of_nat 34) EmptyString.
Definition newline : string := String (Ascii.ascii_of_nat 10) EmptyString.

(** [types.includes(t)] *)
Definition includes (types : list EstablishmentType) (t : EstablishmentType) : bool :=
  existsb (fun x => String.eqb (type_name x) (type_name t)) types.

(** A pushed filter without its area: element kind, tag key, tag value. *)
Definition Clause : Type := string * string * string.

(** What the [if] of a category pushes, in order. *)
Definition pushed (t : EstablishmentType) : list Clause :=
  match t with
  | bar =>
      [ ("node", "amenity", "bar"); ("node", "amenity", "pub");
        ("way", "amenity", "bar"); ("way", "amenity", "pub") ]
  | nightclub =>
      [ ("node", "amenity", "nightclub"); ("way", "amenity", "nightclub") ]
  | wine_cellar =>
      [ ("node", "shop", "wine"); ("way", "shop", "wine") ]
  | liquor_store =>
      [ ("node", "shop", "alcohol"); ("node", "shop", "beverages");
        ("way", "shop", "alcohol"); ("way", "shop", "beverages") ]
  | restaurant =>
      [ ("node", "amenity", "restaurant"); ("way", "amenity", "restaurant") ]
  | supermarket =>
      [ ("node", "shop", "supermarket"); ("node", "shop", "convenience");
        ("way", "shop", "supermarket"); ("way", "shop", "convenience") ]
  end.

(** The categories in the order of the [if] statements. *)
Definition if_order : list EstablishmentType :=
  [bar; nightclub; wine_cellar; liquor_store; restaurant; supermarket].

(** [filters], without the areas. *)
Definition requested (types : list EstablishmentType) : list Clause :=
  flat_map (fun t => if includes types t then pushed t else []) if_order.

(** [kind["key"="value"]] *)
Definition selector (c : Clause) : string :=
  c.1.1 +:+ "[" +:+ quote +:+ c.1.2 +:+ quote +:+ "=" +:+ quote +:+ c.2 +:+ quote +:+ "]".

(** The rest of [s] after [pattern], when [s] starts with it. *)
Fixpoint strip (pattern s : string) : option string :=
  match pattern, s with
  | EmptyString, _ => Some s
  | String a p, String b r => if Ascii.eqb a b then strip p r else None
  | String _ _, EmptyString => None
  end.

(** [s.replace(pattern, replacement)] with a string pattern: the first
    occurrence is replaced.  The replacement is a printed number, which
    holds no dollar sign, so it is inserted as it is. *)
Fixpoint replace (pattern replacement s : string) : string :=
  match strip pattern s with
  | Some rest => replacement +:+ rest
  | None =>
      match s with
      | EmptyString => EmptyString
      | String c r => String c (replace pattern replacement r)
      end
  end.

Definition wrap (processedFilters : string) : string :=
  newline +:+ "[out:json][timeout:90];" +:+ newline +:+ "(" +:+ newline +:+ "  "
  +:+ processedFilters +:+ newline +:+ ");" +:+ newline +:+ "out center;" +:+ newline.

Section Builders.

(** The text JavaScript prints for a number, applied to reduced fractions. *)
Variable numToString : Q -> string.

Definition print (x : Q) : string := numToString (Qred x).

Definition buildOverpassQuery (lat lng radius : Q) (types : list EstablishmentType)
  : string :=
  let radiusMeters := (radius * 1000)%Q in
  let filters :=
    map (fun c => selector c +:+ "(around:{{radius}},{{lat}},{{lng}});")
      (requested types) in
  let processedFilters :=
    String.concat (newline +:+ "  ")
      (map (fun f =>
              replace "{{lng}}" (print lng)
                (replace "{{lat}}" (print lat)
                   (replace "{{radius}}" (print radiusMeters) f)))
         filters) in
  wrap processedFilters.

Definition buildOverpassQueryByCity (lat lng : Q) (boundingbox : option (list string))
    (types : list EstablishmentType) : string :=
  let areaQuery :=
    match boundingbox with
    | Some [minLat; maxLat; minLon; maxLon] =>
        "(" +:+ minLat +:+ "," +:+ minLon +:+ "," +:+ maxLat +:+ "," +:+ maxLon +:+ ")"
    | _ =>
        let radiusMeters := 20000%Q in
        "(around:" +:+ print radiusMeters +:+ "," +:+ print lat +:+ ","
        +:+ print lng +:+ ")"
    end in
  let filters := map (fun c => selector c +:+ areaQuery +:+ ";") (requested types) in
  let processedFilters := String.concat (newline +:+ "  ") filters in
  wrap processedFilters.

(** The query [queryOverpass] builds for its arguments. *)
Definition query_of (q : Query) : string :=
  match q_searchMode q, q_cityData q with
  | by_city, Some cityData =>
      buildOverpassQueryByCity (q_lat q) (q_lng q) (boundingbox cityData) (q_types q)
  | _, _ => buildOverpassQuery (q_lat q) (q_lng q) (q_radius q) (q_types q)
  end.

End Builders.

End OverpassQuery.

(** ** The query and the mapping agree *)

Module QueryFacts.
Import Overpass OverpassQuery CacheFacts.
Local Open Scope string_scope.

(** The character ['{'], code 123. *)
Definition lbrace : Ascii.ascii := Ascii.ascii_of_nat 123.

Lemma requested_pushed (types : list EstablishmentType) (c : Clause) :
  c ∈ requested types <-> exists t, includes types t = true /\ c ∈ pushed t.
Proof.
  unfold requested. rewrite list_elem_of_In, in_flat_map. split.
  - intros (t & _ & Hc). exists t.
    destruct (includes types t); [| contradiction].
    split; [reflexivity | apply list_elem_of_In; exact Hc].
  - intros (t & Hinc & Hc). exists t. split.
    + destruct t; simpl; tauto.
    + rewrite Hinc. apply list_elem_of_In. exact Hc.
Qed.

Lemma pushed_cases (t : EstablishmentType) (c : Clause) :
  c ∈ pushed t -> In c (pushed t).
Proof. apply list_elem_of_In. Qed.

Lemma tagged_has_category (tags : gmap string string) (t : EstablishmentType)
    (c : Clause) :
  In c (pushed t) -> tags !! c.1.2 = Some c.2 -> is_Some (mapOsmTagsToType tags).
Proof.
  intros Hc Htag.
  assert (Hb : tag_is tags c.1.2 c.2 = true) by (apply bool_decide_eq_true_2; exact Htag).
  clear Htag. unfold mapOsmTagsToType.
  destruct t; simpl in Hc; intuition subst; simpl in Hb;
    rewrite Hb, ?orb_true_r; simpl;
    repeat match goal with
           | |- is_Some (if ?b then _ else _) => destruct b
           end; eexists; reflexivity.
Qed.

Lemma category_is_pushed (tags : gmap string string) (t : EstablishmentType) :
  mapOsmTagsToType tags = Some t ->
  exists k v, tags !! k = Some v /\
              In ("node", k, v) (pushed t) /\ In ("way", k, v) (pushed t).
Proof.
  unfold mapOsmTagsToType, tag_is.
  repeat match goal with
         | |- context [bool_decide (?a = ?b)] =>
             destruct (bool_decide_reflect (a = b))
         end; simpl; intros [= <-];
    match goal with
    | H : tags !! ?k = Some ?v |- _ =>
        first [ solve [exists k, v; simpl; tauto] | clear H ]
    end;
    repeat match goal with
    | H : tags !! ?k = Some ?v |- _ =>
        first [ solve [exists k, v; simpl; tauto] | clear H ]
    end.
Qed.

(** The query and the mapping name the same tags.  Every filter of the
    query is on nodes or on ways, and an element carrying the tag of any
    filter gets a category, so no element the query matches is dropped for
    want of one.  In the other direction, whatever the mapping puts in a
    requested category carries a tag that the query asks for, on nodes and
    on ways. *)
Theorem query_agrees_with_mapping (types : list EstablishmentType) :
  (forall c, c ∈ requested types ->
     (c.1.1 = "node" \/ c.1.1 = "way") /\
     forall tags, tags !! c.1.2 = Some c.2 -> is_Some (mapOsmTagsToType tags)) /\
  (forall tags t, mapOsmTagsToType tags = Some t -> includes types t = true ->
     exists k v, tags !! k = Some v /\
                 ("node", k, v) ∈ requested types /\
                 ("way", k, v) ∈ requested types).
Proof.
  split.
  - intros c Hc. apply requested_pushed in Hc as (t & _ & Hc).
    apply pushed_cases in Hc. split.
    + destruct t; simpl in Hc; intuition subst; simpl; tauto.
    + intros tags Htag. exact (tagged_has_category tags t c Hc Htag).
  - intros tags t Hmap Hinc.
    destruct (category_is_pushed tags t Hmap) as (k & v & Htag & Hn & Hw).
    exists k, v. split; [exact Htag |].
    split; apply requested_pushed; exists t; (split; [exact Hinc |]);
      apply list_elem_of_In; assumption.
Qed.

Lemma replace_unfold (pattern replacement s : string) :
  replace pattern replacement s
  = match strip pattern s with
    | Some rest => replacement +:+ rest
    | None =>
        match s with
        | EmptyString => EmptyString
        | String c r => String c (replace pattern replacement r)
        end
    end.
Proof. destruct s; reflexivity. Qed.

Lemma strip_app (pattern s : string) : strip pattern (pattern +:+ s) = Some s.
Proof.
  induction pattern as [| a p IH]; [destruct s; reflexivity |].
  rewrite app_cons. simpl. rewrite Ascii.eqb_refl. exact IH.
Qed.

Lemma replace_here (pattern replacement s : string) :
  replace pattern replacement (pattern +:+ s) = replacement +:+ s.
Proof. rewrite replace_unfold, strip_app. reflexivity. Qed.

Lemma replace_skip (a : Ascii.ascii) (p replacement s1 s2 : string) :
  has_char a s1 = false ->
  replace (String a p) replacement (s1 +:+ s2)
  = s1 +:+ replace (String a p) replacement s2.
Proof.
  induction s1 as [| b s1 IH]; intros H; [reflexivity |].
  simpl in H. apply orb_false_elim in H as [Hb Hs].
  rewrite !app_cons, replace_unfold. simpl.
  rewrite Ascii.eqb_sym, Hb, (IH Hs). reflexivity.
Qed.

Lemma fill_template (sel R LAT LNG : string) :
  has_char lbrace sel = false -> has_char lbrace R = false ->
  has_char lbrace LAT = false ->
  replace "{{lng}}" LNG
    (replace "{{lat}}" LAT
       (replace "{{radius}}" R (sel +:+ "(around:{{radius}},{{lat}},{{lng}});")))
  = sel +:+ "(around:" +:+ R +:+ "," +:+ LAT +:+ "," +:+ LNG +:+ ");".
Proof.
  intros Hsel HR HLAT.
  change "(around:{{radius}},{{lat}},{{lng}});"
    with ("(around:" +:+ "{{radius}}" +:+ "," +:+ "{{lat}}" +:+ "," +:+ "{{lng}}" +:+ ");").
  change "{{radius}}" with (String lbrace "{radius}}").
  change "{{lat}}" with (String lbrace "{lat}}").
  change "{{lng}}" with (String lbrace "{lng}}").
  rewrite (replace_skip lbrace _ _ sel) by exact Hsel.
  rewrite (replace_skip lbrace _ _ "(around:") by reflexivity.
  rewrite replace_here.
  rewrite (replace_skip lbrace _ _ sel) by exact Hsel.
  rewrite (replace_skip lbrace _ _ "(around:") by reflexivity.
  rewrite (replace_skip lbrace _ _ R) by exact HR.
  rewrite (replace_skip lbrace _ _ ",") by reflexivity.
  rewrite replace_here.
  rewrite (replace_skip lbrace _ _ sel) by exact Hsel.
  rewrite (replace_skip lbrace _ _ "(around:") by reflexivity.
  rewrite (replace_skip lbrace _ _ R) by exact HR.
  rewrite (replace_skip lbrace _ _ ",") by reflexivity.
  rewrite (replace_skip lbrace _ _ LAT) by exact HLAT.
  rewrite (replace_skip lbrace _ _ ",") by reflexivity.
  rewrite replace_here. reflexivity.
Qed.

Lemma selector_no_brace (types : list EstablishmentType) (c : Clause) :
  c ∈ requested types -> has_char lbrace (selector c) = false.
Proof.
  intros Hc. apply requested_pushed in Hc as (t & _ & Hc).
  apply pushed_cases in Hc.
  destruct t; simpl in Hc; intuition subst; vm_compute; reflexivity.
Qed.

(** When the printed radius and latitude hold no brace, no placeholder is
    left in the query: each filter searches around the given point, latitude
    first, within the radius turned from kilometres into metres. *)
Theorem placeholders_filled (numToString : Q -> string)
    (lat lng radius : Q) (types : list EstablishmentType) :
  has_char lbrace (print numToString (radius * 1000)) = false ->
  has_char lbrace (print numToString lat) = false ->
  buildOverpassQuery numToString lat lng radius types
  = wrap (String.concat (newline +:+ "  ")
            (map (fun c =>
                    selector c +:+ "(around:" +:+ print numToString (radius * 1000)
                    +:+ "," +:+ print numToString lat +:+ ","
                    +:+ print numToString lng +:+ ");")
               (requested types))).
Proof.
  intros HR HLAT. unfold buildOverpassQuery. f_equal. f_equal.
  rewrite map_map. apply map_ext_in. intros c Hc.
  apply fill_template; [| exact HR | exact HLAT].
  apply (selector_no_brace types). apply list_elem_of_In. exact Hc.
Qed.

Lemma placeholders_filled_witness :
  buildOverpassQuery show_fraction (488566 # 10000) (23522 # 10000) 5 [wine_cellar]
  = wrap (String.concat (newline +:+ "  ")
            (map (fun c => selector c +:+ "(around:5000/1,244283/5000,11761/5000);")
               [("node", "shop", "wine"); ("way", "shop", "wine")])).
Proof.
  rewrite (placeholders_filled show_fraction (488566 # 10000) (23522 # 10000) 5
             [wine_cellar]); [| vm_compute; reflexivity | vm_compute; reflexivity].
  vm_compute. reflexivity.
Defined.

End QueryFacts.
